(** * apim-policy-update: policy discovery, validation and reconciliation

    A shallow embedding of [src/utils.ts], [src/policy-discovery.ts],
    [src/azure-client.ts] and [src/main.ts], and the properties of the
    specification proved (or refuted) over it.

    Conventions of the embedding
    - a JavaScript string is the list of its UTF-16 code units ([jsstring]);
      [js "..."] writes a literal;
    - a value whose TypeScript type is [any]/[unknown] (thrown values, the
      parsed manifest) is a [jsval]; values with a static type are modelled at
      that type;
    - effectful code lives in the monad [M]: a computation reads the history of
      events so far, emits new events, and either returns or throws; the
      logging and output functions of [@actions/core] emit an event and never
      throw;
    - the collaborators outside the repository (the Azure SDK client, the file
      system, glob, the YAML parser, [@actions/core] inputs) are oracles that
      answer as an arbitrary function of the history. *)

From Stdlib Require Import List NArith ZArith Bool Lia String Ascii.
From Stdlib Require Import DecimalString.
Import ListNotations.

Set Implicit Arguments.

(* ===================================================================== *)
(** * JavaScript strings *)
(* ===================================================================== *)

Module JsString.

Definition jsstring := list N.

(** A literal: the code units of an ASCII string. *)
Definition js (s : string) : jsstring := map N_of_ascii (list_ascii_of_string s).
Arguments js s%_string.

(** [a === b] on strings *)
Fixpoint eqb (a b : jsstring) : bool :=
  match a, b with
  | [], [] => true
  | x :: a', y :: b' => N.eqb x y && eqb a' b'
  | _, _ => false
  end.

Lemma eqb_eq a b : eqb a b = true <-> a = b.
Proof.
  revert b. induction a as [|x a IH]; intros [|y b]; simpl; try (split; congruence).
  rewrite andb_true_iff, N.eqb_eq, IH. split; [intros [-> ->]|intros H; injection H]; auto.
Qed.

Lemma eqb_refl a : eqb a a = true.
Proof. now apply eqb_eq. Qed.

Lemma eqb_neq a b : eqb a b = false <-> a <> b.
Proof.
  destruct (eqb a b) eqn:E.
  - apply eqb_eq in E. split; congruence.
  - split; [|reflexivity]. intros _ H. apply eqb_eq in H. congruence.
Qed.

(** WhiteSpace and LineTerminator code units of ECMAScript, the characters
    [String.prototype.trim] removes. *)
Definition is_whitespace (c : N) : bool :=
  existsb (N.eqb c)
    [9; 10; 11; 12; 13; 32; 160; 5760; 8232; 8233; 8239; 8287; 12288; 65279]%N
  || ((8192 <=? c) && (c <=? 8202))%N.

Fixpoint trimStart (s : jsstring) : jsstring :=
  match s with
  | c :: s' => if is_whitespace c then trimStart s' else s
  | [] => []
  end.

Definition trimEnd (s : jsstring) : jsstring := rev (trimStart (rev s)).

Definition trim (s : jsstring) : jsstring := trimEnd (trimStart s).

Fixpoint startsWith (w s : jsstring) : bool :=
  match w, s with
  | [], _ => true
  | a :: w', b :: s' => N.eqb a b && startsWith w' s'
  | _ :: _, [] => false
  end.

Definition endsWith (w s : jsstring) : bool := startsWith (rev w) (rev s).

Fixpoint includes (w s : jsstring) : bool :=
  startsWith w s || match s with [] => false | _ :: s' => includes w s' end.

(** [Array.prototype.join] on an array of strings. *)
Fixpoint join (sep : jsstring) (l : list jsstring) : jsstring :=
  match l with
  | [] => []
  | [a] => a
  | a :: l' => a ++ sep ++ join sep l'
  end.

(** [Array.prototype.includes] on an array of strings. *)
Definition array_includes (l : list jsstring) (x : jsstring) : bool :=
  existsb (eqb x) l.

(** Decimal rendering of a natural number, as in a template literal. *)
Definition of_nat (n : nat) : jsstring :=
  js (NilZero.string_of_uint (Nat.to_uint n)).

End JsString.
Import JsString.

(* ===================================================================== *)
(** * The regular expressions of utils.ts

    The four patterns use literals, the classes [[/\\]] and [[^/\\]], a greedy
    [+] over a class, one capture group and the anchor [$]. A pattern is the
    list of its items; [exec] is the backtracking matcher at one start
    position; [search] tries the start positions from the left, which is what
    [String.prototype.match] does for a pattern without the [g] flag. *)
(* ===================================================================== *)

Module Regex.

Inductive item : Type :=
| One (p : N -> bool)        (* one character of a class; a literal is a singleton class *)
| Plus (p : N -> bool)       (* [p+], greedy *)
| GroupOpen                  (* ( *)
| GroupClose                 (* ) *)
| AtEnd.                     (* $ *)

Definition pattern := list item.

(** The text of the group being captured, if one is open. *)
Definition push (open : option jsstring) (c : N) : option jsstring :=
  match open with
  | Some t => Some (t ++ [c])
  | None => None
  end.

Definition close (open : option jsstring) (caps : list jsstring) : list jsstring :=
  match open with
  | Some t => caps ++ [t]
  | None => caps
  end.

(** [exec p open caps s]: match [p] against a prefix of [s]; the result is the
    list of captured groups. *)
Fixpoint exec (p : pattern) : option jsstring -> list jsstring -> jsstring -> option (list jsstring) :=
  match p with
  | [] => fun _ caps _ => Some caps
  | One q :: k => fun open caps s =>
      match s with
      | c :: s' => if q c then exec k (push open c) caps s' else None
      | [] => None
      end
  | Plus q :: k =>
      fix plus (open : option jsstring) (caps : list jsstring) (s : jsstring) :=
        match s with
        | c :: s' =>
            if q c then
              match plus (push open c) caps s' with
              | Some r => Some r
              | None => exec k (push open c) caps s'
              end
            else None
        | [] => None
        end
  | GroupOpen :: k => fun _ caps s => exec k (Some []) caps s
  | GroupClose :: k => fun open caps s => exec k None (close open caps) s
  | AtEnd :: k => fun open caps s =>
      match s with
      | [] => exec k open caps []
      | _ :: _ => None
      end
  end.

(** [s.match(p)]: the captures of the leftmost match, or [None] for [null]. *)
Fixpoint search (p : pattern) (s : jsstring) : option (list jsstring) :=
  match exec p None [] s with
  | Some r => Some r
  | None =>
      match s with
      | [] => None
      | _ :: s' => search p s'
      end
  end.

(** [match[1]] *)
Definition group1 (m : list jsstring) : jsstring := nth 0 m [].

Definition lit (s : string) : pattern := map (fun c => One (N.eqb c)) (js s).

(** [[/\\]] *)
Definition is_sep (c : N) : bool := N.eqb c 47 || N.eqb c 92.
(** [[^/\\]] *)
Definition not_sep (c : N) : bool := negb (is_sep c).

End Regex.
Import Regex.

(* ===================================================================== *)
(** * utils.ts *)
(* ===================================================================== *)

(** [validateXmlContent]; [!content] is true of the empty string only. *)
Definition validateXmlContent (content : jsstring) : bool :=
  if eqb content [] || (List.length (trim content) =? 0)%nat then false
  else
    let trimmed := trim content in
    if negb (startsWith (js "<") trimmed) || negb (endsWith (js ">") trimmed) then false
    else if negb (includes (js "<policies>") trimmed)
            || negb (includes (js "</policies>") trimmed) then false
    else true.

(** [/policies[/\\]([^/\\]+)[/\\]/] *)
Definition apiId_re : pattern :=
  lit "policies" ++ [One is_sep; GroupOpen; Plus not_sep; GroupClose; One is_sep].

(** [/policies[/\\][^/\\]+[/\\]operations[/\\]([^/\\]+)\.xml$/] *)
Definition operationId_re : pattern :=
  lit "policies" ++ [One is_sep; Plus not_sep; One is_sep] ++ lit "operations"
  ++ [One is_sep; GroupOpen; Plus not_sep; GroupClose] ++ lit ".xml" ++ [AtEnd].

(** [/policies[/\\][^/\\]+[/\\]api\.xml$/] *)
Definition apiLevel_re : pattern :=
  lit "policies" ++ [One is_sep; Plus not_sep; One is_sep] ++ lit "api.xml" ++ [AtEnd].

(** [/policies[/\\][^/\\]+[/\\]operations[/\\][^/\\]+\.xml$/] *)
Definition operationLevel_re : pattern :=
  lit "policies" ++ [One is_sep; Plus not_sep; One is_sep] ++ lit "operations"
  ++ [One is_sep; Plus not_sep] ++ lit ".xml" ++ [AtEnd].

Definition extractApiIdFromPath (filePath : jsstring) : option jsstring :=
  match search apiId_re filePath with
  | Some m => Some (group1 m)
  | None => None
  end.

Definition extractOperationIdFromPath (filePath : jsstring) : option jsstring :=
  match search operationId_re filePath with
  | Some m => Some (group1 m)
  | None => None
  end.

Definition isApiLevelPolicy (filePath : jsstring) : bool :=
  match search apiLevel_re filePath with
  | Some _ => true
  | None => false
  end.

Definition isOperationLevelPolicy (filePath : jsstring) : bool :=
  match search operationLevel_re filePath with
  | Some _ => true
  | None => false
  end.

(** The checks of the test-suite of utils.ts. *)
Example utils_tests :
  extractApiIdFromPath (js "policies/my-api/api.xml") = Some (js "my-api")
  /\ extractApiIdFromPath (js "policies\my-api\api.xml") = Some (js "my-api")
  /\ extractApiIdFromPath (js "policies/my-api/operations/get-users.xml") = Some (js "my-api")
  /\ extractApiIdFromPath (js "invalid/path.xml") = None
  /\ extractApiIdFromPath (js "policies/") = None
  /\ extractOperationIdFromPath (js "policies/my-api/operations/get-users.xml") = Some (js "get-users")
  /\ extractOperationIdFromPath (js "policies\my-api\operations\post-users.xml") = Some (js "post-users")
  /\ extractOperationIdFromPath (js "policies/my-api/api.xml") = None
  /\ isApiLevelPolicy (js "policies/my-api/api.xml") = true
  /\ isApiLevelPolicy (js "policies/my-api/operations/get-users.xml") = false
  /\ isApiLevelPolicy (js "invalid/path.xml") = false
  /\ isOperationLevelPolicy (js "policies\my-api\operations\post-users.xml") = true
  /\ isOperationLevelPolicy (js "policies/my-api/api.xml") = false
  /\ isOperationLevelPolicy (js "invalid/path.xml") = false.
Proof. repeat split; vm_compute; reflexivity. Qed.

(* ===================================================================== *)
(** * Dynamically typed values

    Thrown values and the parsed manifest have no static type; the code
    inspects them with truthiness tests, [typeof], [instanceof], [in] and
    property reads. An object is its class (an [Error] instance or not) and its
    own properties in enumeration order. Numbers are integers: the code only
    tests them for truthiness and renders them. *)
(* ===================================================================== *)

#[warnings="-register-all"]
Inductive jsval : Type :=
| VUndefined
| VNull
| VBool (b : bool)
| VNumber (z : Z)
| VString (s : jsstring)
| VObject (isError : bool) (props : list (jsstring * jsval)).

(** The completion of a call: a value, or a thrown value. *)
Inductive outcome (A : Type) : Type :=
| Ok (a : A)
| Throw (v : jsval).
Arguments Ok {A} a.
Arguments Throw {A} v.

Module Js.

Definition truthy (v : jsval) : bool :=
  match v with
  | VUndefined | VNull => false
  | VBool b => b
  | VNumber z => negb (Z.eqb z 0)
  | VString s => negb (eqb s [])
  | VObject _ _ => true
  end.

(** [typeof v === 'object'] *)
Definition typeof_object (v : jsval) : bool :=
  match v with
  | VNull | VObject _ _ => true
  | _ => false
  end.

(** [v instanceof Error] *)
Definition instanceof_Error (v : jsval) : bool :=
  match v with
  | VObject true _ => true
  | _ => false
  end.

Fixpoint lookup (k : jsstring) (props : list (jsstring * jsval)) : option jsval :=
  match props with
  | [] => None
  | (k', v) :: rest => if eqb k k' then Some v else lookup k rest
  end.

(** [k in v], for an object [v]. *)
Definition has_property (k : jsstring) (v : jsval) : bool :=
  match v with
  | VObject _ props => match lookup k props with Some _ => true | None => false end
  | _ => false
  end.

(** [new Error(message)] *)
Definition new_Error (message : jsstring) : jsval :=
  VObject true [(js "message", VString message)].

Definition kind_name (v : jsval) : jsstring :=
  match v with VNull => js "null" | _ => js "undefined" end.

(** The [TypeError] of reading a property of [undefined] or [null]. *)
Definition type_error (v : jsval) (k : jsstring) : jsval :=
  new_Error (js "Cannot read properties of " ++ kind_name v
             ++ js " (reading '" ++ k ++ js "')").

(** [v.k], for the property names the program reads ([message], [response],
    [data], [error], [policies], [apiPolicyPath], [operations]): a missing
    property is [undefined], except that every [Error] inherits an empty
    [message]; a primitive has none of these properties; reading a property of
    [undefined] or [null] throws. *)
Definition get_prop (v : jsval) (k : jsstring) : outcome jsval :=
  match v with
  | VUndefined | VNull => Throw (type_error v k)
  | VObject isError props =>
      match lookup k props with
      | Some x => Ok x
      | None => if isError && eqb k (js "message") then Ok (VString []) else Ok VUndefined
      end
  | _ => Ok VUndefined
  end.

(** [v.k] where the code has checked that [v] is an object or truthy, so that
    the read cannot throw. *)
Definition read (v : jsval) (k : jsstring) : jsval :=
  match get_prop v k with
  | Ok x => x
  | Throw _ => VUndefined
  end.

Fixpoint indexed (i : nat) (s : jsstring) : list (jsstring * jsval) :=
  match s with
  | [] => []
  | c :: s' => (of_nat i, VString [c]) :: indexed (S i) s'
  end.

(** [Object.entries(v)] for a [v] that is neither [undefined] nor [null]. *)
Definition object_entries (v : jsval) : list (jsstring * jsval) :=
  match v with
  | VObject _ props => props
  | VString s => indexed 0 s
  | _ => []
  end.

(** [Object.keys(v).length] *)
Definition keys_length (v : jsval) : nat := List.length (object_entries v).

Definition of_Z (z : Z) : jsstring :=
  js (NilZero.string_of_int (Z.to_int z)).

(** The string a template literal renders for [v]; how an object renders
    depends on its [toString], which is left to [object_to_string]. *)
Definition to_string (object_to_string : jsval -> jsstring) (v : jsval) : jsstring :=
  match v with
  | VUndefined => js "undefined"
  | VNull => js "null"
  | VBool true => js "true"
  | VBool false => js "false"
  | VNumber z => of_Z z
  | VString s => s
  | VObject _ _ => object_to_string v
  end.

End Js.

(* ===================================================================== *)
(** * types.ts *)
(* ===================================================================== *)

Record ApimConfig : Type := {
  subscriptionId : jsstring;
  resourceGroupName : jsstring;
  serviceName : jsstring;
  policyManifestPath : option jsstring
}.

Inductive Scope : Type := ScopeApi | ScopeOperation.

Definition scope_name (s : Scope) : jsstring :=
  match s with ScopeApi => js "api" | ScopeOperation => js "operation" end.

Record PolicyFile : Type := {
  filePath : jsstring;
  apiId : jsstring;
  operationId : option jsstring;
  scope : Scope;
  content : jsstring
}.

(** The [error] of a result is typed [string], but the client stores there
    whatever the payload of a thrown value holds. *)
Record PolicyUpdateResult : Type := {
  r_apiId : jsstring;
  r_operationId : option jsstring;
  updated : bool;
  etag : option jsstring;
  error : option jsval
}.

(* ===================================================================== *)
(** * Events and the monad of effects *)
(* ===================================================================== *)

Inductive level : Type := Debug | Info | Warning | Error.

(** One interaction with the world: the request and the answer it got. *)
Inductive event : Type :=
(* @actions/core *)
| Log (l : level) (message : jsstring)
| SetOutput (name value : jsstring)
| SetFailed (message : jsval)
| GetInput (name : jsstring) (required : bool) (r : outcome jsstring)
(* glob, fs/promises *)
| Glob (pattern cwd : jsstring) (r : outcome (list jsstring))
| ReadFile (path : jsstring) (r : outcome jsstring)
(* @azure/arm-apimanagement; a listing yields its items, then ends or throws *)
| ServiceGet (rg svc : jsstring) (r : outcome (option jsstring * option jsstring))
| ListByService (rg svc : jsstring) (items : list (option jsstring)) (fail : option jsval)
| ListByApi (rg svc api : jsstring) (items : list (option jsstring)) (fail : option jsval)
| ApiPolicyCreateOrUpdate (rg svc api policyId value format : jsstring)
    (r : outcome (option jsstring))
| ApiOperationPolicyCreateOrUpdate (rg svc api op policyId value format : jsstring)
    (r : outcome (option jsstring))
(* the client object of main.ts *)
| TestConnection (r : outcome bool)
| ListApis (r : outcome (list jsstring))
| ListOperations (api : jsstring) (r : outcome (list jsstring))
| UpdateApiPolicy (api value : jsstring) (r : outcome PolicyUpdateResult)
| UpdateOperationPolicy (api : jsstring) (op : option jsstring) (value : jsstring)
    (r : outcome PolicyUpdateResult).

Definition history := list event.

(** A computation with local variables of type [S]: from the locals and the
    history so far, the completion, the locals afterwards and the events
    emitted. Assignments made before a throw survive it. *)
Definition M (S A : Type) : Type := S -> history -> (outcome A * S) * list event.

Module Monad.

Definition ret {S A} (a : A) : M S A := fun s _ => ((Ok a, s), []).

Definition bind {S A B} (m : M S A) (f : A -> M S B) : M S B :=
  fun s h =>
    match m s h with
    | ((Ok a, s1), e1) =>
        match f a s1 (h ++ e1) with
        | (rs, e2) => (rs, e1 ++ e2)
        end
    | ((Throw v, s1), e1) => ((Throw v, s1), e1)
    end.

Definition throw {S A} (v : jsval) : M S A := fun s _ => ((Throw v, s), []).

(** [try { m } catch (error) { handler error }] *)
Definition try_catch {S A} (m : M S A) (handler : jsval -> M S A) : M S A :=
  fun s h =>
    match m s h with
    | ((Ok a, s1), e1) => ((Ok a, s1), e1)
    | ((Throw v, s1), e1) =>
        match handler v s1 (h ++ e1) with
        | (rs, e2) => (rs, e1 ++ e2)
        end
    end.

Definition get {S} : M S S := fun s _ => ((Ok s, s), []).
Definition put {S} (s : S) : M S unit := fun _ _ => ((Ok tt, s), []).

(** A completed pure expression: its value, or what it threw. *)
Definition lift {S A} (r : outcome A) : M S A := fun s _ => ((r, s), []).

(** An interaction: the world answers [respond h], and the event is recorded;
    [ask] for an answer that is a value, [interact] for one that may throw. *)
Definition ask {S A} (respond : history -> A) (ev : A -> event) : M S A :=
  fun s h => ((Ok (respond h), s), [ev (respond h)]).

Definition interact {S A} (respond : history -> outcome A) (ev : outcome A -> event) : M S A :=
  fun s h => ((respond h, s), [ev (respond h)]).

Definition emit {S} (ev : event) : M S unit := fun s _ => ((Ok tt, s), [ev]).

(** Calling a function: it runs with its own locals, initially [s0]. *)
Definition call {S S' A} (m : M S' A) (s0 : S') : M S A :=
  fun s h => match m s0 h with ((r, _), e) => ((r, s), e) end.

(** [for (const x of l) { body x }] *)
Fixpoint for_of {S X} (l : list X) (body : X -> M S unit) : M S unit :=
  match l with
  | [] => ret tt
  | x :: l' => bind (body x) (fun _ => for_of l' body)
  end.

End Monad.
Import Monad.

Declare Scope js_scope.
Delimit Scope js_scope with js.
Notation "x <- m ;; k" := (bind m (fun x => k))
  (at level 61, m at next level, right associativity) : js_scope.
Notation "m ;; k" := (bind m (fun _ => k))
  (at level 61, right associativity) : js_scope.
Open Scope js_scope.

(** The completion and the events of running [m]. *)
Definition completion {S A} (x : (outcome A * S) * list event) : outcome A := fst (fst x).
Definition locals {S A} (x : (outcome A * S) * list event) : S := snd (fst x).
Definition events {S A} (x : (outcome A * S) * list event) : list event := snd x.

(* ===================================================================== *)
(** * The collaborators outside the repository *)
(* ===================================================================== *)

(** [@actions/core] inputs, glob, fs, path, yaml and the rendering of objects.
    [path.resolve] is total on strings and throws on any other argument. *)
Record Env : Type := {
  env_getInput : history -> jsstring -> bool -> outcome jsstring;
  env_glob : history -> jsstring -> jsstring -> outcome (list jsstring);
  env_readFile : history -> jsstring -> outcome jsstring;
  env_parseYaml : jsstring -> outcome jsval;
  env_path_join : list jsstring -> jsstring;
  env_path_resolve : jsstring -> jsstring -> jsstring;
  env_invalid_path : jsval -> jsval;
  env_object_to_string : jsval -> jsstring
}.

(** The [ApiManagementClient] of the Azure SDK. *)
Record Sdk : Type := {
  sdk_service_get : history -> jsstring -> jsstring -> outcome (option jsstring * option jsstring);
  sdk_api_listByService : history -> jsstring -> jsstring -> list (option jsstring) * option jsval;
  sdk_apiOperation_listByApi :
    history -> jsstring -> jsstring -> jsstring -> list (option jsstring) * option jsval;
  sdk_apiPolicy_createOrUpdate :
    history -> jsstring -> jsstring -> jsstring -> jsstring -> jsstring -> jsstring
    -> outcome (option jsstring);
  sdk_apiOperationPolicy_createOrUpdate :
    history -> jsstring -> jsstring -> jsstring -> jsstring -> jsstring -> jsstring -> jsstring
    -> outcome (option jsstring)
}.

Section Program.

Variable env : Env.

(** ** @actions/core *)

Definition core_debug {S} (msg : jsstring) : M S unit := emit (Log Debug msg).
Definition core_info {S} (msg : jsstring) : M S unit := emit (Log Info msg).
Definition core_warning {S} (msg : jsstring) : M S unit := emit (Log Warning msg).
Definition core_error {S} (msg : jsstring) : M S unit := emit (Log Error msg).
Definition core_setOutput {S} (name value : jsstring) : M S unit := emit (SetOutput name value).
Definition core_setFailed {S} (msg : jsval) : M S unit := emit (SetFailed msg).
Definition core_getInput {S} (name : jsstring) (required : bool) : M S jsstring :=
  interact (fun h => env_getInput env h name required) (GetInput name required).

(** [${v}] *)
Definition str (v : jsval) : jsstring := Js.to_string (env_object_to_string env) v.

(** [${s}] for an optional string *)
Definition str_opt (o : option jsstring) : jsstring :=
  match o with Some s => s | None => js "undefined" end.

(** [error instanceof Error ? error.message : 'Unknown error'] *)
Definition message_of (error : jsval) : jsval :=
  if Js.instanceof_Error error then Js.read error (js "message")
  else VString (js "Unknown error").

(** The names a listing collects: [if (x.name) ids.push(x.name)]. *)
Fixpoint collect_names (items : list (option jsstring)) : list jsstring :=
  match items with
  | [] => []
  | Some n :: rest => if eqb n [] then collect_names rest else n :: collect_names rest
  | None :: rest => collect_names rest
  end.

(** ** azure-client.ts *)

Section AzureApimClient.

Variable client : Sdk.
Variable config : ApimConfig.

Let rg := resourceGroupName config.
Let svc := serviceName config.

Definition listApis : M unit (list jsstring) :=
  try_catch
    (core_debug (js "Listing APIs in APIM service...") ;;
     apis <- ask (fun h => sdk_api_listByService client h rg svc)
                 (fun r => ListByService rg svc (fst r) (snd r)) ;;
     let apiIds := collect_names (fst apis) in
     match snd apis with
     | Some e => throw e
     | None =>
         core_debug (js "Found " ++ of_nat (List.length apiIds) ++ js " APIs: "
                     ++ join (js ", ") apiIds) ;;
         ret apiIds
     end)
    (fun error =>
       let errorMessage := message_of error in
       core_warning (js "Failed to list APIs: " ++ str errorMessage) ;;
       ret []).

Definition listOperations (apiId : jsstring) : M unit (list jsstring) :=
  try_catch
    (core_debug (js "Listing operations for API: " ++ apiId) ;;
     operations <- ask (fun h => sdk_apiOperation_listByApi client h rg svc apiId)
                       (fun r => ListByApi rg svc apiId (fst r) (snd r)) ;;
     let operationIds := collect_names (fst operations) in
     match snd operations with
     | Some e => throw e
     | None =>
         core_debug (js "Found " ++ of_nat (List.length operationIds) ++ js " operations for "
                     ++ apiId ++ js ": " ++ join (js ", ") operationIds) ;;
         ret operationIds
     end)
    (fun error =>
       let errorMessage := message_of error in
       core_warning (js "Failed to list operations for " ++ apiId ++ js ": "
                     ++ str errorMessage) ;;
       ret []).

Definition testConnection : M unit bool :=
  try_catch
    (core_info (js "Testing Azure connection...") ;;
     service <- interact (fun h => sdk_service_get client h rg svc) (ServiceGet rg svc) ;;
     core_info (js "Azure connection test successful") ;;
     core_debug (js "APIM Service: " ++ str_opt (fst service) ++ js " ("
                 ++ str_opt (snd service) ++ js ")") ;;
     ret true)
    (fun error =>
       let errorMessage := message_of error in
       core_error (js "Azure connection test failed: " ++ str errorMessage) ;;
       ret false).

(** The message computed in the catch block of the two direct updates. *)
Definition direct_error_message (error : jsval) : jsval :=
  if Js.instanceof_Error error then
    if Js.has_property (js "response") error
       && Js.truthy (Js.read error (js "response"))
       && Js.typeof_object (Js.read error (js "response")) then
      let response := Js.read error (js "response") in
      if Js.truthy (Js.read response (js "data"))
         && Js.typeof_object (Js.read response (js "data")) then
        let data := Js.read response (js "data") in
        if Js.truthy (Js.read data (js "error"))
           && Js.truthy (Js.read (Js.read data (js "error")) (js "message")) then
          Js.read (Js.read data (js "error")) (js "message")
        else if Js.truthy (Js.read data (js "message")) then
          Js.read data (js "message")
        else Js.read error (js "message")
      else Js.read error (js "message")
    else Js.read error (js "message")
  else VString (js "Unknown error").

Definition etag_or_empty (eTag : option jsstring) : jsstring :=
  match eTag with Some t => t | None => [] end.

Definition updateApiPolicyDirect (apiId policyContent : jsstring) : M unit PolicyUpdateResult :=
  try_catch
    (result <- interact
       (fun h => sdk_apiPolicy_createOrUpdate client h rg svc apiId (js "policy")
                   policyContent (js "xml"))
       (ApiPolicyCreateOrUpdate rg svc apiId (js "policy") policyContent (js "xml")) ;;
     ret {| r_apiId := apiId; r_operationId := None; updated := true;
            etag := Some (etag_or_empty result); error := None |})
    (fun error =>
       let errorMessage := direct_error_message error in
       core_error (js "Failed to update API policy for " ++ apiId ++ js ": "
                   ++ str errorMessage) ;;
       ret {| r_apiId := apiId; r_operationId := None; updated := false;
              etag := None; error := Some errorMessage |}).

Definition updateOperationPolicyDirect (apiId operationId policyContent : jsstring)
  : M unit PolicyUpdateResult :=
  try_catch
    (result <- interact
       (fun h => sdk_apiOperationPolicy_createOrUpdate client h rg svc apiId operationId
                   (js "policy") policyContent (js "xml"))
       (ApiOperationPolicyCreateOrUpdate rg svc apiId operationId (js "policy")
          policyContent (js "xml")) ;;
     ret {| r_apiId := apiId; r_operationId := Some operationId; updated := true;
            etag := Some (etag_or_empty result); error := None |})
    (fun error =>
       let errorMessage := direct_error_message error in
       core_error (js "Failed to update operation policy for " ++ apiId ++ js "/"
                   ++ operationId ++ js ": " ++ str errorMessage) ;;
       ret {| r_apiId := apiId; r_operationId := Some operationId; updated := false;
              etag := None; error := Some errorMessage |}).

Definition updateApiPolicy (apiId newPolicyContent : jsstring) : M unit PolicyUpdateResult :=
  try_catch
    (apis <- call listApis tt ;;
     if negb (array_includes apis apiId) then
       core_warning (js "API '" ++ apiId
                     ++ js "' does not exist in APIM service. Available APIs: "
                     ++ join (js ", ") apis) ;;
       ret {| r_apiId := apiId; r_operationId := None; updated := false; etag := None;
              error := Some (VString (js "API '" ++ apiId ++ js "' not found. Available APIs: "
                                      ++ join (js ", ") apis)) |}
     else
       core_info (js "Updating API policy for: " ++ apiId) ;;
       call (updateApiPolicyDirect apiId newPolicyContent) tt)
    (fun error =>
       let errorMessage := message_of error in
       core_error (js "Failed to update API policy for " ++ apiId ++ js ": "
                   ++ str errorMessage) ;;
       ret {| r_apiId := apiId; r_operationId := None; updated := false; etag := None;
              error := Some errorMessage |}).

Definition updateOperationPolicy (apiId operationId newPolicyContent : jsstring)
  : M unit PolicyUpdateResult :=
  try_catch
    (apis <- call listApis tt ;;
     if negb (array_includes apis apiId) then
       core_warning (js "API '" ++ apiId
                     ++ js "' does not exist in APIM service. Available APIs: "
                     ++ join (js ", ") apis) ;;
       ret {| r_apiId := apiId; r_operationId := Some operationId; updated := false;
              etag := None;
              error := Some (VString (js "API '" ++ apiId ++ js "' not found. Available APIs: "
                                      ++ join (js ", ") apis)) |}
     else
       operations <- call (listOperations apiId) tt ;;
       if negb (array_includes operations operationId) then
         core_warning (js "Operation '" ++ operationId ++ js "' does not exist in API '"
                       ++ apiId ++ js "'. Available operations: "
                       ++ join (js ", ") operations) ;;
         ret {| r_apiId := apiId; r_operationId := Some operationId; updated := false;
                etag := None;
                error := Some (VString (js "Operation '" ++ operationId
                                        ++ js "' not found in API '" ++ apiId
                                        ++ js "'. Available operations: "
                                        ++ join (js ", ") operations)) |}
       else
         core_info (js "Updating operation policy for: " ++ apiId ++ js "/" ++ operationId) ;;
         call (updateOperationPolicyDirect apiId operationId newPolicyContent) tt)
    (fun error =>
       let errorMessage := message_of error in
       core_error (js "Failed to update operation policy for " ++ apiId ++ js "/"
                   ++ operationId ++ js ": " ++ str errorMessage) ;;
       ret {| r_apiId := apiId; r_operationId := Some operationId; updated := false;
              etag := None; error := Some errorMessage |}).

End AzureApimClient.

(** ** policy-discovery.ts *)

(** A string-or-null value that passes [if (x)]: a non-empty string. *)
Definition truthy_string (o : option jsstring) : option jsstring :=
  match o with
  | Some s => if eqb s [] then None else Some s
  | None => None
  end.

(** [.replace(/\\/g, '/')] *)
Definition replace_backslashes (s : jsstring) : jsstring :=
  map (fun c => if N.eqb c 92 then 47%N else c) s.

(** [path.resolve(baseDir, v)] for an argument of any type. *)
Definition path_resolve_any (baseDir : jsstring) (v : jsval) : outcome jsstring :=
  match v with
  | VString s => Ok (env_path_resolve env baseDir s)
  | _ => Throw (env_invalid_path env v)
  end.

Definition readFile {S} (path : jsstring) : M S jsstring :=
  interact (fun h => env_readFile env h path) (ReadFile path).

(** [policies.push(p)], on the local array [policies]. *)
Definition push_policy (p : PolicyFile) : M (list PolicyFile) unit :=
  policies <- get ;; put (policies ++ [p]).

(** In the three discovery functions the local variable is the array
    [policies], which the function returns at its end. *)
Definition discoverPoliciesFromDefaultStructure (baseDir : jsstring) : M unit (list PolicyFile) :=
  call
    (try_catch
       (let policyPattern :=
          replace_backslashes (env_path_join env [baseDir; js "policies"; js "**"; js "*.xml"]) in
        core_debug (js "Searching for policy files with pattern: " ++ policyPattern) ;;
        policyFiles <- interact (fun h => env_glob env h policyPattern baseDir)
                                (Glob policyPattern baseDir) ;;
        core_info (js "Found " ++ of_nat (List.length policyFiles)
                   ++ js " potential policy files") ;;
        for_of policyFiles (fun filePath =>
          let absolutePath := env_path_resolve env baseDir filePath in
          try_catch
            (content <- readFile absolutePath ;;
             if negb (validateXmlContent content) then
               core_warning (js "Skipping invalid XML file: " ++ filePath)
             else
               match truthy_string (extractApiIdFromPath filePath) with
               | None => core_warning (js "Cannot extract API ID from path: " ++ filePath)
               | Some apiId =>
                   if isApiLevelPolicy filePath then
                     push_policy {| filePath := absolutePath; apiId := apiId;
                                    operationId := None; scope := ScopeApi;
                                    content := content |} ;;
                     core_debug (js "Added policy: " ++ apiId ++ js "/" ++ js "api"
                                 ++ js " from " ++ filePath)
                   else if isOperationLevelPolicy filePath then
                     match truthy_string (extractOperationIdFromPath filePath) with
                     | None =>
                         core_warning (js "Cannot extract operation ID from path: " ++ filePath)
                     | Some extractedOperationId =>
                         push_policy {| filePath := absolutePath; apiId := apiId;
                                        operationId := Some extractedOperationId;
                                        scope := ScopeOperation; content := content |} ;;
                         core_debug (js "Added policy: " ++ apiId ++ js "/"
                                     ++ extractedOperationId ++ js " from " ++ filePath)
                     end
                   else
                     core_warning (js "Unknown policy scope for file: " ++ filePath)
               end)
            (fun error =>
               let errorMessage := message_of error in
               core_warning (js "Failed to process policy file " ++ filePath ++ js ": "
                             ++ str errorMessage))))
       (fun error =>
          let errorMessage := message_of error in
          core_error (js "Failed to discover policies from default structure: "
                      ++ str errorMessage)) ;;
     get)
    [].

(** The manifest is returned as parsed: [null] is [None]. *)
Definition loadPolicyManifest (manifestPath : jsstring) : M unit (option jsval) :=
  try_catch
    (core_info (js "Loading policy manifest from: " ++ manifestPath) ;;
     manifestContent <- readFile manifestPath ;;
     manifest <- lift (env_parseYaml env manifestContent) ;;
     if negb (Js.truthy manifest) || negb (Js.truthy (Js.read manifest (js "policies"))) then
       core_error (js "Invalid manifest format: missing policies section") ;;
       ret None
     else
       core_info (js "Loaded manifest with "
                  ++ of_nat (Js.keys_length (Js.read manifest (js "policies")))
                  ++ js " API entries") ;;
       ret (Some manifest))
    (fun error =>
       let errorMessage := message_of error in
       core_error (js "Failed to load policy manifest: " ++ str errorMessage) ;;
       ret None).

Definition discoverPoliciesFromManifest (manifestPath baseDir : jsstring)
  : M unit (list PolicyFile) :=
  call
    (manifest <- call (loadPolicyManifest manifestPath) tt ;;
     match manifest with
     | None => get
     | Some manifest =>
         for_of (Js.object_entries (Js.read manifest (js "policies")))
           (fun '(apiId, apiConfig) =>
              try_catch
                (apiPolicyPath <- lift (Js.get_prop apiConfig (js "apiPolicyPath")) ;;
                 (if Js.truthy apiPolicyPath then
                    absolutePath <- lift (path_resolve_any baseDir apiPolicyPath) ;;
                    try_catch
                      (content <- readFile absolutePath ;;
                       if validateXmlContent content then
                         push_policy {| filePath := absolutePath; apiId := apiId;
                                        operationId := None; scope := ScopeApi;
                                        content := content |} ;;
                         core_debug (js "Added API policy for " ++ apiId ++ js " from manifest")
                       else
                         core_warning (js "Invalid XML content in API policy for " ++ apiId
                                       ++ js ": " ++ str apiPolicyPath))
                      (fun error =>
                         let errorMessage := message_of error in
                         core_warning (js "Failed to read API policy for " ++ apiId ++ js ": "
                                       ++ str errorMessage))
                  else ret tt) ;;
                 operations <- lift (Js.get_prop apiConfig (js "operations")) ;;
                 if Js.truthy operations then
                   for_of (Js.object_entries operations)
                     (fun '(operationId, operationPath) =>
                        absolutePath <- lift (path_resolve_any baseDir operationPath) ;;
                        try_catch
                          (content <- readFile absolutePath ;;
                           if validateXmlContent content then
                             push_policy {| filePath := absolutePath; apiId := apiId;
                                            operationId := Some operationId;
                                            scope := ScopeOperation; content := content |} ;;
                             core_debug (js "Added operation policy for " ++ apiId ++ js "/"
                                         ++ operationId ++ js " from manifest")
                           else
                             core_warning (js "Invalid XML content in operation policy for "
                                           ++ apiId ++ js "/" ++ operationId ++ js ": "
                                           ++ str operationPath))
                          (fun error =>
                             let errorMessage := message_of error in
                             core_warning (js "Failed to read operation policy for " ++ apiId
                                           ++ js "/" ++ operationId ++ js ": "
                                           ++ str errorMessage)))
                 else ret tt)
                (fun error =>
                   let errorMessage := message_of error in
                   core_warning (js "Failed to process API configuration for " ++ apiId
                                 ++ js ": " ++ str errorMessage))) ;;
         get
     end)
    [].

(** [baseDir] is the default ['.'] where main.ts calls it. *)
Definition discoverPolicies (manifestPath : option jsstring) (baseDir : jsstring)
  : M unit (list PolicyFile) :=
  match truthy_string manifestPath with
  | Some manifestPath =>
      core_info (js "Using policy manifest for discovery") ;;
      call (discoverPoliciesFromManifest manifestPath baseDir) tt
  | None =>
      core_info (js "Using default directory structure for discovery") ;;
      call (discoverPoliciesFromDefaultStructure baseDir) tt
  end.

(** The [Map] of validatePolicies: keys in insertion order, a key set again
    keeps its place. *)
Record counts : Type := { api : nat; operations : nat }.

Fixpoint map_get (k : jsstring) (m : list (jsstring * counts)) : option counts :=
  match m with
  | [] => None
  | (k', v) :: rest => if eqb k k' then Some v else map_get k rest
  end.

Fixpoint map_set (k : jsstring) (v : counts) (m : list (jsstring * counts))
  : list (jsstring * counts) :=
  match m with
  | [] => [(k, v)]
  | (k', v') :: rest => if eqb k k' then (k', v) :: rest else (k', v') :: map_set k v rest
  end.

(** The locals of validatePolicies. *)
Record validation : Type := { isValid : bool; apiCounts : list (jsstring * counts) }.

Definition set_invalid : M validation unit :=
  st <- get ;; put {| isValid := false; apiCounts := apiCounts st |}.

(** The body of the loop over the policies. *)
Definition count_policy (policy : PolicyFile) : M validation unit :=
  st <- get ;;
  let c := match map_get (apiId policy) (apiCounts st) with
           | Some c => c
           | None => {| api := 0; operations := 0 |}
           end in
  let c := match scope policy with
           | ScopeApi => {| api := S (api c); operations := operations c |}
           | ScopeOperation => {| api := api c; operations := S (operations c) |}
           end in
  put {| isValid := isValid st; apiCounts := map_set (apiId policy) c (apiCounts st) |} ;;
  if negb (validateXmlContent (content policy)) then
    core_error (js "Invalid XML content in policy: " ++ filePath policy) ;;
    set_invalid
  else ret tt.

(** The body of the loop over the entries of the map. *)
Definition report_counts (entry : jsstring * counts) : M validation unit :=
  let '(apiId, c) := entry in
  core_info (js "API " ++ apiId ++ js ": " ++ of_nat (api c) ++ js " API policy, "
             ++ of_nat (operations c) ++ js " operation policies") ;;
  if (1 <? api c)%nat then
    core_warning (js "Multiple API policies found for " ++ apiId) ;;
    set_invalid
  else ret tt.

Definition validatePolicies (policies : list PolicyFile) : M unit bool :=
  call
    (if (List.length policies =? 0)%nat then
       core_warning (js "No policy files discovered") ;;
       ret false
     else
       for_of policies count_policy ;;
       st <- get ;;
       for_of (apiCounts st) report_counts ;;
       st <- get ;;
       ret (isValid st))
    {| isValid := true; apiCounts := [] |}.

(** ** utils.ts: parseInputs *)

Definition parseInputs : M unit ApimConfig :=
  subscriptionId <- core_getInput (js "subscription_id") true ;;
  resourceGroupName <- core_getInput (js "resource_group") true ;;
  serviceName <- core_getInput (js "apim_name") true ;;
  policyManifestPath <- core_getInput (js "policy_manifest_path") false ;;
  let policyManifestPath := truthy_string (Some policyManifestPath) in
  if eqb subscriptionId [] then throw (Js.new_Error (js "subscription_id input is required"))
  else if eqb resourceGroupName [] then
    throw (Js.new_Error (js "resource_group input is required"))
  else if eqb serviceName [] then throw (Js.new_Error (js "apim_name input is required"))
  else
    core_info (js "Configuration loaded:") ;;
    core_info (js "  Subscription ID: " ++ subscriptionId) ;;
    core_info (js "  Resource Group: " ++ resourceGroupName) ;;
    core_info (js "  APIM Service: " ++ serviceName) ;;
    match policyManifestPath with
    | Some p => core_info (js "  Policy Manifest: " ++ p)
    | None => ret tt
    end ;;
    ret {| subscriptionId := subscriptionId; resourceGroupName := resourceGroupName;
           serviceName := serviceName; policyManifestPath := policyManifestPath |}.

(** ** main.ts

    The client object is what [new AzureApimClient(config)] evaluates to; as in
    the test-suite of main.ts, the constructor is a parameter of [run]. The
    non-null assertion of [policy.operationId!] is erased at run time: an
    absent operationId reaches the client as [undefined]. *)

Record Client : Type := {
  c_testConnection : M unit bool;
  c_listApis : M unit (list jsstring);
  c_listOperations : jsstring -> M unit (list jsstring);
  c_updateApiPolicy : jsstring -> jsstring -> M unit PolicyUpdateResult;
  c_updateOperationPolicy : jsstring -> option jsstring -> jsstring -> M unit PolicyUpdateResult
}.

Variable new_AzureApimClient : ApimConfig -> M unit Client.

(** [${policy.apiId}${policy.operationId ? `/${policy.operationId}` : ''}] *)
Definition policy_name (policy : PolicyFile) : jsstring :=
  apiId policy ++ match truthy_string (operationId policy) with
                  | Some op => js "/" ++ op
                  | None => []
                  end.

Definition truthy_opt (o : option jsval) : bool :=
  match o with Some v => Js.truthy v | None => false end.

Definition str_any (o : option jsval) : jsstring :=
  match o with Some v => str v | None => js "undefined" end.

(** The body of the loop of [run]; the local variable is [lastETag]. *)
Definition processPolicy (client : Client) (policy : PolicyFile) : M jsstring unit :=
  try_catch
    (result <- match scope policy with
               | ScopeApi => call (c_updateApiPolicy client (apiId policy) (content policy)) tt
               | ScopeOperation =>
                   call (c_updateOperationPolicy client (apiId policy) (operationId policy)
                           (content policy)) tt
               end ;;
     if updated result then
       match truthy_string (etag result) with
       | Some e => put e
       | None => ret tt
       end ;;
       core_info (js "Successfully updated " ++ scope_name (scope policy) ++ js " policy: "
                  ++ policy_name policy)
     else if truthy_opt (error result) then
       core_error (js "Failed to update " ++ scope_name (scope policy) ++ js " policy: "
                   ++ policy_name policy ++ js " - " ++ str_any (error result))
     else ret tt)
    (fun error =>
       let errorMessage := message_of error in
       core_error (js "Error processing policy " ++ filePath policy ++ js ": "
                   ++ str errorMessage)).

(** The loop of [run]. *)
Definition processPolicies (client : Client) (policies : list PolicyFile) : M jsstring unit :=
  for_of policies (processPolicy client).

(** [run] is written in two halves: up to and including discovery, and from
    the test for an empty discovery on. *)
Definition run_setup : M jsstring (Client * list PolicyFile) :=
  core_info (js "Starting Azure API Management Policy Update action...") ;;
  config <- call parseInputs tt ;;
  client <- call (new_AzureApimClient config) tt ;;
  connectionTest <- call (c_testConnection client) tt ;;
  if negb connectionTest then
    throw (Js.new_Error (js "Failed to connect to Azure API Management service"))
  else
    core_info (js "Listing available APIs in APIM service...") ;;
    availableApis <- call (c_listApis client) tt ;;
    (if (0 <? List.length availableApis)%nat then
       core_info (js "Available APIs: " ++ join (js ", ") availableApis) ;;
       for_of (firstn 3 availableApis) (fun apiId =>
         operations <- call (c_listOperations client apiId) tt ;;
         if (0 <? List.length operations)%nat then
           core_info (js "API '" ++ apiId ++ js "' operations: "
                      ++ join (js ", ") operations)
         else
           core_info (js "API '" ++ apiId ++ js "' has no operations"))
     else core_warning (js "No APIs found in APIM service")) ;;
    core_info (js "Discovering policy files...") ;;
    policies <- call (discoverPolicies (policyManifestPath config) (js ".")) tt ;;
    ret (client, policies).

Definition run_apply (client : Client) (policies : list PolicyFile) : M jsstring unit :=
  if (List.length policies =? 0)%nat then
    core_warning (js "No policy files found to update") ;;
    core_setOutput (js "etag") []
  else
    isValid <- call (validatePolicies policies) tt ;;
    if negb isValid then throw (Js.new_Error (js "Policy validation failed"))
    else
      core_info (js "Found " ++ of_nat (List.length policies)
                 ++ js " valid policy files to process") ;;
      core_info (js "Starting policy updates...") ;;
      put [] ;;
      processPolicies client policies ;;
      lastETag <- get ;;
      core_setOutput (js "etag") lastETag ;;
      core_info (js "Action completed successfully").

Definition run : M unit unit :=
  call
    (try_catch
       (discovered <- run_setup ;;
        run_apply (fst discovered) (snd discovered))
       (fun error =>
          (if Js.instanceof_Error error then core_setFailed (Js.read error (js "message"))
           else core_setFailed (VString (js "An unknown error occurred"))) ;;
          core_setOutput (js "etag") []))
    [].

End Program.

(** ** A client that answers from an oracle and records each call, as the mock
    of the test-suite does. *)
Record ClientOracle : Type := {
  o_testConnection : history -> outcome bool;
  o_listApis : history -> outcome (list jsstring);
  o_listOperations : history -> jsstring -> outcome (list jsstring);
  o_updateApiPolicy : history -> jsstring -> jsstring -> outcome PolicyUpdateResult;
  o_updateOperationPolicy :
    history -> jsstring -> option jsstring -> jsstring -> outcome PolicyUpdateResult
}.

Definition oracle_client (o : ClientOracle) : Client :=
  {| c_testConnection := interact (o_testConnection o) TestConnection;
     c_listApis := interact (o_listApis o) ListApis;
     c_listOperations := fun a => interact (fun h => o_listOperations o h a) (ListOperations a);
     c_updateApiPolicy := fun a v =>
       interact (fun h => o_updateApiPolicy o h a v) (UpdateApiPolicy a v);
     c_updateOperationPolicy := fun a op v =>
       interact (fun h => o_updateOperationPolicy o h a op v) (UpdateOperationPolicy a op v) |}.

(** A constructor that returns such a client, or throws. *)
Definition oracle_constructor (construct : ApimConfig -> outcome ClientOracle)
  : ApimConfig -> M unit Client :=
  fun config =>
    match construct config with
    | Ok o => ret (oracle_client o)
    | Throw v => throw v
    end.

(* ===================================================================== *)
(** * Properties of the string operations *)
(* ===================================================================== *)

Module StringFacts.

Lemma startsWith_spec w s : startsWith w s = true <-> exists r, s = w ++ r.
Proof.
  revert s. induction w as [|a w IH]; intros s; simpl.
  - split; eauto.
  - destruct s as [|b s].
    + split; [discriminate | intros [r H]; discriminate].
    + rewrite andb_true_iff, N.eqb_eq, IH. split.
      * intros [-> [r ->]]. now exists r.
      * intros [r H]. injection H as -> ->. eauto.
Qed.

Lemma endsWith_spec w s : endsWith w s = true <-> exists r, s = r ++ w.
Proof.
  unfold endsWith. rewrite startsWith_spec. split; intros [r H].
  - exists (rev r). apply (f_equal (@rev N)) in H.
    now rewrite rev_involutive, rev_app_distr, rev_involutive in H.
  - exists (rev r). now rewrite H, rev_app_distr.
Qed.

Lemma includes_spec w s : includes w s = true <-> exists a b, s = a ++ w ++ b.
Proof.
  induction s as [|c s IH]; simpl.
  - rewrite orb_false_r, startsWith_spec. split.
    + intros [r H]. now exists [], r.
    + intros (a & b & H). destruct a; [now exists b|discriminate].
  - rewrite orb_true_iff, startsWith_spec, IH. split.
    + intros [[r H] | (a & b & H)].
      * now exists [], r.
      * exists (c :: a), b. now rewrite H.
    + intros (a & b & H). destruct a as [|x a].
      * left. now exists b.
      * right. injection H as -> ->. now exists a, b.
Qed.

Lemma trimStart_spec s :
  exists l, s = l ++ trimStart s /\ forallb is_whitespace l = true
            /\ match trimStart s with c :: _ => is_whitespace c = false | [] => True end.
Proof.
  induction s as [|c s (l & H1 & H2 & H3)]; simpl.
  - now exists [].
  - destruct (is_whitespace c) eqn:E.
    + exists (c :: l). simpl. rewrite E, H2. simpl. now rewrite <- H1.
    + exists []. simpl. now rewrite E.
Qed.

(** What [trim] removes is whitespace, and what it leaves neither starts nor
    ends with whitespace. *)
Lemma trim_spec s :
  exists l r, s = l ++ trim s ++ r
              /\ forallb is_whitespace l = true /\ forallb is_whitespace r = true
              /\ (forall c t, trim s = c :: t -> is_whitespace c = false)
              /\ (forall c t, trim s = t ++ [c] -> is_whitespace c = false).
Proof.
  unfold trim, trimEnd.
  destruct (trimStart_spec s) as (l & H1 & H2 & H3).
  destruct (trimStart_spec (rev (trimStart s))) as (r & G1 & G2 & G3).
  set (u := trimStart (rev (trimStart s))) in *.
  assert (E : trimStart s = rev u ++ rev r).
  { apply (f_equal (@rev N)) in G1. now rewrite rev_involutive, rev_app_distr in G1. }
  exists l, (rev r). repeat split.
  - now rewrite <- E.
  - assumption.
  - rewrite forallb_forall in *. intros x Hx. apply G2. now apply in_rev.
  - intros c t Hc. rewrite E in H3. rewrite Hc in *. simpl in H3. exact H3.
  - intros c t Hc. apply (f_equal (@rev N)) in Hc.
    rewrite rev_involutive, rev_app_distr in Hc. simpl in Hc.
    rewrite Hc in G3. exact G3.
Qed.

Lemma trim_nil : trim [] = [].
Proof. reflexivity. Qed.

End StringFacts.
Import StringFacts.

(** C8. Content Validator contract: [validateXmlContent c] is true exactly
    when [c], trimmed of surrounding whitespace, is non-empty, starts with
    [<], ends with [>] and contains both [<policies>] and [</policies>]; it is
    false of the empty string, of blanks, of ["not xml"] and of
    ["<root></root>"], and true of ["<policies><inbound/></policies>"]. *)
Theorem validateXmlContent_contract :
  (forall c,
     validateXmlContent c = true <->
     trim c <> []
     /\ (exists r, trim c = js "<" ++ r)
     /\ (exists r, trim c = r ++ js ">")
     /\ (exists a b, trim c = a ++ js "<policies>" ++ b)
     /\ (exists a b, trim c = a ++ js "</policies>" ++ b))
  /\ validateXmlContent (js "") = false
  /\ validateXmlContent (js "   ") = false
  /\ validateXmlContent (js "not xml") = false
  /\ validateXmlContent (js "<root></root>") = false
  /\ validateXmlContent (js "<policies><inbound/></policies>") = true.
Proof.
  split; [|repeat split; vm_compute; reflexivity].
  intros c. unfold validateXmlContent.
  rewrite <- startsWith_spec, <- endsWith_spec, <- !includes_spec.
  destruct (eqb c []) eqn:E0.
  { apply eqb_eq in E0. subst c. cbn [orb]. rewrite trim_nil. split; [discriminate|].
    intros [H _]. now elim H. }
  cbn [orb]. destruct (trim c) as [|x t] eqn:Et.
  { cbn [List.length Nat.eqb]. split; [discriminate|]. intros [H _]. now elim H. }
  cbn [List.length Nat.eqb].
  destruct (startsWith (js "<") (x :: t)); cbn [negb orb];
    [|split; [discriminate|intros (_ & H & _); discriminate]].
  destruct (endsWith (js ">") (x :: t)); cbn [negb orb];
    [|split; [discriminate|intros (_ & _ & H & _); discriminate]].
  destruct (includes (js "<policies>") (x :: t)); cbn [negb orb];
    [|split; [discriminate|intros (_ & _ & _ & H & _); discriminate]].
  destruct (includes (js "</policies>") (x :: t)); cbn [negb orb];
    [|split; [discriminate|intros (_ & _ & _ & _ & H); discriminate]].
  split; [|reflexivity]. intros _. repeat split; congruence.
Qed.

(* ===================================================================== *)
(** * Properties of the matcher *)
(* ===================================================================== *)

Module RegexFacts.

(** What a pattern matches at the start of [s], captures left aside. *)
Fixpoint matches (p : pattern) (s : jsstring) : Prop :=
  match p with
  | [] => True
  | One q :: k => exists c s', s = c :: s' /\ q c = true /\ matches k s'
  | Plus q :: k =>
      exists a b, s = a ++ b /\ a <> [] /\ forallb q a = true /\ matches k b
  | GroupOpen :: k => matches k s
  | GroupClose :: k => matches k s
  | AtEnd :: k => s = [] /\ matches k []
  end.

Definition captured (open : option jsstring) (a : jsstring) : option jsstring :=
  fold_left push a open.

Lemma captured_Some t a : captured (Some t) a = Some (t ++ a).
Proof.
  unfold captured. revert t. induction a as [|c a IH]; intros t; simpl.
  - now rewrite app_nil_r.
  - rewrite IH. now rewrite <- app_assoc.
Qed.

Lemma captured_None a : captured None a = None.
Proof. unfold captured. induction a; simpl; auto. Qed.

Lemma exec_Plus_cons q k open caps c s :
  exec (Plus q :: k) open caps (c :: s) =
  if q c then
    match exec (Plus q :: k) (push open c) caps s with
    | Some r => Some r
    | None => exec k (push open c) caps s
    end
  else None.
Proof. reflexivity. Qed.

Lemma exec_Plus_nil q k open caps : exec (Plus q :: k) open caps [] = None.
Proof. reflexivity. Qed.

(** A successful [+] consumed a non-empty run of the class, and the rest of the
    pattern matched what follows. *)
Lemma exec_Plus_sound q k s : forall open caps r,
  exec (Plus q :: k) open caps s = Some r ->
  exists a b, s = a ++ b /\ a <> [] /\ forallb q a = true
              /\ exec k (captured open a) caps b = Some r.
Proof.
  induction s as [|c s IH]; intros open caps r H.
  - discriminate.
  - rewrite exec_Plus_cons in H. destruct (q c) eqn:Q; [|discriminate].
    destruct (exec (Plus q :: k) (push open c) caps s) as [r'|] eqn:E.
    + injection H as ->. destruct (IH _ _ _ E) as (a & b & -> & Ha & Hq & Hk).
      exists (c :: a), b. repeat split; [discriminate | simpl; now rewrite Q | exact Hk].
    + exists [c], s. repeat split; [discriminate | simpl; now rewrite Q | exact H].
Qed.

Lemma exec_lit_sound w k : forall open caps s r,
  exec (map (fun c => One (N.eqb c)) w ++ k) open caps s = Some r ->
  exists s', s = w ++ s' /\ exec k (captured open w) caps s' = Some r.
Proof.
  induction w as [|x w IH]; intros open caps s r H; simpl in *.
  - now exists s.
  - destruct s as [|c s]; [discriminate|].
    destruct (N.eqb x c) eqn:E; [|discriminate]. apply N.eqb_eq in E. subst c.
    destruct (IH _ _ _ _ H) as (s' & -> & H'). now exists s'.
Qed.

(** Whether [exec] succeeds does not depend on the captures. *)
Lemma exec_matches p : forall open caps s,
  (exists r, exec p open caps s = Some r) <-> matches p s.
Proof.
  induction p as [|i k IH]; intros open caps s.
  - simpl. split; eauto.
  - destruct i as [q|q| | | ].
    + destruct s as [|c s]; simpl.
      * split; [intros [r H]; discriminate|intros (c & s' & H & _); discriminate].
      * destruct (q c) eqn:Q.
        -- rewrite IH. split.
           ++ intros H. now exists c, s.
           ++ intros (c' & s' & H & _ & Hm). now injection H as <- <-.
        -- split; [intros [r H]; discriminate|].
           intros (c' & s' & H & Q' & _). injection H as <- <-. congruence.
    + revert open. induction s as [|c s IHs]; intros open.
      * split; [intros [r H]; discriminate|].
        intros (a & b & H & Ha & _). destruct a; [congruence|discriminate].
      * rewrite exec_Plus_cons. destruct (q c) eqn:Q.
        -- split.
           ++ intros [r H].
              destruct (exec (Plus q :: k) (push open c) caps s) as [r'|] eqn:E.
              ** destruct (proj1 (IHs (push open c)) (ex_intro _ r' E))
                   as (a & b & -> & Ha & Hq & Hk).
                 exists (c :: a), b. repeat split; [discriminate| |exact Hk].
                 simpl. now rewrite Q.
              ** exists [c], s. repeat split; [discriminate| |].
                 --- simpl. now rewrite Q.
                 --- apply (IH (push open c) caps). eauto.
           ++ intros (a & b & H & Ha & Hq & Hk).
              destruct a as [|c' a]; [congruence|]. injection H as <- ->.
              simpl in Hq. apply andb_true_iff in Hq as [_ Hq].
              destruct (exec (Plus q :: k) (push open c) caps (a ++ b)) as [r'|] eqn:E;
                [eauto|].
              destruct a as [|c2 a].
              ** apply (IH (push open c) caps). exact Hk.
              ** exfalso.
                 assert (G : exists r, exec (Plus q :: k) (push open c) caps ((c2 :: a) ++ b)
                                       = Some r).
                 { apply IHs. exists (c2 :: a), b. repeat split; [discriminate|exact Hq|exact Hk]. }
                 destruct G as [r G]. congruence.
        -- split; [intros [r H]; discriminate|].
           intros (a & b & H & Ha & Hq & _).
           destruct a as [|c' a]; [congruence|]. injection H as <- ->.
           simpl in Hq. rewrite Q in Hq. discriminate.
    + simpl. apply IH.
    + simpl. apply IH.
    + destruct s as [|c s]; simpl.
      * rewrite IH. split; [now split|now intros [_ H]].
      * split; [intros [r H]; discriminate|intros [H _]; discriminate].
Qed.

Lemma matches_lit w k s :
  matches (lit w ++ k) s <-> exists s', s = js w ++ s' /\ matches k s'.
Proof.
  unfold lit. generalize (js w). intros l. revert s.
  induction l as [|x l IH]; intros s; simpl.
  - split; [intros H; now exists s|intros (s' & -> & H); exact H].
  - split.
    + intros (c & s' & -> & E & H). apply N.eqb_eq in E. subst c.
      apply IH in H as (s2 & -> & H). now exists s2.
    + intros (s' & -> & H). exists x, (l ++ s'). repeat split.
      * apply N.eqb_refl.
      * apply IH. now exists s'.
Qed.

(** [search] returns the match at the leftmost position that has one. *)
Lemma search_Some p s r :
  search p s = Some r <->
  exists pre suf, s = pre ++ suf /\ exec p None [] suf = Some r
    /\ forall pre' suf', s = pre' ++ suf' -> List.length pre' < List.length pre ->
                         exec p None [] suf' = None.
Proof.
  induction s as [|c s IH]; simpl.
  - destruct (exec p None [] []) as [r'|] eqn:E.
    + split.
      * intros H. injection H as ->. exists [], []. repeat split; auto.
        intros pre' suf' _ H. simpl in H. lia.
      * intros (pre & suf & H & Hs & _).
        destruct pre; [|discriminate]. destruct suf; [|discriminate]. congruence.
    + split; [discriminate|].
      intros (pre & suf & H & Hs & _).
      destruct pre; [|discriminate]. destruct suf; [|discriminate]. congruence.
  - destruct (exec p None [] (c :: s)) as [r'|] eqn:E.
    + split.
      * intros H. injection H as ->. exists [], (c :: s). repeat split; auto.
        intros pre' suf' _ H. simpl in H. lia.
      * intros (pre & suf & H & Hs & Hl). destruct pre as [|x pre].
        -- simpl in H. subst suf. congruence.
        -- specialize (Hl [] (c :: s) eq_refl). simpl in Hl.
           rewrite Hl in E by lia. discriminate.
    + rewrite IH. split.
      * intros (pre & suf & -> & Hs & Hl). exists (c :: pre), suf. repeat split; auto.
        intros pre' suf' H Hlen. destruct pre' as [|x pre'].
        -- simpl in H. now subst suf'.
        -- injection H as <- H. apply (Hl pre' suf' H). simpl in Hlen. lia.
      * intros (pre & suf & H & Hs & Hl). destruct pre as [|x pre].
        -- simpl in H. subst suf. congruence.
        -- injection H as <- ->. exists pre, suf. repeat split; auto.
           intros pre' suf' H Hlen. apply (Hl (c :: pre') suf').
           ++ simpl. now rewrite H.
           ++ simpl. lia.
Qed.

Lemma search_None p s :
  search p s = None <-> forall pre suf, s = pre ++ suf -> exec p None [] suf = None.
Proof.
  induction s as [|c s IH]; simpl.
  - destruct (exec p None [] []) as [r'|] eqn:E.
    + split; [discriminate|]. intros H. now rewrite (H [] [] eq_refl) in E.
    + split; [|reflexivity]. intros _ pre suf H.
      destruct pre; [|discriminate]. destruct suf; [|discriminate]. exact E.
  - destruct (exec p None [] (c :: s)) as [r'|] eqn:E.
    + split; [discriminate|]. intros H. now rewrite (H [] (c :: s) eq_refl) in E.
    + rewrite IH. split.
      * intros H pre suf Hs. destruct pre as [|x pre].
        -- simpl in Hs. now subst suf.
        -- injection Hs as <- ->. now apply (H pre suf).
      * intros H pre suf ->. now apply (H (c :: pre) suf).
Qed.

Lemma search_matches p s :
  (exists r, search p s = Some r) <-> exists pre suf, s = pre ++ suf /\ matches p suf.
Proof.
  split.
  - intros [r H]. apply search_Some in H as (pre & suf & -> & H & _).
    exists pre, suf. split; [reflexivity|]. apply (exec_matches p None []). eauto.
  - intros (pre & suf & -> & H). apply (exec_matches p None []) in H as [r H].
    destruct (search p (pre ++ suf)) as [r'|] eqn:E; [eauto|].
    rewrite search_None in E. rewrite (E pre suf eq_refl) in H. discriminate.
Qed.

End RegexFacts.
Import RegexFacts.

(* ===================================================================== *)
(** * The path grammar *)
(* ===================================================================== *)

Module PathFacts.

Definition sep_free (a : jsstring) : Prop := forallb not_sep a = true.

Lemma not_sep_false c : is_sep c = true -> not_sep c = false.
Proof. unfold not_sep. now intros ->. Qed.

Lemma sep_free_app a b : sep_free (a ++ b) <-> sep_free a /\ sep_free b.
Proof. unfold sep_free. rewrite forallb_app. apply andb_true_iff. Qed.

Lemma sep_free_cons c a : sep_free (c :: a) <-> not_sep c = true /\ sep_free a.
Proof. unfold sep_free. simpl. apply andb_true_iff. Qed.

(** The first separator of a string is where it is. *)
Lemma first_sep_unique a : forall a' c c' x x',
  a ++ c :: x = a' ++ c' :: x' ->
  sep_free a -> sep_free a' -> is_sep c = true -> is_sep c' = true ->
  a = a' /\ c = c' /\ x = x'.
Proof.
  induction a as [|y a IH]; intros a' c c' x x' H Ha Ha' Hc Hc'.
  - destruct a' as [|y' a'].
    + simpl in H. injection H as -> ->. auto.
    + simpl in H. injection H as -> _. apply sep_free_cons in Ha' as [Hy _].
      rewrite (not_sep_false _ Hc) in Hy. discriminate.
  - apply sep_free_cons in Ha as [Hy Ha]. destruct a' as [|y' a'].
    + simpl in H. injection H as -> _. rewrite (not_sep_false _ Hc') in Hy. discriminate.
    + simpl in H. injection H as -> H. apply sep_free_cons in Ha' as [_ Ha'].
      destruct (IH _ _ _ _ _ H Ha Ha' Hc Hc') as (-> & -> & ->). auto.
Qed.

(** A separator-free prefix ends before the first separator. *)
Lemma sep_free_prefix u : forall X v t Y,
  u ++ X = v ++ t :: Y -> sep_free u -> is_sep t = true ->
  exists x, v = u ++ x /\ X = x ++ t :: Y.
Proof.
  induction u as [|y u IH]; intros X v t Y H Hu Ht.
  - exists v. auto.
  - apply sep_free_cons in Hu as [Hy Hu]. destruct v as [|y' v].
    + simpl in H. injection H as -> _. rewrite (not_sep_false _ Ht) in Hy. discriminate.
    + simpl in H. injection H as -> H.
      destruct (IH _ _ _ _ H Hu Ht) as (x & -> & ->). now exists x.
Qed.

Lemma sep_free_rev a : sep_free (rev a) <-> sep_free a.
Proof.
  unfold sep_free. rewrite !forallb_forall. split; intros H x Hx; apply H.
  - now apply in_rev in Hx.
  - now apply in_rev.
Qed.

Lemma rev_inj (a b : jsstring) : rev a = rev b -> a = b.
Proof. intros H. apply (f_equal (@rev N)) in H. now rewrite !rev_involutive in H. Qed.

(** The last separator of a string is where it is. *)
Lemma last_sep_unique X s u Y t v :
  X ++ s :: u = Y ++ t :: v ->
  sep_free u -> sep_free v -> is_sep s = true -> is_sep t = true ->
  X = Y /\ s = t /\ u = v.
Proof.
  intros H Hu Hv Hs Ht. apply (f_equal (@rev N)) in H.
  rewrite !rev_app_distr in H. simpl in H. rewrite <- !app_assoc in H. simpl in H.
  apply first_sep_unique in H as (H1 & H2 & H3);
    [auto using rev_inj | now apply sep_free_rev | now apply sep_free_rev | assumption..].
Qed.

(** A separator-free suffix starts after the last separator. *)
Lemma sep_free_suffix X u Y t v :
  X ++ u = Y ++ t :: v -> sep_free u -> is_sep t = true ->
  exists x, v = x ++ u /\ X = Y ++ t :: x.
Proof.
  intros H Hu Ht. apply (f_equal (@rev N)) in H.
  rewrite !rev_app_distr in H. simpl in H. rewrite <- !app_assoc in H. simpl in H.
  apply sep_free_prefix in H as (x & H1 & H2); [|now apply sep_free_rev|assumption].
  exists (rev x). split.
  - apply rev_inj. now rewrite rev_app_distr, rev_involutive.
  - apply rev_inj. rewrite rev_app_distr. simpl. rewrite rev_involutive, <- app_assoc. exact H2.
Qed.

(** The shapes of the four patterns, as decompositions of the path. *)
Definition ApiIdAt (suf a : jsstring) : Prop :=
  exists s1 s2 post,
    suf = js "policies" ++ s1 :: a ++ s2 :: post
    /\ is_sep s1 = true /\ is_sep s2 = true /\ a <> [] /\ sep_free a.

Definition ApiShape (p : jsstring) : Prop :=
  exists pre s1 a s2,
    p = pre ++ js "policies" ++ s1 :: a ++ s2 :: js "api.xml"
    /\ is_sep s1 = true /\ is_sep s2 = true /\ a <> [] /\ sep_free a.

Definition OperationShape (p : jsstring) : Prop :=
  exists pre s1 a s2 s3 o,
    p = pre ++ js "policies" ++ s1 :: a ++ s2 :: js "operations" ++ s3 :: o ++ js ".xml"
    /\ is_sep s1 = true /\ is_sep s2 = true /\ is_sep s3 = true
    /\ a <> [] /\ sep_free a /\ o <> [] /\ sep_free o.

(** The paths both classifiers accept: the operation [api] of an API whose
    directory name ends in [policies]. *)
Definition BothShape (p : jsstring) : Prop :=
  exists pre s1 x s2 s3,
    p = pre ++ js "policies" ++ s1 :: x ++ js "policies" ++ s2 :: js "operations"
            ++ s3 :: js "api.xml"
    /\ is_sep s1 = true /\ is_sep s2 = true /\ is_sep s3 = true /\ sep_free x.

Lemma bool_of_search p s :
  (match search p s with Some _ => true | None => false end) = true
  <-> exists r, search p s = Some r.
Proof.
  destruct (search p s) as [m|].
  - split; eauto.
  - split; [discriminate|]. intros [r H]. discriminate.
Qed.

Lemma isApiLevelPolicy_shape p : isApiLevelPolicy p = true <-> ApiShape p.
Proof.
  unfold isApiLevelPolicy. rewrite bool_of_search, search_matches. unfold ApiShape, apiLevel_re.
  split.
  - intros (pre & suf & -> & H). apply matches_lit in H as (s' & -> & H).
    cbn [app matches] in H. destruct H as (s1 & t & -> & Hs1 & a & b & -> & Ha & Hq & H).
    destruct H as (s2 & t' & -> & Hs2 & H). apply matches_lit in H as (e & -> & -> & _).
    exists pre, s1, a, s2. rewrite app_nil_r. auto.
  - intros (pre & s1 & a & s2 & -> & Hs1 & Hs2 & Ha & Hq).
    exists pre, (js "policies" ++ s1 :: a ++ s2 :: js "api.xml"). split; [reflexivity|].
    apply matches_lit. eexists. split; [reflexivity|]. cbn [app matches].
    exists s1, (a ++ s2 :: js "api.xml"). repeat split; auto.
    exists a, (s2 :: js "api.xml"). repeat split; auto.
    exists s2, (js "api.xml"). repeat split; auto.
    apply matches_lit. exists []. rewrite app_nil_r. simpl. auto.
Qed.

Lemma isOperationLevelPolicy_shape p : isOperationLevelPolicy p = true <-> OperationShape p.
Proof.
  unfold isOperationLevelPolicy. rewrite bool_of_search, search_matches.
  unfold OperationShape, operationLevel_re. split.
  - intros (pre & suf & -> & H). apply matches_lit in H as (s' & -> & H).
    cbn [app matches] in H. destruct H as (s1 & t & -> & Hs1 & a & b & -> & Ha & Hq & H).
    destruct H as (s2 & t' & -> & Hs2 & H). apply matches_lit in H as (e & -> & H).
    cbn [app matches] in H. destruct H as (s3 & t2 & -> & Hs3 & o & b' & -> & Ho & Hqo & H).
    apply matches_lit in H as (e' & -> & -> & _).
    exists pre, s1, a, s2, s3, o. rewrite app_nil_r. repeat split; auto.
  - intros (pre & s1 & a & s2 & s3 & o & -> & Hs1 & Hs2 & Hs3 & Ha & Hq & Ho & Hqo).
    exists pre, (js "policies" ++ s1 :: a ++ s2 :: js "operations" ++ s3 :: o ++ js ".xml").
    split; [reflexivity|].
    apply matches_lit. eexists. split; [reflexivity|]. cbn [app matches].
    exists s1, (a ++ s2 :: js "operations" ++ s3 :: o ++ js ".xml"). repeat split; auto.
    exists a, (s2 :: js "operations" ++ s3 :: o ++ js ".xml"). repeat split; auto.
    exists s2, (js "operations" ++ s3 :: o ++ js ".xml"). repeat split; auto.
    apply matches_lit. eexists. split; [reflexivity|]. cbn [app matches].
    exists s3, (o ++ js ".xml"). repeat split; auto.
    exists o, (js ".xml"). repeat split; auto.
    apply matches_lit. exists []. rewrite app_nil_r. simpl. auto.
Qed.

Lemma sep_free_literal_api_xml : sep_free (js "api.xml").
Proof. reflexivity. Qed.
Lemma sep_free_literal_xml : sep_free (js ".xml").
Proof. reflexivity. Qed.
Lemma sep_free_literal_operations : sep_free (js "operations").
Proof. reflexivity. Qed.
Lemma sep_free_literal_policies : sep_free (js "policies").
Proof. reflexivity. Qed.

(** Right-nested form of a concatenation. *)
Ltac flatten_app := repeat (progress (rewrite <- ?app_assoc; cbn [app])).

Lemma both_shapes p : ApiShape p /\ OperationShape p <-> BothShape p.
Proof.
  split.
  - intros [(pre & s1 & a & s2 & Hp & Hs1 & Hs2 & Ha & Hq)
            (pre' & t1 & b & t2 & t3 & o & Hp' & Ht1 & Ht2 & Ht3 & Hb & Hqb & Ho & Hqo)].
    assert (H := Hp'). rewrite Hp in H.
    (* the last separator *)
    assert (E1 : (pre ++ js "policies" ++ s1 :: a) ++ s2 :: js "api.xml"
                 = (pre' ++ js "policies" ++ t1 :: b ++ t2 :: js "operations")
                   ++ t3 :: (o ++ js ".xml")).
    { flatten_app. exact H. }
    apply last_sep_unique in E1 as (E1 & -> & Eo); auto using sep_free_literal_api_xml.
    2:{ apply sep_free_app. split; [assumption|reflexivity]. }
    (* the one before *)
    assert (E2 : (pre ++ js "policies") ++ s1 :: a
                 = (pre' ++ js "policies" ++ t1 :: b) ++ t2 :: js "operations").
    { flatten_app. exact E1. }
    apply last_sep_unique in E2 as (E2 & -> & ->); auto using sep_free_literal_operations.
    (* the directory before ends in "policies" *)
    assert (E3 : pre ++ js "policies" = (pre' ++ js "policies") ++ t1 :: b).
    { flatten_app. exact E2. }
    apply sep_free_suffix in E3 as (x & -> & ->); auto using sep_free_literal_policies.
    apply sep_free_app in Hqb as [Hx _].
    exists pre', t1, x, t2, t3. repeat split; auto.
    rewrite Hp'. flatten_app. now rewrite <- Eo.
  - intros (pre & s1 & x & s2 & s3 & -> & Hs1 & Hs2 & Hs3 & Hx). split.
    + exists (pre ++ js "policies" ++ s1 :: x), s2, (js "operations"), s3.
      repeat split; auto; [|discriminate].
      flatten_app. reflexivity.
    + exists pre, s1, (x ++ js "policies"), s2, s3, (js "api").
      repeat split; auto; try discriminate.
      * flatten_app. reflexivity.
      * destruct x; discriminate.
      * apply sep_free_app. split; [assumption|reflexivity].
Qed.

End PathFacts.
Import PathFacts.

(** Exclusivity of the two classifiers at a path. *)
Definition classifiers_exclusive_at (p : jsstring) : Prop :=
  ~ (isApiLevelPolicy p = true /\ isOperationLevelPolicy p = true).

(** Exclusivity fails at [policies/policies/operations/api.xml]: the path is
    accepted by [isApiLevelPolicy] and by [isOperationLevelPolicy]. *)
Lemma classifiers_not_exclusive :
  ~ classifiers_exclusive_at (js "policies/policies/operations/api.xml").
Proof. intros H. apply H. split; vm_compute; reflexivity. Qed.

(** The extent of the overlap. Each classifier is true exactly on the paths
    that end in its shape, so both are false on a path of neither shape. The
    pattern of [isApiLevelPolicy] is not anchored at a separator, so it also
    accepts the file of an operation named [api] when the name of the API
    directory ends in [policies]: the two classifiers are both true exactly
    on the paths that end in
    [policies<sep>x policies<sep>operations<sep>api.xml] with [x] free of
    separators. The tests of utils.ts expect each classifier to reject the
    paths of the other, and [extractOperationIdFromPath] reads these paths as
    operation-level: the overlap is a defect of the code, not its design. *)
Lemma classifiers_overlap_extent :
  forall p,
    (isApiLevelPolicy p = true <-> ApiShape p)
    /\ (isOperationLevelPolicy p = true <-> OperationShape p)
    /\ (isApiLevelPolicy p = true /\ isOperationLevelPolicy p = true <-> BothShape p)
    /\ (~ ApiShape p /\ ~ OperationShape p ->
        isApiLevelPolicy p = false /\ isOperationLevelPolicy p = false).
Proof.
  intros p. split; [apply isApiLevelPolicy_shape|].
  split; [apply isOperationLevelPolicy_shape|]. split.
  - rewrite isApiLevelPolicy_shape, isOperationLevelPolicy_shape. apply both_shapes.
  - intros [Ha Ho]. split.
    + destruct (isApiLevelPolicy p) eqn:E; [|reflexivity].
      elim Ha. now apply isApiLevelPolicy_shape.
    + destruct (isOperationLevelPolicy p) eqn:E; [|reflexivity].
      elim Ho. now apply isOperationLevelPolicy_shape.
Qed.

Module ApiIdFacts.

Lemma ApiIdAt_unique suf a a' : ApiIdAt suf a -> ApiIdAt suf a' -> a = a'.
Proof.
  intros (s1 & s2 & post & -> & _ & Hs2 & _ & Ha) (t1 & t2 & post' & H & _ & Ht2 & _ & Ha').
  apply app_inv_head in H. injection H as _ H.
  now apply first_sep_unique in H as (-> & _).
Qed.

Lemma matches_apiId suf a : ApiIdAt suf a -> matches apiId_re suf.
Proof.
  intros (s1 & s2 & post & -> & Hs1 & Hs2 & Ha & Hq). unfold apiId_re.
  apply matches_lit. eexists. split; [reflexivity|]. cbn [matches].
  exists s1, (a ++ s2 :: post). repeat split; auto.
  exists a, (s2 :: post). repeat split; auto.
  exists s2, post. auto.
Qed.

(** At one start position, the pattern of [extractApiIdFromPath] matches
    exactly the shape [ApiIdAt], and captures its segment. *)
Lemma exec_apiId suf r :
  exec apiId_re None [] suf = Some r <-> exists a, ApiIdAt suf a /\ r = [a].
Proof.
  assert (Sound : forall r', exec apiId_re None [] suf = Some r' ->
                             exists a, ApiIdAt suf a /\ r' = [a]).
  { intros r' H. unfold apiId_re, lit in H.
    apply exec_lit_sound in H as (s' & -> & H). rewrite captured_None in H.
    destruct s' as [|s1 t]; [discriminate|]. cbn [exec] in H.
    destruct (is_sep s1) eqn:Hs1; [|discriminate]. cbn [push] in H.
    change (exec (Plus not_sep :: [GroupClose; One is_sep]) (Some []) [] t = Some r') in H.
    apply exec_Plus_sound in H as (a & b & -> & Ha & Hq & H).
    rewrite captured_Some in H. cbn [app] in H.
    destruct b as [|s2 post]; [discriminate|]. cbn [exec close app] in H.
    destruct (is_sep s2) eqn:Hs2; [|discriminate]. injection H as <-.
    exists a. split; [|reflexivity]. exists s1, s2, post. auto. }
  split; [apply Sound|].
  intros (a & Ha & ->).
  destruct (proj2 (exec_matches apiId_re None [] suf) (matches_apiId Ha)) as [r' H].
  destruct (Sound _ H) as (a' & Ha' & ->). now rewrite (ApiIdAt_unique Ha Ha').
Qed.

Lemma exec_apiId_None suf :
  exec apiId_re None [] suf = None <-> forall a, ~ ApiIdAt suf a.
Proof.
  split.
  - intros H a Ha. assert (G : exec apiId_re None [] suf = Some [a]).
    { apply exec_apiId. eauto. }
    congruence.
  - intros H. destruct (exec apiId_re None [] suf) as [r|] eqn:E; [|reflexivity].
    apply exec_apiId in E as (a & Ha & _). now elim (H a).
Qed.

End ApiIdFacts.
Import ApiIdFacts.

(** The grammar C7 states, in the words of the specification: the segment
    that follows the first segment equal to [policies], unless it is empty or
    there is none. *)
Fixpoint segments_from (cur : jsstring) (s : jsstring) : list jsstring :=
  match s with
  | [] => [cur]
  | c :: s' => if is_sep c then cur :: segments_from [] s' else segments_from (cur ++ [c]) s'
  end.

Definition segments (p : jsstring) : list jsstring := segments_from [] p.

Fixpoint segment_after_policies (segs : list jsstring) : option jsstring :=
  match segs with
  | [] => None
  | s :: rest =>
      if eqb s (js "policies") then
        match rest with
        | next :: _ => if eqb next [] then None else Some next
        | [] => None
        end
      else segment_after_policies rest
  end.

Definition extractApiId_as_specified (p : jsstring) : option jsstring :=
  segment_after_policies (segments p).

(** C7, as stated, fails: [mypolicies/foo/api.xml] has no segment [policies],
    and [extractApiIdFromPath] returns [foo] for it. *)
Lemma extractApiId_not_as_specified :
  ~ (extractApiIdFromPath (js "mypolicies/foo/api.xml")
     = extractApiId_as_specified (js "mypolicies/foo/api.xml")).
Proof. vm_compute. discriminate. Qed.

(** C7, amended. [extractApiIdFromPath] returns the non-empty, separator-free
    text between two separators that follows the leftmost occurrence of the
    text [policies] followed by such a text (the occurrence need not be a whole
    segment, and the text returned must itself be followed by a separator); it
    returns none exactly when the path has no such occurrence; for a path that
    begins with [policies<sep>a<sep>] it returns [a]. *)
Theorem extractApiIdFromPath_grammar :
  forall p,
    (forall a,
       extractApiIdFromPath p = Some a <->
       exists pre suf,
         p = pre ++ suf /\ ApiIdAt suf a
         /\ forall pre' suf' a', p = pre' ++ suf' -> List.length pre' < List.length pre ->
                                 ~ ApiIdAt suf' a')
    /\ (extractApiIdFromPath p = None <->
        forall pre suf a, p = pre ++ suf -> ~ ApiIdAt suf a)
    /\ (forall a, ApiIdAt p a -> extractApiIdFromPath p = Some a).
Proof.
  intros p.
  assert (First : forall a,
            extractApiIdFromPath p = Some a <->
            exists pre suf,
              p = pre ++ suf /\ ApiIdAt suf a
              /\ forall pre' suf' a', p = pre' ++ suf' ->
                                      List.length pre' < List.length pre -> ~ ApiIdAt suf' a').
  { intros a. unfold extractApiIdFromPath. split.
    - destruct (search apiId_re p) as [m|] eqn:E; [|discriminate].
      intros H. injection H as <-.
      apply search_Some in E as (pre & suf & -> & E & Hl).
      apply exec_apiId in E as (a & Ha & ->).
      exists pre, suf. repeat split; auto.
      intros pre' suf' a' H Hlen.
      exact (proj1 (exec_apiId_None suf') (Hl pre' suf' H Hlen) a').
    - intros (pre & suf & -> & Ha & Hl).
      assert (E : search apiId_re (pre ++ suf) = Some [a]).
      { apply search_Some. exists pre, suf. repeat split.
        - apply exec_apiId. eauto.
        - intros pre' suf' H Hlen. apply exec_apiId_None. intros a'.
          exact (Hl pre' suf' a' H Hlen). }
      now rewrite E. }
  split; [exact First|]. split.
  - unfold extractApiIdFromPath. destruct (search apiId_re p) as [m|] eqn:E.
    + split; [discriminate|]. intros H.
      apply search_Some in E as (pre & suf & -> & E & _).
      apply exec_apiId in E as (a & Ha & _). now elim (H pre suf a).
    + split; [|reflexivity]. intros _ pre suf a Hp.
      exact (proj1 (exec_apiId_None suf) (proj1 (search_None _ _) E pre suf Hp) a).
  - intros a Ha. apply First. exists [], p. repeat split; auto.
    intros pre' suf' a' _ H. simpl in H. lia.
Qed.

(* ===================================================================== *)
(** * Reasoning about computations *)
(* ===================================================================== *)

Module MonadFacts.

Section Predicates.
Context {S A : Type}.

(** Every event [m] emits satisfies [Q]. *)
Definition emits (Q : event -> Prop) (m : M S A) : Prop :=
  forall s h, Forall Q (events (m s h)).

(** [m] keeps the property [P] of the locals, also when it throws. *)
Definition preserves (P : S -> Prop) (m : M S A) : Prop :=
  forall s h, P s -> P (locals (m s h)).

(** [m] never throws. *)
Definition total (m : M S A) : Prop :=
  forall s h, exists a, completion (m s h) = Ok a.

End Predicates.

Section Combinators.
Context {S : Type}.
Variable Q : event -> Prop.
Variable P : S -> Prop.

Lemma emits_ret {A} (a : A) : emits Q (@ret S A a).
Proof. intros s h. constructor. Qed.

Lemma emits_throw {A} v : emits Q (@throw S A v).
Proof. intros s h. constructor. Qed.

Lemma emits_lift {A} r : emits Q (@lift S A r).
Proof. intros s h. constructor. Qed.

Lemma emits_get : emits Q (@get S).
Proof. intros s h. constructor. Qed.

Lemma emits_put s0 : emits Q (@put S s0).
Proof. intros s h. constructor. Qed.

Lemma emits_emit ev : Q ev -> emits Q (@emit S ev).
Proof. intros H s h. repeat constructor. exact H. Qed.

Lemma emits_interact {A} respond (ev : outcome A -> event) :
  (forall r, Q (ev r)) -> emits Q (@interact S A respond ev).
Proof. intros H s h. repeat constructor. apply H. Qed.

Lemma emits_ask {A} respond (ev : A -> event) :
  (forall r, Q (ev r)) -> emits Q (@ask S A respond ev).
Proof. intros H s h. repeat constructor. apply H. Qed.

Lemma emits_bind {A B} (m : M S A) (f : A -> M S B) :
  emits Q m -> (forall a, emits Q (f a)) -> emits Q (bind m f).
Proof.
  intros Hm Hf s h. unfold bind. specialize (Hm s h).
  destruct (m s h) as [[[a|v] s1] e1]; cbn in *; [|exact Hm].
  specialize (Hf a s1 (h ++ e1)).
  destruct (f a s1 (h ++ e1)) as [rs e2]; cbn in *. apply Forall_app. auto.
Qed.

Lemma emits_try_catch {A} (m : M S A) handler :
  emits Q m -> (forall v, emits Q (handler v)) -> emits Q (try_catch m handler).
Proof.
  intros Hm Hf s h. unfold try_catch. specialize (Hm s h).
  destruct (m s h) as [[[a|v] s1] e1]; cbn in *; [exact Hm|].
  specialize (Hf v s1 (h ++ e1)).
  destruct (handler v s1 (h ++ e1)) as [rs e2]; cbn in *. apply Forall_app. auto.
Qed.

Lemma emits_call {S' A} (m : M S' A) s0 : emits Q m -> emits Q (@call S S' A m s0).
Proof.
  intros Hm s h. unfold call. specialize (Hm s0 h).
  destruct (m s0 h) as [[r s1] e]. exact Hm.
Qed.

Lemma emits_for_of {X} (l : list X) body :
  (forall x, emits Q (body x)) -> emits Q (@for_of S X l body).
Proof.
  intros H. induction l as [|x l IH]; simpl.
  - apply emits_ret.
  - apply emits_bind; auto.
Qed.

Lemma preserves_ret {A} (a : A) : preserves P (@ret S A a).
Proof. intros s h H. exact H. Qed.

Lemma preserves_throw {A} v : preserves P (@throw S A v).
Proof. intros s h H. exact H. Qed.

Lemma preserves_lift {A} r : preserves P (@lift S A r).
Proof. intros s h H. exact H. Qed.

Lemma preserves_emit ev : preserves P (@emit S ev).
Proof. intros s h H. exact H. Qed.

Lemma preserves_interact {A} respond (ev : outcome A -> event) :
  preserves P (@interact S A respond ev).
Proof. intros s h H. exact H. Qed.

Lemma preserves_get : preserves P (@get S).
Proof. intros s h H. exact H. Qed.

Lemma preserves_put s0 : P s0 -> preserves P (@put S s0).
Proof. intros H0 s h H. exact H0. Qed.

Lemma preserves_bind {A B} (m : M S A) (f : A -> M S B) :
  preserves P m -> (forall a, preserves P (f a)) -> preserves P (bind m f).
Proof.
  intros Hm Hf s h H. unfold bind. specialize (Hm s h H).
  destruct (m s h) as [[[a|v] s1] e1]; cbn in *; [|exact Hm].
  specialize (Hf a s1 (h ++ e1) Hm).
  destruct (f a s1 (h ++ e1)) as [rs e2]; exact Hf.
Qed.

Lemma preserves_try_catch {A} (m : M S A) handler :
  preserves P m -> (forall v, preserves P (handler v)) -> preserves P (try_catch m handler).
Proof.
  intros Hm Hf s h H. unfold try_catch. specialize (Hm s h H).
  destruct (m s h) as [[[a|v] s1] e1]; cbn in *; [exact Hm|].
  specialize (Hf v s1 (h ++ e1) Hm).
  destruct (handler v s1 (h ++ e1)) as [rs e2]; exact Hf.
Qed.

Lemma preserves_call {S' A} (m : M S' A) s0 : preserves P (@call S S' A m s0).
Proof. intros s h H. unfold call. destruct (m s0 h) as [[r s1] e]. exact H. Qed.

Lemma preserves_for_of {X} (l : list X) body :
  (forall x, preserves P (body x)) -> preserves P (@for_of S X l body).
Proof.
  intros H. induction l as [|x l IH]; simpl.
  - apply preserves_ret.
  - apply preserves_bind; auto.
Qed.

Lemma total_ret {A} (a : A) : total (@ret S A a).
Proof. intros s h. now exists a. Qed.

Lemma total_emit ev : total (@emit S ev).
Proof. intros s h. now exists tt. Qed.

Lemma total_get : total (@get S).
Proof. intros s h. now exists s. Qed.

Lemma total_put s0 : total (@put S s0).
Proof. intros s h. now exists tt. Qed.

Lemma total_bind {A B} (m : M S A) (f : A -> M S B) :
  total m -> (forall a, total (f a)) -> total (bind m f).
Proof.
  intros Hm Hf s h. unfold bind. destruct (Hm s h) as [a Ha].
  destruct (m s h) as [[r s1] e1]; cbn in Ha. subst r.
  destruct (Hf a s1 (h ++ e1)) as [b Hb].
  destruct (f a s1 (h ++ e1)) as [[r2 s2] e2]; cbn in *. now exists b.
Qed.

(** A [try] whose handler never throws never throws. *)
Lemma total_try_catch {A} (m : M S A) handler :
  (forall v, total (handler v)) -> total (try_catch m handler).
Proof.
  intros Hf s h. unfold try_catch.
  destruct (m s h) as [[[a|v] s1] e1]; cbn; [now exists a|].
  destruct (Hf v s1 (h ++ e1)) as [b Hb].
  destruct (handler v s1 (h ++ e1)) as [[r2 s2] e2]; cbn in *. now exists b.
Qed.

Lemma total_call {S' A} (m : M S' A) s0 : total m -> total (@call S S' A m s0).
Proof.
  intros Hm s h. unfold call. destruct (Hm s0 h) as [a Ha].
  destruct (m s0 h) as [[r s1] e]; cbn in *. now exists a.
Qed.

Lemma total_for_of {X} (l : list X) body :
  (forall x, total (body x)) -> total (@for_of S X l body).
Proof.
  intros H. induction l as [|x l IH]; simpl.
  - apply total_ret.
  - apply total_bind; auto.
Qed.

End Combinators.

(** What a computation computes, piece by piece. *)
Lemma run_bind {S A B} (m : M S A) (f : A -> M S B) s h :
  bind m f s h =
  match m s h with
  | ((Ok a, s1), e1) =>
      ((completion (f a s1 (h ++ e1)), locals (f a s1 (h ++ e1))),
       e1 ++ events (f a s1 (h ++ e1)))
  | ((Throw v, s1), e1) => ((Throw v, s1), e1)
  end.
Proof.
  unfold bind. destruct (m s h) as [[[a|v] s1] e1]; [|reflexivity].
  now destruct (f a s1 (h ++ e1)) as [[r s2] e2].
Qed.

Lemma run_try_catch {S A} (m : M S A) handler s h :
  try_catch m handler s h =
  match m s h with
  | ((Ok a, s1), e1) => ((Ok a, s1), e1)
  | ((Throw v, s1), e1) =>
      ((completion (handler v s1 (h ++ e1)), locals (handler v s1 (h ++ e1))),
       e1 ++ events (handler v s1 (h ++ e1)))
  end.
Proof.
  unfold try_catch. destruct (m s h) as [[[a|v] s1] e1]; [reflexivity|].
  now destruct (handler v s1 (h ++ e1)) as [[r s2] e2].
Qed.

Lemma run_call {S S' A} (m : M S' A) s0 (s : S) h :
  call m s0 s h = ((completion (m s0 h), s), events (m s0 h)).
Proof. unfold call. now destruct (m s0 h) as [[r s1] e]. Qed.

End MonadFacts.
Import MonadFacts.

(* ===================================================================== *)
(** * Discovery *)
(* ===================================================================== *)

(** The invariant of a discovered document. *)
Definition well_scoped (p : PolicyFile) : Prop :=
  (operationId p <> None <-> scope p = ScopeOperation)
  /\ (operationId p = None <-> scope p = ScopeApi).

Module DiscoveryFacts.

(** A computation that returns its locals, as the discovery functions return
    the array they filled. *)
Definition returns_locals {S} (m : M S S) : Prop :=
  forall s h a, completion (m s h) = Ok a -> a = locals (m s h).

Lemma returns_locals_get {S} : returns_locals (@get S).
Proof. intros s h a H. cbn in *. congruence. Qed.

Lemma returns_locals_bind {S A} (m : M S A) (f : A -> M S S) :
  (forall a, returns_locals (f a)) -> returns_locals (bind m f).
Proof.
  intros Hf s h a. rewrite run_bind.
  destruct (m s h) as [[[x|v] s1] e1]; cbn; [|discriminate]. apply Hf.
Qed.

Lemma call_returns {S0 S} (P : S -> Prop) (m : M S S) s0 (s : S0) h :
  total m -> preserves P m -> returns_locals m -> P s0 ->
  exists a, completion (call m s0 s h) = Ok a /\ P a.
Proof.
  intros Ht Hp Hr H0. rewrite run_call. cbn.
  destruct (Ht s0 h) as [a Ha]. exists a. split; [exact Ha|].
  rewrite (Hr s0 h a Ha). now apply Hp.
Qed.

Lemma preserves_push_policy p :
  well_scoped p -> preserves (Forall well_scoped) (push_policy p).
Proof.
  intros Hp s h H. cbn. apply Forall_app. split; [exact H|]. now constructor.
Qed.

Lemma well_scoped_api f a c :
  well_scoped {| filePath := f; apiId := a; operationId := None; scope := ScopeApi;
                 content := c |}.
Proof. split; cbn; split; congruence. Qed.

Lemma well_scoped_operation f a o c :
  well_scoped {| filePath := f; apiId := a; operationId := Some o; scope := ScopeOperation;
                 content := c |}.
Proof. split; cbn; split; congruence. Qed.

Ltac unfold_core :=
  unfold core_debug, core_info, core_warning, core_error, core_setOutput, core_setFailed,
    core_getInput, readFile in *.

Ltac preserves_step :=
  first
    [ apply preserves_ret | apply preserves_emit | apply preserves_lift
    | apply preserves_interact | apply preserves_get | apply preserves_throw
    | apply preserves_call
    | apply preserves_push_policy; first [apply well_scoped_api | apply well_scoped_operation]
    | apply preserves_bind; [|intros ?]
    | apply preserves_try_catch; [|intros ?]
    | apply preserves_for_of; intros ?
    | match goal with
      | |- preserves _ (match ?x with _ => _ end) => destruct x
      end ].

Section WithEnv.
Variable env : Env.

Lemma default_structure_well_scoped baseDir h :
  exists policies,
    completion (discoverPoliciesFromDefaultStructure env baseDir tt h) = Ok policies
    /\ Forall well_scoped policies.
Proof.
  unfold discoverPoliciesFromDefaultStructure. apply call_returns.
  - apply total_bind; [|intros; apply total_get].
    apply total_try_catch. intros v. apply total_emit.
  - unfold_core. repeat preserves_step.
  - apply returns_locals_bind. intros _. apply returns_locals_get.
  - constructor.
Qed.

Lemma loadPolicyManifest_total manifestPath : total (loadPolicyManifest env manifestPath).
Proof.
  unfold loadPolicyManifest. apply total_try_catch. intros v.
  apply total_bind; [apply total_emit|intros; apply total_ret].
Qed.

Lemma manifest_well_scoped manifestPath baseDir h :
  exists policies,
    completion (discoverPoliciesFromManifest env manifestPath baseDir tt h) = Ok policies
    /\ Forall well_scoped policies.
Proof.
  unfold discoverPoliciesFromManifest. apply call_returns.
  - apply total_bind; [apply total_call, loadPolicyManifest_total|].
    intros [manifest|]; [|apply total_get].
    apply total_bind; [|intros; apply total_get].
    apply total_for_of. intros [apiId apiConfig].
    apply total_try_catch. intros v. apply total_emit.
  - unfold_core. repeat preserves_step.
  - apply returns_locals_bind. intros [manifest|]; [|apply returns_locals_get].
    apply returns_locals_bind. intros _. apply returns_locals_get.
  - constructor.
Qed.

Lemma discoverPolicies_well_scoped manifestPath baseDir h :
  exists policies,
    completion (discoverPolicies env manifestPath baseDir tt h) = Ok policies
    /\ Forall well_scoped policies.
Proof.
  unfold discoverPolicies. destruct (truthy_string manifestPath) as [mp|].
  - rewrite run_bind. cbn. rewrite run_call. cbn.
    apply manifest_well_scoped.
  - rewrite run_bind. cbn. rewrite run_call. cbn.
    apply default_structure_well_scoped.
Qed.

End WithEnv.

End DiscoveryFacts.
Import DiscoveryFacts.

(** C10. Discovered-document invariant: [discoverPolicies] always returns,
    under either strategy, and every document it returns has an operationId
    exactly when its scope is [operation] and none exactly when its scope is
    [api]; so the operationId that [run] passes on for a document of scope
    [operation] is never absent. *)
Theorem discovered_documents_well_scoped :
  forall env manifestPath baseDir h,
  exists policies,
    completion (discoverPolicies env manifestPath baseDir tt h) = Ok policies
    /\ Forall well_scoped policies
    /\ forall p, In p policies -> scope p = ScopeOperation ->
                 exists operationId_, operationId p = Some operationId_.
Proof.
  intros env manifestPath baseDir h.
  destruct (discoverPolicies_well_scoped env manifestPath baseDir h) as (ps & Hc & Hw).
  exists ps. repeat split; auto.
  intros p Hin Hs. rewrite Forall_forall in Hw. destruct (Hw p Hin) as [[_ H] _].
  destruct (operationId p) as [o|]; [eauto|]. now elim (H Hs).
Qed.

(* ===================================================================== *)
(** * The aggregate validator *)
(* ===================================================================== *)

Module ValidationFacts.

Definition is_api (s : Scope) : bool :=
  match s with ScopeApi => true | ScopeOperation => false end.

(** The number of documents of scope [api] among those of [apiId] [a]. *)
Definition api_documents (a : jsstring) (ps : list PolicyFile) : nat :=
  List.length (filter (fun p => eqb (apiId p) a && is_api (scope p)) ps).

Definition valid_content (p : PolicyFile) : bool := validateXmlContent (content p).

(** What one round of the first loop does to the map. *)
Definition tally (m : list (jsstring * counts)) (p : PolicyFile) : list (jsstring * counts) :=
  let c := match map_get (apiId p) m with
           | Some c => c
           | None => {| api := 0; operations := 0 |}
           end in
  map_set (apiId p)
    (match scope p with
     | ScopeApi => {| api := S (api c); operations := operations c |}
     | ScopeOperation => {| api := api c; operations := S (operations c) |}
     end) m.

Definition api_of (o : option counts) : nat :=
  match o with Some c => api c | None => 0 end.

Lemma map_get_set a k v m :
  map_get a (map_set k v m) = if eqb a k then Some v else map_get a m.
Proof.
  induction m as [|[k' v'] m IH]; simpl.
  - destruct (eqb a k); reflexivity.
  - destruct (eqb k k') eqn:E; simpl.
    + apply eqb_eq in E. subst k'. destruct (eqb a k); reflexivity.
    + destruct (eqb a k') eqn:E'.
      * apply eqb_eq in E'. subst k'.
        destruct (eqb a k) eqn:E2; [|reflexivity].
        apply eqb_eq in E2. subst k. rewrite eqb_refl in E. discriminate.
      * exact IH.
Qed.

Lemma keys_map_set k v m :
  map fst (map_set k v m) = if existsb (eqb k) (map fst m) then map fst m else map fst m ++ [k].
Proof.
  induction m as [|[k' v'] m IH]; simpl; [reflexivity|].
  destruct (eqb k k') eqn:E; simpl; [reflexivity|].
  rewrite IH. now destruct (existsb (eqb k) (map fst m)).
Qed.

Lemma NoDup_map_set k v m : NoDup (map fst m) -> NoDup (map fst (map_set k v m)).
Proof.
  intros H. rewrite keys_map_set. destruct (existsb (eqb k) (map fst m)) eqn:E; [exact H|].
  apply NoDup_app; [exact H| |].
  - constructor; [intros []|constructor].
  - intros x Hx [Hk|[]]. subst x.
    assert (G : existsb (eqb k) (map fst m) = true).
    { apply existsb_exists. exists k. split; [exact Hx|apply eqb_refl]. }
    congruence.
Qed.

Lemma map_get_In a c m : map_get a m = Some c -> In (a, c) m.
Proof.
  induction m as [|[k v] m IH]; simpl; [discriminate|].
  destruct (eqb a k) eqn:E.
  - apply eqb_eq in E. subst k. intros H. injection H as ->. now left.
  - intros H. right. auto.
Qed.

Lemma In_map_get a c m : NoDup (map fst m) -> In (a, c) m -> map_get a m = Some c.
Proof.
  induction m as [|[k v] m IH]; simpl; [intros _ []|].
  intros Hn [H|H].
  - injection H as -> ->. now rewrite eqb_refl.
  - inversion Hn as [|? ? Hk Hn']; subst. destruct (eqb a k) eqn:E.
    + apply eqb_eq in E. subst k. elim Hk. apply in_map_iff. now exists (a, c).
    + auto.
Qed.

Lemma tally_keys ps : forall m, NoDup (map fst m) -> NoDup (map fst (fold_left tally ps m)).
Proof.
  induction ps as [|p ps IH]; intros m H; simpl; [exact H|].
  apply IH. unfold tally. now apply NoDup_map_set.
Qed.

Lemma tally_counts a ps : forall m,
  api_of (map_get a (fold_left tally ps m)) = api_of (map_get a m) + api_documents a ps.
Proof.
  induction ps as [|p ps IH]; intros m; simpl.
  - unfold api_documents. simpl. lia.
  - rewrite IH. unfold tally at 1. rewrite map_get_set. unfold api_documents. simpl.
    destruct (eqb a (apiId p)) eqn:E.
    + apply eqb_eq in E. subst a. rewrite eqb_refl.
      destruct (scope p); simpl; destruct (map_get (apiId p) m); simpl; lia.
    + assert (E' : eqb (apiId p) a = false).
      { apply eqb_neq. apply eqb_neq in E. congruence. }
      rewrite E'. simpl. lia.
Qed.

(** The map holds a count above one exactly when some apiId has more than one
    document of scope [api]. *)
Lemma counts_checked ps :
  forallb (fun e => negb (1 <? api (snd e))%nat) (fold_left tally ps []) = true
  <-> forall a, api_documents a ps <= 1.
Proof.
  rewrite forallb_forall. split.
  - intros H a. generalize (tally_counts a ps []). simpl. intros E. rewrite <- E.
    destruct (map_get a (fold_left tally ps [])) as [c|] eqn:G; simpl; [|lia].
    apply map_get_In in G. specialize (H _ G). simpl in H.
    apply negb_true_iff, Nat.ltb_ge in H. exact H.
  - intros H [a c] Hin. simpl. apply negb_true_iff, Nat.ltb_ge.
    apply In_map_get in Hin; [|apply tally_keys; constructor].
    generalize (tally_counts a ps []). rewrite Hin. simpl. intros ->. apply H.
Qed.

Lemma count_policy_run p st h :
  completion (count_policy p st h) = Ok tt
  /\ locals (count_policy p st h)
     = {| isValid := isValid st && valid_content p; apiCounts := tally (apiCounts st) p |}.
Proof.
  unfold count_policy, valid_content, tally. cbn.
  destruct (validateXmlContent (content p)); cbn; rewrite ?andb_true_r, ?andb_false_r; auto.
Qed.

Lemma first_loop ps : forall st h,
  completion (for_of ps count_policy st h) = Ok tt
  /\ locals (for_of ps count_policy st h)
     = {| isValid := isValid st && forallb valid_content ps;
          apiCounts := fold_left tally ps (apiCounts st) |}.
Proof.
  induction ps as [|p ps IH]; intros st h.
  - cbn. rewrite andb_true_r. now destruct st.
  - cbn [for_of]. rewrite run_bind.
    destruct (count_policy_run p st h) as [Hc Hl].
    destruct (count_policy p st h) as [[r s1] e1]. cbn in Hc, Hl. subst r s1.
    cbn [completion locals fst snd].
    match goal with |- context [for_of ps count_policy ?s ?hh] =>
      destruct (IH s hh) as [-> ->] end.
    cbn. now rewrite andb_assoc.
Qed.

Lemma report_counts_run e st h :
  completion (report_counts e st h) = Ok tt
  /\ locals (report_counts e st h)
     = {| isValid := isValid st && negb (1 <? api (snd e))%nat; apiCounts := apiCounts st |}.
Proof.
  destruct e as [a c]. destruct st as [v m]. unfold report_counts. cbn [snd].
  destruct (1 <? api c)%nat; cbn; rewrite ?andb_true_r, ?andb_false_r; split; reflexivity.
Qed.

Lemma second_loop es : forall st h,
  completion (for_of es report_counts st h) = Ok tt
  /\ locals (for_of es report_counts st h)
     = {| isValid := isValid st && forallb (fun e => negb (1 <? api (snd e))%nat) es;
          apiCounts := apiCounts st |}.
Proof.
  induction es as [|e es IH]; intros st h.
  - cbn. rewrite andb_true_r. now destruct st.
  - cbn [for_of]. rewrite run_bind.
    destruct (report_counts_run e st h) as [Hc Hl].
    destruct (report_counts e st h) as [[r s1] e1]. cbn in Hc, Hl. subst r s1.
    cbn [completion locals fst snd].
    match goal with |- context [for_of es report_counts ?s ?hh] =>
      destruct (IH s hh) as [-> ->] end.
    cbn. now rewrite andb_assoc.
Qed.

(** The value [validatePolicies] returns. *)
Lemma validatePolicies_value ps h :
  completion (validatePolicies ps tt h)
  = Ok (negb (List.length ps =? 0)%nat && forallb valid_content ps
        && forallb (fun e => negb (1 <? api (snd e))%nat) (fold_left tally ps [])).
Proof.
  unfold validatePolicies. rewrite run_call. cbn [completion fst].
  destruct (List.length ps =? 0)%nat eqn:E; [reflexivity|].
  rewrite run_bind.
  destruct (first_loop ps {| isValid := true; apiCounts := [] |} h) as [H1 H2].
  destruct (for_of ps count_policy _ h) as [[r s1] e1]. cbn in H1, H2. subst r s1.
  cbn [fst snd completion locals]. rewrite run_bind. cbn [get fst snd completion locals].
  rewrite run_bind. cbn [apiCounts].
  match goal with |- context [for_of _ report_counts ?st ?hh] =>
    destruct (second_loop (fold_left tally ps []) st hh) as [H3 H4];
    destruct (for_of (fold_left tally ps []) report_counts st hh) as [[r s2] e2]
  end.
  cbn in H3, H4. subst r s2. cbn. reflexivity.
Qed.

End ValidationFacts.
Import ValidationFacts.

(** C4. Aggregate validator correctness: [validatePolicies] returns true
    exactly when the list is non-empty, every document passes
    [validateXmlContent], and no apiId has more than one document of scope
    [api]; so it returns false on the empty list, false on two documents of
    scope [api] with one apiId, and true on one document of scope [api]
    followed by any documents of scope [operation], all of one apiId and of
    valid content. *)
Theorem validatePolicies_correct :
  (forall policies h,
     exists b,
       completion (validatePolicies policies tt h) = Ok b
       /\ (b = true <->
           policies <> []
           /\ Forall (fun p => validateXmlContent (content p) = true) policies
           /\ forall a, api_documents a policies <= 1))
  /\ (forall h, completion (validatePolicies [] tt h) = Ok false)
  /\ (forall p1 p2 h,
        scope p1 = ScopeApi -> scope p2 = ScopeApi -> apiId p1 = apiId p2 ->
        completion (validatePolicies [p1; p2] tt h) = Ok false)
  /\ (forall p ops h,
        scope p = ScopeApi -> validateXmlContent (content p) = true ->
        Forall (fun o => scope o = ScopeOperation /\ apiId o = apiId p
                         /\ validateXmlContent (content o) = true) ops ->
        completion (validatePolicies (p :: ops) tt h) = Ok true).
Proof.
  assert (Main : forall policies h,
            exists b,
              completion (validatePolicies policies tt h) = Ok b
              /\ (b = true <->
                  policies <> []
                  /\ Forall (fun p => validateXmlContent (content p) = true) policies
                  /\ forall a, api_documents a policies <= 1)).
  { intros ps h. eexists. split; [apply validatePolicies_value|].
    rewrite !andb_true_iff, counts_checked, forallb_forall, Forall_forall.
    unfold valid_content. split.
    - intros [[H1 H2] H3]. repeat split; auto.
      intros ->. discriminate.
    - intros (H1 & H2 & H3). repeat split; auto.
      destruct ps; [congruence|reflexivity]. }
  split; [exact Main|]. split; [|split].
  - intros h. now rewrite validatePolicies_value.
  - intros p1 p2 h H1 H2 E. destruct (Main [p1; p2] h) as (b & -> & Hb).
    destruct b; [|reflexivity]. destruct (proj1 Hb eq_refl) as (_ & _ & H).
    specialize (H (apiId p1)). unfold api_documents in H. simpl in H.
    rewrite <- E, eqb_refl, H1, H2 in H. simpl in H. lia.
  - intros p ops h Hs Hv Hops. destruct (Main (p :: ops) h) as (b & -> & Hb).
    f_equal. apply Hb. split; [discriminate|]. split.
    + constructor; [exact Hv|]. eapply Forall_impl; [|exact Hops]. now intros o (_ & _ & H).
    + intros a. unfold api_documents. simpl.
      assert (Z : filter (fun q => eqb (apiId q) a && is_api (scope q)) ops = []).
      { clear -Hops. induction Hops as [|o ops (Ho & _ & _) _ IH]; simpl; [reflexivity|].
        rewrite Ho. simpl. rewrite andb_false_r. exact IH. }
      rewrite Z. destruct (eqb (apiId p) a && is_api (scope p)); simpl; lia.
Qed.

(* ===================================================================== *)
(** * The Azure client *)
(* ===================================================================== *)

(** A write of the SDK: [apiPolicy.createOrUpdate] or
    [apiOperationPolicy.createOrUpdate]. *)
Definition is_write (e : event) : bool :=
  match e with
  | ApiPolicyCreateOrUpdate _ _ _ _ _ _ _ => true
  | ApiOperationPolicyCreateOrUpdate _ _ _ _ _ _ _ _ => true
  | _ => false
  end.

(** The chain of C9 in the words of the specification: the nested message of
    the response payload if the thrown value carries one, otherwise its own
    message, otherwise the constant. *)
Definition payload_message (props : list (jsstring * jsval)) : option jsval :=
  match Js.lookup (js "message") props with
  | Some m => if Js.truthy m then Some m else None
  | None => None
  end.

Definition nested_message (e : jsval) : option jsval :=
  match e with
  | VObject _ props =>
      match Js.lookup (js "response") props with
      | Some (VObject _ response) =>
          match Js.lookup (js "data") response with
          | Some (VObject _ data) =>
              match Js.lookup (js "error") data with
              | Some (VObject _ data_error) =>
                  match payload_message data_error with
                  | Some m => Some m
                  | None => payload_message data
                  end
              | _ => payload_message data
              end
          | _ => None
          end
      | _ => None
      end
  | _ => None
  end.

Definition own_message (e : jsval) : option jsval :=
  match e with
  | VObject isError props =>
      match Js.lookup (js "message") props with
      | Some m => Some m
      | None => if isError then Some (VString []) else None
      end
  | _ => None
  end.

Definition message_chain (e : jsval) : jsval :=
  match nested_message e with
  | Some m => m
  | None =>
      match own_message e with
      | Some m => m
      | None => VString (js "Unknown error")
      end
  end.

(** Concrete collaborators for the examples. *)
Module Sample.

Definition env : Env :=
  {| env_getInput := fun _ name _ =>
       if eqb name (js "policy_manifest_path") then Ok [] else Ok (js "id");
     env_glob := fun _ _ _ => Ok [];
     env_readFile := fun _ _ => Ok (js "<policies></policies>");
     env_parseYaml := fun _ => Ok VNull;
     env_path_join := join (js "/");
     env_path_resolve := fun baseDir p => baseDir ++ js "/" ++ p;
     env_invalid_path := fun _ => Js.new_Error (js "The path argument must be of type string");
     env_object_to_string := fun _ => js "[object Object]" |}.

Definition config : ApimConfig :=
  {| subscriptionId := js "sub"; resourceGroupName := js "rg"; serviceName := js "apim";
     policyManifestPath := None |}.

(** A thrown value that is not an [Error] and carries a response payload. *)
Definition plain_payload : jsval :=
  VObject false
    [(js "response",
      VObject false [(js "data", VObject false [(js "message", VString (js "Quota exceeded"))])])].

(** The service has one API, [other-api]; every write throws [plain_payload]. *)
Definition sdk : Sdk :=
  {| sdk_service_get := fun _ _ _ => Ok (Some (js "apim"), None);
     sdk_api_listByService := fun _ _ _ => ([Some (js "other-api")], None);
     sdk_apiOperation_listByApi := fun _ _ _ _ => ([], None);
     sdk_apiPolicy_createOrUpdate := fun _ _ _ _ _ _ _ => Throw plain_payload;
     sdk_apiOperationPolicy_createOrUpdate := fun _ _ _ _ _ _ _ _ => Throw plain_payload |}.

(** An [Error] with the payload of the test-suite. *)
Definition azure_error : jsval :=
  VObject true
    [(js "message", VString (js "outer"));
     (js "response",
      VObject false
        [(js "data",
          VObject false
            [(js "error", VObject false [(js "message", VString (js "Inner Azure error"))])])])].

Definition failing_sdk : Sdk :=
  {| sdk_service_get := fun _ _ _ => Ok (Some (js "apim"), None);
     sdk_api_listByService := fun _ _ _ => ([Some (js "test-api")], None);
     sdk_apiOperation_listByApi := fun _ _ _ _ => ([], None);
     sdk_apiPolicy_createOrUpdate := fun _ _ _ _ _ _ _ => Throw azure_error;
     sdk_apiOperationPolicy_createOrUpdate := fun _ _ _ _ _ _ _ _ => Throw azure_error |}.

(** The client of the test "should continue processing when an update
    returns error": the API-level update is refused, the operation-level one
    succeeds. *)
Definition oracle : ClientOracle :=
  {| o_testConnection := fun _ => Ok true;
     o_listApis := fun _ => Ok [js "api1"];
     o_listOperations := fun _ _ => Ok [js "op1"];
     o_updateApiPolicy := fun _ a _ =>
       Ok {| r_apiId := a; r_operationId := None; updated := false; etag := None;
             error := Some (VString (js "Denied")) |};
     o_updateOperationPolicy := fun _ a op _ =>
       Ok {| r_apiId := a; r_operationId := op; updated := true; etag := Some (js "e2");
             error := None |} |}.

Definition construct (_ : ApimConfig) : outcome ClientOracle := Ok oracle.

(** A repository with one API-level and one operation-level policy. *)
Definition env_two : Env :=
  {| env_getInput := env_getInput env;
     env_glob := fun _ _ _ =>
       Ok [js "policies/api1/api.xml"; js "policies/api1/operations/op1.xml"];
     env_readFile := env_readFile env;
     env_parseYaml := env_parseYaml env;
     env_path_join := env_path_join env;
     env_path_resolve := env_path_resolve env;
     env_invalid_path := env_invalid_path env;
     env_object_to_string := env_object_to_string env |}.

End Sample.

Module ClientFacts.

Lemma includes_middle w a b : includes w (a ++ w ++ b) = true.
Proof. apply includes_spec. now exists a, b. Qed.

Lemma join_In sep a l : In a l -> exists x y, join sep l = x ++ a ++ y.
Proof.
  induction l as [|b l IH]; [intros []|]. intros [->|H].
  - destruct l as [|c l]; simpl.
    + exists [], []. now rewrite app_nil_r.
    + now exists [], (sep ++ join sep (c :: l)).
  - destruct (IH H) as (x & y & E). destruct l as [|c l]; [destruct H|].
    exists (b ++ sep ++ x), y. change (join sep (b :: c :: l)) with (b ++ sep ++ join sep (c :: l)).
    rewrite E. now rewrite <- !app_assoc.
Qed.

Ltac emits_step :=
  first
    [ apply emits_ret | apply emits_lift | apply emits_get | apply emits_put
    | apply emits_throw
    | apply emits_emit; reflexivity
    | apply emits_interact; intros ?; reflexivity
    | apply emits_ask; intros ?; reflexivity
    | apply emits_call
    | apply emits_bind; [|intros ?]
    | apply emits_try_catch; [|intros ?]
    | apply emits_for_of; intros ?
    | match goal with
      | |- emits _ (match ?x with _ => _ end) => destruct x
      end ].

Section WithClient.
Variable env : Env.
Variable sdk : Sdk.
Variable config : ApimConfig.

Lemma listApis_no_write : emits (fun e => is_write e = false) (listApis env sdk config).
Proof. unfold listApis, core_debug, core_warning. repeat emits_step. Qed.

Lemma listApis_total : total (listApis env sdk config).
Proof.
  unfold listApis. apply total_try_catch. intros v.
  apply total_bind; [apply total_emit|intros; apply total_ret].
Qed.

(** On an [Error], the catch block of the direct updates computes the chain. *)
Lemma direct_error_message_chain e :
  Js.instanceof_Error e = true ->
  direct_error_message e = message_chain e.
Proof.
  destruct e as [| | | | |[] props]; try discriminate. intros _.
  unfold direct_error_message, message_chain, nested_message, own_message, payload_message,
    Js.has_property, Js.read, Js.get_prop.
  cbn [Js.instanceof_Error].
  repeat
    (first
       [ reflexivity
       | match goal with
         | |- context [Js.lookup ?k ?p] =>
             destruct (Js.lookup k p) as [[| | [|] | | | [|] ?]|]; cbn
         | |- context [Js.truthy ?m] => destruct (Js.truthy m); cbn
         | |- context [negb (?z =? 0)%Z] => destruct (negb (z =? 0)%Z); cbn
         | |- context [negb (eqb ?s [])] => destruct (negb (eqb s [])); cbn
         end ]).
Qed.

Lemma direct_error_message_other e :
  Js.instanceof_Error e = false ->
  direct_error_message e = VString (js "Unknown error").
Proof. unfold direct_error_message. now intros ->. Qed.

End WithClient.

End ClientFacts.
Import ClientFacts.

(** C3. Existence guard before API-level writes: when the list that
    [listApis] returns does not contain [apiId], [updateApiPolicy] returns a
    result with [updated = false] whose error names [apiId] and every
    available API identifier, and emits no write of the SDK. *)
Theorem updateApiPolicy_existence_guard :
  forall env sdk config apiId newPolicyContent h apis,
    completion (listApis env sdk config tt h) = Ok apis ->
    array_includes apis apiId = false ->
    let out := updateApiPolicy env sdk config apiId newPolicyContent tt h in
    let message :=
      js "API '" ++ apiId ++ js "' not found. Available APIs: " ++ join (js ", ") apis in
    completion out
    = Ok {| r_apiId := apiId; r_operationId := None; updated := false; etag := None;
            error := Some (VString message) |}
    /\ includes apiId message = true
    /\ (forall a, In a apis -> includes a message = true)
    /\ Forall (fun e => is_write e = false) (events out).
Proof.
  intros env sdk config apiId newPolicyContent h apis Hl Hn out message.
  assert (Hout : out = ((Ok {| r_apiId := apiId; r_operationId := None; updated := false;
                               etag := None; error := Some (VString message) |}, tt),
                        events (listApis env sdk config tt h)
                        ++ [Log Warning
                              (js "API '" ++ apiId
                               ++ js "' does not exist in APIM service. Available APIs: "
                               ++ join (js ", ") apis)])).
  { unfold out, updateApiPolicy. rewrite run_try_catch, run_bind, run_call.
    rewrite Hl. cbn [fst snd completion locals]. rewrite Hn. cbn. reflexivity. }
  rewrite Hout. cbn [completion events fst snd]. repeat split.
  - unfold message. apply (includes_middle apiId (js "API '")).
  - intros a Ha. destruct (join_In (js ", ") a apis Ha) as (x & y & E).
    unfold message. rewrite E.
    replace (js "API '" ++ apiId ++ js "' not found. Available APIs: " ++ x ++ a ++ y)
      with ((js "API '" ++ apiId ++ js "' not found. Available APIs: " ++ x) ++ a ++ y)
      by (now rewrite <- !app_assoc).
    apply includes_middle.
  - apply Forall_app. split.
    + apply listApis_no_write.
    + repeat constructor.
Qed.

Lemma updateApiPolicy_existence_guard_witness :
  completion (listApis Sample.env Sample.sdk Sample.config tt []) = Ok [js "other-api"]
  /\ array_includes [js "other-api"] (js "missing-api") = false
  /\ completion (updateApiPolicy Sample.env Sample.sdk Sample.config (js "missing-api")
                   (js "<policies/>") tt [])
     = Ok {| r_apiId := js "missing-api"; r_operationId := None; updated := false;
             etag := None;
             error := Some (VString (js "API 'missing-api' not found. Available APIs: other-api")) |}.
Proof.
  split; [reflexivity|]. split; [reflexivity|].
  exact (proj1 (@updateApiPolicy_existence_guard Sample.env Sample.sdk Sample.config
                  (js "missing-api") (js "<policies/>") [] [js "other-api"]
                  eq_refl eq_refl)).
Defined.

(** C9 as stated: whatever the write throws, the error of the result is chosen
    by the chain. *)
Definition write_failure_chain_at (env : Env) (sdk : Sdk) (config : ApimConfig)
    (apiId policyContent : jsstring) (h : history) : Prop :=
  forall e,
    sdk_apiPolicy_createOrUpdate sdk h (resourceGroupName config) (serviceName config)
      apiId (js "policy") policyContent (js "xml") = Throw e ->
    completion (updateApiPolicyDirect env sdk config apiId policyContent tt h)
    = Ok {| r_apiId := apiId; r_operationId := None; updated := false; etag := None;
            error := Some (message_chain e) |}.

(** C9, as stated, fails: for a thrown value that is not an [Error] and
    carries [response.data.message], the result holds ['Unknown error'] and
    not the nested message. *)
Lemma write_failure_chain_fails :
  ~ write_failure_chain_at Sample.env Sample.sdk Sample.config (js "api1") (js "<policies/>") [].
Proof.
  intros H. specialize (H Sample.plain_payload eq_refl). vm_compute in H. discriminate.
Qed.

(** C9, amended. When the write throws [e], both direct updates return a
    result with [updated = false]; its error is, for an [e] that is an [Error]
    instance, chosen by the chain (the truthy [response.data.error.message],
    else the truthy [response.data.message], else the message of [e]), and
    for any other [e] the constant ['Unknown error']. *)
Theorem write_failure_message :
  forall env sdk config apiId policyContent h e,
    sdk_apiPolicy_createOrUpdate sdk h (resourceGroupName config) (serviceName config)
      apiId (js "policy") policyContent (js "xml") = Throw e ->
    completion (updateApiPolicyDirect env sdk config apiId policyContent tt h)
    = Ok {| r_apiId := apiId; r_operationId := None; updated := false; etag := None;
            error := Some (if Js.instanceof_Error e then message_chain e
                           else VString (js "Unknown error")) |}.
Proof.
  intros env sdk config apiId policyContent h e H.
  unfold updateApiPolicyDirect. rewrite run_try_catch, run_bind.
  unfold interact at 1. rewrite H. cbn.
  destruct (Js.instanceof_Error e) eqn:E.
  - now rewrite direct_error_message_chain.
  - now rewrite direct_error_message_other.
Qed.

Lemma write_failure_message_witness :
  sdk_apiPolicy_createOrUpdate Sample.failing_sdk [] (js "rg") (js "apim") (js "test-api")
    (js "policy") (js "<policies></policies>") (js "xml") = Throw Sample.azure_error
  /\ completion (updateApiPolicyDirect Sample.env Sample.failing_sdk Sample.config
                   (js "test-api") (js "<policies></policies>") tt [])
     = Ok {| r_apiId := js "test-api"; r_operationId := None; updated := false; etag := None;
             error := Some (VString (js "Inner Azure error")) |}.
Proof.
  split; [reflexivity|].
  exact (@write_failure_message Sample.env Sample.failing_sdk Sample.config
           (js "test-api") (js "<policies></policies>") [] Sample.azure_error eq_refl).
Defined.

(* ===================================================================== *)
(** * The orchestrator *)
(* ===================================================================== *)

(** A call of one of the two update methods of the client. *)
Inductive update_request : Type :=
| ReqApi (apiId value : jsstring)
| ReqOperation (apiId : jsstring) (operationId : option jsstring) (value : jsstring).

(** The call [run] makes for a document. *)
Definition request_of (p : PolicyFile) : update_request :=
  match scope p with
  | ScopeApi => ReqApi (apiId p) (content p)
  | ScopeOperation => ReqOperation (apiId p) (operationId p) (content p)
  end.

Definition update_of (e : event) : option (update_request * outcome PolicyUpdateResult) :=
  match e with
  | UpdateApiPolicy a v r => Some (ReqApi a v, r)
  | UpdateOperationPolicy a op v r => Some (ReqOperation a op v, r)
  | _ => None
  end.

Definition etag_output_of (e : event) : option jsstring :=
  match e with
  | SetOutput name value => if eqb name (js "etag") then Some value else None
  | _ => None
  end.

Definition failure_of (e : event) : option jsval :=
  match e with
  | SetFailed v => Some v
  | _ => None
  end.

Fixpoint select {A B} (f : A -> option B) (l : list A) : list B :=
  match l with
  | [] => []
  | x :: l' => match f x with Some y => y :: select f l' | None => select f l' end
  end.

(** The update calls of a run with their results, the values it published as
    [etag], and the failures it reported, each in order. *)
Definition updates (evs : list event) := select update_of evs.
Definition etag_outputs (evs : list event) := select etag_output_of evs.
Definition failures (evs : list event) := select failure_of evs.

(** The token of a successful result, when it is non-empty. *)
Definition applied_token (r : outcome PolicyUpdateResult) : option jsstring :=
  match r with
  | Ok result => if updated result then truthy_string (etag result) else None
  | Throw _ => None
  end.

(** The output contract in the words of the specification: the token of the
    last successful result with a non-empty token, in iteration order; the
    empty string when there is none. *)
Definition last_applied_token (results : list (outcome PolicyUpdateResult)) : jsstring :=
  last (select applied_token results) [].

(** Events that are neither an update call, nor an output, nor a failure. *)
Definition quiet (e : event) : bool :=
  match e with
  | SetOutput _ _ | SetFailed _ | UpdateApiPolicy _ _ _ | UpdateOperationPolicy _ _ _ _ => false
  | _ => true
  end.

(** What [run] logs for a document once the client has answered. *)
Definition report_of (env : Env) (p : PolicyFile) (r : outcome PolicyUpdateResult)
  : list event :=
  match r with
  | Ok result =>
      if updated result then
        [Log Info (js "Successfully updated " ++ scope_name (scope p) ++ js " policy: "
                   ++ policy_name p)]
      else if truthy_opt (error result) then
        [Log Error (js "Failed to update " ++ scope_name (scope p) ++ js " policy: "
                    ++ policy_name p ++ js " - " ++ str_any env (error result))]
      else []
  | Throw v =>
      [Log Error (js "Error processing policy " ++ filePath p ++ js ": "
                  ++ str env (message_of v))]
  end.

Module OrchestratorFacts.

Section Select.
Context {A B : Type} (f : A -> option B).

Lemma select_app l1 l2 : select f (l1 ++ l2) = select f l1 ++ select f l2.
Proof.
  induction l1 as [|x l1 IH]; simpl; [reflexivity|].
  destruct (f x); simpl; now rewrite IH.
Qed.

Lemma select_none l : Forall (fun x => f x = None) l -> select f l = [].
Proof. induction 1 as [|x l H _ IH]; simpl; [reflexivity|]. now rewrite H. Qed.

End Select.

Lemma last_cons {A} (t : A) l s : last (t :: l) s = last l t.
Proof.
  revert t s. induction l as [|j l IH]; intros t s; [reflexivity|].
  change (last (t :: j :: l) s) with (last (j :: l) s). now rewrite !IH.
Qed.

Lemma quiet_updates evs : Forall (fun e => quiet e = true) evs -> updates evs = [].
Proof.
  intros H. apply select_none. eapply Forall_impl; [|exact H].
  intros [] Hq; try reflexivity; discriminate.
Qed.

Lemma quiet_outputs evs : Forall (fun e => quiet e = true) evs -> etag_outputs evs = [].
Proof.
  intros H. apply select_none. eapply Forall_impl; [|exact H].
  intros [] Hq; try reflexivity; discriminate.
Qed.

Lemma quiet_failures evs : Forall (fun e => quiet e = true) evs -> failures evs = [].
Proof.
  intros H. apply select_none. eapply Forall_impl; [|exact H].
  intros [] Hq; try reflexivity; discriminate.
Qed.

Section Loop.
Variable env : Env.
Variable o : ClientOracle.

(** The answer of the client to the call for [p], at history [h]. *)
Definition response_at (h : history) (p : PolicyFile) : outcome PolicyUpdateResult :=
  match scope p with
  | ScopeApi => o_updateApiPolicy o h (apiId p) (content p)
  | ScopeOperation => o_updateOperationPolicy o h (apiId p) (operationId p) (content p)
  end.

Definition update_event (p : PolicyFile) (r : outcome PolicyUpdateResult) : event :=
  match scope p with
  | ScopeApi => UpdateApiPolicy (apiId p) (content p) r
  | ScopeOperation => UpdateOperationPolicy (apiId p) (operationId p) (content p) r
  end.

Lemma update_of_update_event p r : update_of (update_event p r) = Some (request_of p, r).
Proof. unfold update_event, request_of. now destruct (scope p). Qed.

Lemma report_of_quiet p r : Forall (fun e => quiet e = true) (report_of env p r).
Proof.
  unfold report_of. destruct r as [result|v]; [|repeat constructor].
  destruct (updated result); [repeat constructor|].
  destruct (truthy_opt (error result)); repeat constructor.
Qed.

(** One round of the loop: the call, then the report; it never throws, and
    [lastETag] changes only to the non-empty token of a successful result. *)
Lemma processPolicy_run p s h :
  processPolicy env (oracle_client o) p s h
  = ((Ok tt, match applied_token (response_at h p) with Some t => t | None => s end),
     update_event p (response_at h p) :: report_of env p (response_at h p)).
Proof.
  unfold processPolicy, response_at, update_event, report_of, applied_token.
  rewrite run_try_catch, run_bind.
  destruct (scope p); rewrite run_call; cbn -[js app].
  - destruct (o_updateApiPolicy o h (apiId p) (content p)) as [result|v];
      cbn -[js app]; [|reflexivity].
    destruct (updated result); cbn -[js app].
    + destruct (truthy_string (etag result)); reflexivity.
    + destruct (truthy_opt (error result)); reflexivity.
  - destruct (o_updateOperationPolicy o h (apiId p) (operationId p) (content p))
      as [result|v]; cbn -[js app]; [|reflexivity].
    destruct (updated result); cbn -[js app].
    + destruct (truthy_string (etag result)); reflexivity.
    + destruct (truthy_opt (error result)); reflexivity.
Qed.

(** The events of the loop, document by document. *)
Fixpoint loop_events (ps : list PolicyFile) (h : history) : list event :=
  match ps with
  | [] => []
  | p :: ps' =>
      let round := update_event p (response_at h p) :: report_of env p (response_at h p) in
      round ++ loop_events ps' (h ++ round)
  end.

Lemma processPolicies_run ps : forall s h,
  completion (processPolicies env (oracle_client o) ps s h) = Ok tt
  /\ events (processPolicies env (oracle_client o) ps s h) = loop_events ps h
  /\ locals (processPolicies env (oracle_client o) ps s h)
     = last (select applied_token (map snd (updates (loop_events ps h)))) s.
Proof.
  unfold processPolicies.
  induction ps as [|p ps IH]; intros s h; [now cbn|].
  cbn [for_of loop_events]. rewrite run_bind, processPolicy_run.
  cbn [completion locals events fst snd].
  match goal with |- context [for_of ps _ ?s' ?h'] => destruct (IH s' h') as (-> & -> & ->) end.
  split; [reflexivity|]. split; [reflexivity|].
  unfold updates. cbn [app select]. rewrite update_of_update_event.
  rewrite select_app.
  rewrite (select_none update_of (l := report_of env p (response_at h p))).
  2:{ eapply Forall_impl; [|apply report_of_quiet]. intros [] Hq; try reflexivity; discriminate. }
  cbn [app map snd select].
  destruct (applied_token (response_at h p)) as [t|]; [|reflexivity].
  now rewrite last_cons.
Qed.

Lemma loop_requests ps : forall h,
  map fst (updates (loop_events ps h)) = map request_of ps.
Proof.
  induction ps as [|p ps IH]; intros h; [reflexivity|].
  cbn [loop_events]. unfold updates. cbn [app select]. rewrite update_of_update_event.
  rewrite select_app.
  rewrite (select_none update_of (l := report_of env p (response_at h p))).
  2:{ eapply Forall_impl; [|apply report_of_quiet]. intros [] Hq; try reflexivity; discriminate. }
  cbn [app map fst]. f_equal. apply IH.
Qed.

(** Every document is answered and reported, whatever the answers before. *)
Lemma loop_reports ps : forall h,
  Forall2 (fun p r => incl (report_of env p r) (loop_events ps h))
    ps (map snd (updates (loop_events ps h))).
Proof.
  induction ps as [|p ps IH]; intros h; [constructor|].
  cbn [loop_events]. unfold updates. cbn [app select]. rewrite update_of_update_event.
  rewrite select_app.
  rewrite (select_none update_of (l := report_of env p (response_at h p))).
  2:{ eapply Forall_impl; [|apply report_of_quiet]. intros [] Hq; try reflexivity; discriminate. }
  cbn [app map snd]. constructor.
  - intros e He. right. apply in_or_app. now left.
  - eapply Forall2_impl; [|apply IH]. intros q r H e He.
    right. apply in_or_app. right. now apply H.
Qed.

Lemma loop_no_output ps : forall h,
  etag_outputs (loop_events ps h) = [] /\ failures (loop_events ps h) = [].
Proof.
  induction ps as [|p ps IH]; intros h; [now split|].
  cbn [loop_events].
  destruct (IH (h ++ update_event p (response_at h p) :: report_of env p (response_at h p)))
    as [E1 E2].
  unfold etag_outputs, failures in *. rewrite !select_app, E1, E2, !app_nil_r.
  cbn [select].
  replace (etag_output_of (update_event p (response_at h p))) with (@None jsstring)
    by (unfold update_event; now destruct (scope p)).
  replace (failure_of (update_event p (response_at h p))) with (@None jsval)
    by (unfold update_event; now destruct (scope p)).
  split.
  - apply (quiet_outputs (report_of_quiet p _)).
  - apply (quiet_failures (report_of_quiet p _)).
Qed.

End Loop.


Ltac unfold_log :=
  unfold core_debug, core_info, core_warning, core_error, core_getInput, readFile,
    push_policy, set_invalid.

Definition is_quiet (e : event) : Prop := quiet e = true.

(** A computation that returns values satisfying [R] only. *)
Definition returns {S A} (R : A -> Prop) (m : M S A) : Prop :=
  forall s h a, completion (m s h) = Ok a -> R a.

Lemma returns_bind {S A B} (R1 : A -> Prop) (R : B -> Prop) (m : M S A) (f : A -> M S B) :
  returns R1 m -> (forall a, R1 a -> returns R (f a)) -> returns R (bind m f).
Proof.
  intros Hm Hf s h b. rewrite run_bind. specialize (Hm s h).
  destruct (m s h) as [[[a|v] s1] e1]; cbn in *; [|discriminate].
  apply Hf. now apply Hm.
Qed.

Lemma returns_any {S A} (m : M S A) : returns (fun _ => True) m.
Proof. intros s h a _. exact I. Qed.

Lemma returns_ret {S A} (R : A -> Prop) (a : A) : R a -> returns R (@ret S A a).
Proof. intros H s h b E. cbn in E. now injection E as <-. Qed.

Lemma returns_throw {S A} (R : A -> Prop) v : returns R (@throw S A v).
Proof. intros s h b E. discriminate. Qed.

Lemma emits_bind_returns {S A B} Q (R : A -> Prop) (m : M S A) (f : A -> M S B) :
  emits Q m -> returns R m -> (forall a, R a -> emits Q (f a)) -> emits Q (bind m f).
Proof.
  intros Hm Hr Hf s h. rewrite run_bind. specialize (Hm s h). specialize (Hr s h).
  destruct (m s h) as [[[a|v] s1] e1]; cbn in *; [|exact Hm].
  apply Forall_app. split; [exact Hm|]. now apply Hf, Hr.
Qed.

Section Run.
Variable env : Env.
Variable construct : ApimConfig -> outcome ClientOracle.

Lemma parseInputs_quiet : emits is_quiet (parseInputs env).
Proof. unfold parseInputs. unfold_log. repeat emits_step. Qed.

Lemma discoverPolicies_quiet manifestPath baseDir :
  emits is_quiet (discoverPolicies env manifestPath baseDir).
Proof.
  unfold discoverPolicies, discoverPoliciesFromManifest, discoverPoliciesFromDefaultStructure,
    loadPolicyManifest.
  unfold_log. repeat emits_step.
Qed.

Lemma validatePolicies_quiet ps : emits is_quiet (validatePolicies ps).
Proof.
  unfold validatePolicies, count_policy, report_counts. unfold_log. repeat emits_step.
Qed.

Definition from_oracle (c : Client) : Prop := exists o, c = oracle_client o.

Lemma constructor_quiet config :
  emits is_quiet (@call jsstring _ _ (oracle_constructor construct config) tt).
Proof. unfold oracle_constructor. repeat emits_step. Qed.

Lemma constructor_returns config :
  returns from_oracle (@call jsstring _ _ (oracle_constructor construct config) tt).
Proof.
  intros s h c. rewrite run_call. unfold oracle_constructor.
  destruct (construct config) as [o|v]; cbn; [|discriminate].
  intros E. injection E as <-. now exists o.
Qed.

Lemma run_setup_quiet : emits is_quiet (run_setup env (oracle_constructor construct)).
Proof.
  unfold run_setup. unfold_log.
  apply emits_bind; [apply emits_emit; reflexivity|intros _].
  apply emits_bind; [apply emits_call, parseInputs_quiet|intros config].
  apply emits_bind_returns with (R := from_oracle);
    [apply constructor_quiet|apply constructor_returns|].
  intros c [o ->].
  repeat first [apply discoverPolicies_quiet | emits_step].
Qed.

Lemma run_setup_returns :
  returns (fun x => from_oracle (fst x)) (run_setup env (oracle_constructor construct)).
Proof.
  unfold run_setup.
  apply returns_bind with (R1 := fun _ => True); [apply returns_any|]. intros _ _.
  apply returns_bind with (R1 := fun _ => True); [apply returns_any|]. intros config _.
  apply returns_bind with (R1 := from_oracle); [apply constructor_returns|]. intros c Hc.
  apply returns_bind with (R1 := fun _ => True); [apply returns_any|]. intros b _.
  destruct (negb b); [apply returns_throw|].
  apply returns_bind with (R1 := fun _ => True); [apply returns_any|]. intros _ _.
  apply returns_bind with (R1 := fun _ => True); [apply returns_any|]. intros apis _.
  apply returns_bind with (R1 := fun _ => True); [apply returns_any|]. intros _ _.
  apply returns_bind with (R1 := fun _ => True); [apply returns_any|]. intros _ _.
  apply returns_bind with (R1 := fun _ => True); [apply returns_any|]. intros ps _.
  apply returns_ret. exact Hc.
Qed.

(** What holds of a run, by its completion and its events: on a normal return
    one value was published, the token of the last applied result; before a
    throw nothing was published and no update was called. *)
Definition run_post {A} (r : outcome A) (evs : list event) : Prop :=
  match r with
  | Ok _ =>
      etag_outputs evs = [last_applied_token (map snd (updates evs))] /\ failures evs = []
  | Throw _ => etag_outputs evs = [] /\ updates evs = [] /\ failures evs = []
  end.

Lemma run_post_prefix {A} (r : outcome A) pre evs :
  Forall is_quiet pre -> run_post r evs -> run_post r (pre ++ evs).
Proof.
  intros Hq. unfold run_post, etag_outputs, updates, failures. rewrite !select_app.
  fold (etag_outputs pre) (updates pre) (failures pre).
  rewrite (quiet_outputs Hq), (quiet_updates Hq), (quiet_failures Hq). now cbn [app].
Qed.

Lemma run_post_quiet {A} v evs : Forall is_quiet evs -> run_post (@Throw A v) evs.
Proof.
  intros Hq. unfold run_post.
  now rewrite (quiet_outputs Hq), (quiet_updates Hq), (quiet_failures Hq).
Qed.

Lemma run_apply_post o ps s h :
  run_post (completion (run_apply env (oracle_client o) ps s h))
           (events (run_apply env (oracle_client o) ps s h)).
Proof.
  unfold run_apply. destruct (List.length ps =? 0)%nat; [cbn; auto|].
  rewrite run_bind, run_call.
  generalize (validatePolicies_quiet ps tt h).
  assert (Hb : exists b, completion (validatePolicies ps tt h) = Ok b)
    by (eexists; apply validatePolicies_value).
  destruct Hb as [b ->].
  set (ev := events (validatePolicies ps tt h)). clearbody ev. intros Hq.
  destruct b; cbn [negb fst snd completion events locals].
  2:{ rewrite app_nil_r. now apply run_post_quiet. }
  apply run_post_prefix; [exact Hq|].
  unfold_log. rewrite run_bind. cbn [emit fst snd completion events locals].
  rewrite run_bind. cbn [emit fst snd completion events locals].
  rewrite run_bind. cbn [put fst snd completion events locals].
  rewrite run_bind.
  match goal with |- context [processPolicies env (oracle_client o) ps ?s' ?h'] =>
    destruct (processPolicies_run env o ps s' h') as (Hc & He & Hl);
    destruct (loop_no_output env o ps h') as [Ho Hf];
    destruct (processPolicies env (oracle_client o) ps s' h') as [[r sl] el]
  end.
  cbn [fst snd completion events locals] in *. subst r.
  cbn [fst snd completion events locals app get core_setOutput emit]. rewrite run_bind.
  cbn [fst snd completion events locals app get core_setOutput emit bind].
  rewrite <- He in Ho, Hf, Hl.
  unfold run_post, etag_outputs, updates, failures in *. cbn [select update_of etag_output_of failure_of].
  rewrite !select_app, Ho, Hf. cbn [select update_of etag_output_of failure_of app].
  rewrite eqb_refl, app_nil_r. unfold last_applied_token. now rewrite Hl.
Qed.

(** The try block of [run]. *)
Lemma run_body_post s h :
  let out := bind (run_setup env (oracle_constructor construct))
               (fun discovered => run_apply env (fst discovered) (snd discovered)) s h in
  run_post (completion out) (events out).
Proof.
  cbn zeta. rewrite run_bind.
  generalize (run_setup_quiet s h) (run_setup_returns s h).
  destruct (run_setup env (oracle_constructor construct) s h) as [[[[c ps]|v] s1] e1];
    cbn [fst snd completion events locals]; intros Hq Hr.
  - destruct (Hr _ eq_refl) as [o Ho]. cbn in Ho. subst c.
    apply run_post_prefix; [exact Hq|]. apply run_apply_post.
  - now apply run_post_quiet.
Qed.

(** A run: what [run] publishes and reports. *)
Lemma run_outputs h :
  let evs := events (run env (oracle_constructor construct) tt h) in
  etag_outputs evs = [last_applied_token (map snd (updates evs))]
  /\ (failures evs <> [] -> etag_outputs evs = [[]] /\ updates evs = []).
Proof.
  cbn zeta. unfold run. rewrite run_call. cbn [events snd]. rewrite run_try_catch.
  generalize (run_body_post [] h). cbn zeta.
  destruct (bind (run_setup env (oracle_constructor construct)) _ [] h) as [[[u|v] s1] e1];
    cbn [fst snd completion events locals run_post].
  - intros [H1 H2]. split; [exact H1|]. intros F. now elim F.
  - intros (H1 & H2 & H3).
    assert (E : exists x, events ((bind (if Js.instanceof_Error v
                                    then core_setFailed (Js.read v (js "message"))
                                    else core_setFailed (VString (js "An unknown error occurred")))
                                   (fun _ => core_setOutput (js "etag") [])) s1 (h ++ e1))
                          = [SetFailed x; SetOutput (js "etag") []]).
    { destruct (Js.instanceof_Error v); eexists; reflexivity. }
    destruct E as [x ->].
    unfold etag_outputs, updates, failures in *. rewrite !select_app, H1, H2.
    cbn. auto.
Qed.

(** A run whose discovery finds nothing. *)
Lemma run_nothing_found h client :
  completion (run_setup env (oracle_constructor construct) [] h) = Ok (client, []) ->
  let evs := events (run env (oracle_constructor construct) tt h) in
  evs = events (run_setup env (oracle_constructor construct) [] h)
        ++ [Log Warning (js "No policy files found to update"); SetOutput (js "etag") []]
  /\ failures evs = [] /\ updates evs = [] /\ etag_outputs evs = [[]].
Proof.
  intros H. cbn zeta. unfold run. rewrite run_call. cbn [events snd].
  rewrite run_try_catch, run_bind.
  generalize (run_setup_quiet [] h).
  destruct (run_setup env (oracle_constructor construct) [] h) as [[r s1] e1].
  cbn [fst snd completion events locals] in *. subst r. intros Hq.
  cbn [fst snd]. unfold run_apply. cbn.
  split; [reflexivity|].
  unfold etag_outputs, updates, failures. rewrite !select_app.
  fold (etag_outputs e1) (updates e1) (failures e1).
  rewrite (quiet_outputs Hq), (quiet_updates Hq), (quiet_failures Hq). now cbn.
Qed.

End Run.

End OrchestratorFacts.
Import OrchestratorFacts.

(** C1. Failure isolation of the loop: whatever the client answers for a
    document (a result with [updated = false], or a thrown value), the loop
    returns normally, calls the update for every document in list order, and
    reports each answer; with two documents of which the first is refused and
    the second applied, both are called, the first is logged as failed, the
    second as updated, and [lastETag] is the token of the second. *)
Theorem failure_isolation :
  forall env o policies lastETag h,
    let out := processPolicies env (oracle_client o) policies lastETag h in
    completion out = Ok tt
    /\ map fst (updates (events out)) = map request_of policies
    /\ Forall2 (fun p r => incl (report_of env p r) (events out))
         policies (map snd (updates (events out)))
    /\ (forall p1 p2 r1 r2 t,
          policies = [p1; p2] ->
          map snd (updates (events out)) = [Ok r1; Ok r2] ->
          updated r1 = false -> truthy_opt (error r1) = true ->
          updated r2 = true -> truthy_string (etag r2) = Some t ->
          In (Log Error (js "Failed to update " ++ scope_name (scope p1) ++ js " policy: "
                         ++ policy_name p1 ++ js " - " ++ str_any env (error r1)))
             (events out)
          /\ In (Log Info (js "Successfully updated " ++ scope_name (scope p2)
                          ++ js " policy: " ++ policy_name p2))
               (events out)
          /\ locals out = t).
Proof.
  intros env o policies lastETag h out.
  destruct (processPolicies_run env o policies lastETag h) as (Hc & He & Hl).
  fold out in Hc, He, Hl. split; [exact Hc|]. split; [|split].
  - rewrite He. apply loop_requests.
  - rewrite He. apply loop_reports.
  - intros p1 p2 r1 r2 t -> Hr H1 H1' H2 H2'.
    assert (Hrep : Forall2 (fun p r => incl (report_of env p r) (events out))
                     [p1; p2] (map snd (updates (events out)))).
    { rewrite He. apply loop_reports. }
    rewrite Hr in Hrep. inversion Hrep as [|? ? ? ? R1 Hrep']; subst.
    inversion Hrep' as [|? ? ? ? R2 _]; subst.
    unfold report_of in R1, R2. rewrite H1, H1' in R1. rewrite H2 in R2.
    split; [apply R1; now left|]. split; [apply R2; now left|].
    rewrite Hl, <- He, Hr. cbn [select applied_token]. rewrite H1, H2, H2'. reflexivity.
Qed.

(** C2. Final etag output contract: every run publishes [etag] once, and its
    value is the token of the last result, in call order, that is successful
    and has a non-empty token, or the empty string when there is none; a run
    that reports a failure has called no update and publishes the empty
    string. *)
Theorem final_etag_contract :
  forall env construct h,
    let evs := events (run env (oracle_constructor construct) tt h) in
    etag_outputs evs = [last_applied_token (map snd (updates evs))]
    /\ (failures evs <> [] -> etag_outputs evs = [[]] /\ updates evs = []).
Proof. intros env construct h. apply run_outputs. Qed.

(** C5 as stated: a run whose discovery finds nothing reports a failure. *)
Definition empty_discovery_is_fatal_at (env : Env)
    (construct : ApimConfig -> outcome ClientOracle) (h : history) : Prop :=
  forall client,
    completion (run_setup env (oracle_constructor construct) [] h) = Ok (client, []) ->
    let evs := events (run env (oracle_constructor construct) tt h) in
    failures evs <> [] /\ updates evs = [] /\ etag_outputs evs = [[]].

(** C5, as stated, fails: with no file under [policies], the run reports no
    failure. *)
Lemma empty_discovery_not_fatal :
  ~ empty_discovery_is_fatal_at Sample.env Sample.construct [].
Proof.
  intros H. destruct (H (oracle_client Sample.oracle) eq_refl) as [F _].
  apply F. vm_compute. reflexivity.
Qed.

(** C5, amended. A run whose discovery finds no document calls no update and
    publishes the empty string as [etag]; it reports no failure: after
    discovery it logs the warning [No policy files found to update], publishes
    the output and returns. *)
Theorem empty_discovery_ends_run :
  forall env construct h client,
    completion (run_setup env (oracle_constructor construct) [] h) = Ok (client, []) ->
    let evs := events (run env (oracle_constructor construct) tt h) in
    evs = events (run_setup env (oracle_constructor construct) [] h)
          ++ [Log Warning (js "No policy files found to update"); SetOutput (js "etag") []]
    /\ failures evs = [] /\ updates evs = [] /\ etag_outputs evs = [[]].
Proof. intros env construct h client H. now apply run_nothing_found with (client := client). Qed.

Lemma empty_discovery_ends_run_witness :
  completion (run_setup Sample.env (oracle_constructor Sample.construct) [] [])
  = Ok (oracle_client Sample.oracle, [])
  /\ failures (events (run Sample.env (oracle_constructor Sample.construct) tt [])) = []
  /\ etag_outputs (events (run Sample.env (oracle_constructor Sample.construct) tt [])) = [[]].
Proof.
  split; [reflexivity|].
  pose proof (@empty_discovery_ends_run Sample.env Sample.construct []
                (oracle_client Sample.oracle) eq_refl) as H.
  cbv zeta in H. destruct H as (_ & F & _ & E). split; [exact F|exact E].
Defined.

(** End-to-end scenario C: of two documents the first is refused and the
    second applied; both updates are called, the first is reported as failed,
    and the run publishes the token of the second. *)
Example scenario_partial_failure :
  let evs := events (run Sample.env_two (oracle_constructor Sample.construct) tt []) in
  map fst (updates evs)
  = [ReqApi (js "api1") (js "<policies></policies>");
     ReqOperation (js "api1") (Some (js "op1")) (js "<policies></policies>")]
  /\ In (Log Error (js "Failed to update api policy: api1 - Denied")) evs
  /\ In (Log Info (js "Successfully updated operation policy: api1/op1")) evs
  /\ failures evs = []
  /\ etag_outputs evs = [js "e2"].
Proof. vm_compute. repeat split; auto 40. Qed.

(** End-to-end scenario A: the convention strategy over an API-level and an
    operation-level file yields the two documents. *)
Example scenario_convention_discovery :
  completion (discoverPolicies Sample.env_two None (js ".") tt [])
  = Ok [ {| filePath := js "./policies/api1/api.xml"; apiId := js "api1";
            operationId := None; scope := ScopeApi;
            content := js "<policies></policies>" |};
         {| filePath := js "./policies/api1/operations/op1.xml"; apiId := js "api1";
            operationId := Some (js "op1"); scope := ScopeOperation;
            content := js "<policies></policies>" |} ].
Proof. vm_compute. reflexivity. Qed.

(* ===================================================================== *)
(** * Checks of the test-suites, replayed on the embedding *)
(* ===================================================================== *)

Module Replay.

Definition with_glob (files : list jsstring) : Env :=
  {| env_getInput := env_getInput Sample.env;
     env_glob := fun _ _ _ => Ok files;
     env_readFile := env_readFile Sample.env;
     env_parseYaml := env_parseYaml Sample.env;
     env_path_join := env_path_join Sample.env;
     env_path_resolve := env_path_resolve Sample.env;
     env_invalid_path := env_invalid_path Sample.env;
     env_object_to_string := env_object_to_string Sample.env |}.

(** "should skip files when API ID or operation ID cannot be derived" *)
Example discovery_skips_underivable :
  let out := discoverPoliciesFromDefaultStructure
               (with_glob [js "policies//api.xml"; js "policies/sample-api/unknown.txt";
                           js "policies/sample-api/operations/.xml"])
               (js "/test/workspace") tt [] in
  completion out = Ok []
  /\ In (Log Warning (js "Cannot extract API ID from path: policies//api.xml")) (events out).
Proof. vm_compute. split; auto 10. Qed.

Definition boom : jsval := Js.new_Error (js "boom").

Definition sdk_listing_fails : Sdk :=
  {| sdk_service_get := fun _ _ _ => Throw (Js.new_Error (js "Connection failed"));
     sdk_api_listByService := fun _ _ _ => ([], Some boom);
     sdk_apiOperation_listByApi := fun _ _ _ _ => ([], Some boom);
     sdk_apiPolicy_createOrUpdate := fun _ _ _ _ _ _ _ => Ok (Some (js "test-etag"));
     sdk_apiOperationPolicy_createOrUpdate := fun _ _ _ _ _ _ _ _ => Ok (Some (js "test-etag-op")) |}.

(** "listApis should return [] on error", "listOperations should return [] on
    error", "should return false when connection fails" *)
Example listing_errors_are_absorbed :
  completion (listApis Sample.env sdk_listing_fails Sample.config tt []) = Ok []
  /\ completion (listOperations Sample.env sdk_listing_fails Sample.config (js "api1") tt [])
     = Ok []
  /\ completion (testConnection Sample.env sdk_listing_fails Sample.config tt []) = Ok false.
Proof. vm_compute. auto. Qed.

Definition sdk_healthy : Sdk :=
  {| sdk_service_get := fun _ _ _ => Ok (Some (js "test-apim"), None);
     sdk_api_listByService := fun _ _ _ => ([Some (js "test-api"); Some (js "other-api")], None);
     sdk_apiOperation_listByApi := fun _ _ _ _ => ([Some (js "test-op")], None);
     sdk_apiPolicy_createOrUpdate := fun _ _ _ _ _ _ _ => Ok (Some (js "test-etag"));
     sdk_apiOperationPolicy_createOrUpdate := fun _ _ _ _ _ _ _ _ => Ok (Some (js "test-etag-op")) |}.

(** "should successfully update API policy", "should successfully update
    operation policy" *)
Example updates_succeed :
  completion (updateApiPolicy Sample.env sdk_healthy Sample.config (js "test-api")
                (js "<policies></policies>") tt [])
  = Ok {| r_apiId := js "test-api"; r_operationId := None; updated := true;
          etag := Some (js "test-etag"); error := None |}
  /\ completion (updateOperationPolicy Sample.env sdk_healthy Sample.config (js "test-api")
                   (js "test-op") (js "<policies></policies>") tt [])
     = Ok {| r_apiId := js "test-api"; r_operationId := Some (js "test-op"); updated := true;
             etag := Some (js "test-etag-op"); error := None |}.
Proof. vm_compute. auto. Qed.

Definition refusing : ClientOracle :=
  {| o_testConnection := fun _ => Ok false;
     o_listApis := o_listApis Sample.oracle;
     o_listOperations := o_listOperations Sample.oracle;
     o_updateApiPolicy := o_updateApiPolicy Sample.oracle;
     o_updateOperationPolicy := o_updateOperationPolicy Sample.oracle |}.

(** "should fail when Azure connection test fails" *)
Example connection_failure_is_fatal :
  let evs := events (run Sample.env_two (oracle_constructor (fun _ => Ok refusing)) tt []) in
  failures evs = [VString (js "Failed to connect to Azure API Management service")]
  /\ etag_outputs evs = [[]]
  /\ updates evs = [].
Proof. vm_compute. auto. Qed.

End Replay.

(* ===================================================================== *)
(** * The overlap of the path classifiers *)
(* ===================================================================== *)

(** C6. The classifiers are not exclusive on a path the program can receive:
    [policies/my-policies/operations/api.xml] is the policy file of the
    operation [api] of the API [my-policies], and [extractOperationIdFromPath]
    and [isOperationLevelPolicy] read it so; yet [isApiLevelPolicy] accepts it
    too, since its pattern matches [policies/operations/api.xml] inside the
    path. The convention strategy asks [isApiLevelPolicy] first: it returns
    the file as a document of scope [api] with no operationId, and the run
    sends the policy of one operation to [updateApiPolicy], for the whole
    API. *)
Theorem operation_named_api_taken_as_api_level :
  let p := js "policies/my-policies/operations/api.xml" in
  let env := Replay.with_glob [p] in
  extractApiIdFromPath p = Some (js "my-policies")
  /\ extractOperationIdFromPath p = Some (js "api")
  /\ isOperationLevelPolicy p = true
  /\ isApiLevelPolicy p = true
  /\ completion (discoverPoliciesFromDefaultStructure env (js ".") tt [])
     = Ok [ {| filePath := js "./policies/my-policies/operations/api.xml";
               apiId := js "my-policies"; operationId := None; scope := ScopeApi;
               content := js "<policies></policies>" |} ]
  /\ map fst (updates (events (run env (oracle_constructor Sample.construct) tt [])))
     = [ReqApi (js "my-policies") (js "<policies></policies>")].
Proof. vm_compute. repeat split; reflexivity. Qed.

(* ===================================================================== *)
(** * Further properties of the path grammar *)
(* ===================================================================== *)

Module OperationIdFacts.

(** The shape of the pattern of [extractOperationIdFromPath] at one start
    position, with the text its group captures. *)
Definition OperationIdAt (suf o : jsstring) : Prop :=
  exists s1 a s2 s3,
    suf = js "policies" ++ s1 :: a ++ s2 :: js "operations" ++ s3 :: o ++ js ".xml"
    /\ is_sep s1 = true /\ is_sep s2 = true /\ is_sep s3 = true
    /\ a <> [] /\ sep_free a /\ o <> [] /\ sep_free o.

Lemma matches_operationId suf o : OperationIdAt suf o -> matches operationId_re suf.
Proof.
  intros (s1 & a & s2 & s3 & -> & Hs1 & Hs2 & Hs3 & Ha & Hq & Ho & Hqo).
  unfold operationId_re.
  apply matches_lit. eexists. split; [reflexivity|]. cbn [app matches].
  exists s1, (a ++ s2 :: js "operations" ++ s3 :: o ++ js ".xml"). repeat split; auto.
  exists a, (s2 :: js "operations" ++ s3 :: o ++ js ".xml"). repeat split; auto.
  exists s2, (js "operations" ++ s3 :: o ++ js ".xml"). repeat split; auto.
  apply matches_lit. eexists. split; [reflexivity|]. cbn [app matches].
  exists s3, (o ++ js ".xml"). repeat split; auto.
  exists o, (js ".xml"). repeat split; auto.
  apply matches_lit. exists []. rewrite app_nil_r. simpl. auto.
Qed.

(** The operation id of a path is what stands between its last separator and
    the final [.xml]. *)
Lemma OperationIdAt_last pre suf o pre' suf' o' :
  pre ++ suf = pre' ++ suf' -> OperationIdAt suf o -> OperationIdAt suf' o' -> o = o'.
Proof.
  intros E (s1 & a & s2 & s3 & -> & _ & _ & Hs3 & _ & _ & _ & Hqo)
           (t1 & b & t2 & t3 & -> & _ & _ & Ht3 & _ & _ & _ & Hqo').
  assert (E' : (pre ++ js "policies" ++ s1 :: a ++ s2 :: js "operations") ++ s3 :: (o ++ js ".xml")
               = (pre' ++ js "policies" ++ t1 :: b ++ t2 :: js "operations")
                 ++ t3 :: (o' ++ js ".xml")).
  { flatten_app. exact E. }
  apply last_sep_unique in E' as (_ & _ & E'); auto.
  - now apply app_inv_tail in E'.
  - apply sep_free_app. split; [assumption|reflexivity].
  - apply sep_free_app. split; [assumption|reflexivity].
Qed.

Lemma exec_One q k open caps s r :
  exec (One q :: k) open caps s = Some r ->
  exists c s', s = c :: s' /\ q c = true /\ exec k (push open c) caps s' = Some r.
Proof.
  destruct s as [|c s]; [discriminate|]. cbn [exec]. destruct (q c) eqn:Q; [|discriminate].
  intros H. now exists c, s.
Qed.

Lemma exec_operationId_sound suf r :
  exec operationId_re None [] suf = Some r -> exists o, OperationIdAt suf o /\ r = [o].
Proof.
  intros H. unfold operationId_re, lit in H.
  apply exec_lit_sound in H as (s' & -> & H). rewrite captured_None in H. cbn [app] in H.
  apply exec_One in H as (s1 & t & -> & Hs1 & H). cbn [push] in H.
  apply exec_Plus_sound in H as (a & b & -> & Ha & Hq & H). rewrite captured_None in H.
  apply exec_One in H as (s2 & t2 & -> & Hs2 & H). cbn [push] in H.
  apply exec_lit_sound in H as (t3 & -> & H). rewrite captured_None in H. cbn [app] in H.
  apply exec_One in H as (s3 & t4 & -> & Hs3 & H). cbn [push] in H.
  change (exec (Plus not_sep :: GroupClose :: (map (fun c => One (N.eqb c)) (js ".xml") ++ [AtEnd]))
            (Some []) [] t4 = Some r) in H.
  apply exec_Plus_sound in H as (o & e & -> & Ho & Hqo & H).
  rewrite captured_Some in H. cbn [app] in H.
  change (exec (map (fun c => One (N.eqb c)) (js ".xml") ++ [AtEnd]) None [o] e = Some r) in H.
  apply exec_lit_sound in H as (z & -> & H). rewrite captured_None in H.
  destruct z as [|c z]; [|discriminate]. cbn [exec] in H. injection H as <-.
  exists o. split; [|reflexivity]. exists s1, a, s2, s3. rewrite app_nil_r. auto 10.
Qed.

Lemma ApiIdAt_found p a : ApiIdAt p a -> extractApiIdFromPath p = Some a.
Proof.
  intros H. unfold extractApiIdFromPath.
  assert (E : search apiId_re p = Some [a]).
  { apply search_Some. exists [], p. repeat split.
    - apply exec_apiId. eauto.
    - intros pre' suf' _ Hl. simpl in Hl. lia. }
  now rewrite E.
Qed.

Lemma sep_not_in_sep_free x c y : is_sep c = true -> ~ sep_free (x ++ c :: y).
Proof.
  intros Hc H. apply sep_free_app in H as [_ H]. apply sep_free_cons in H as [H _].
  rewrite (not_sep_false _ Hc) in H. discriminate.
Qed.

End OperationIdFacts.
Import OperationIdFacts.

(** X1. [extractOperationIdFromPath] returns [o] exactly for the paths that
    end in [policies<sep>a<sep>operations<sep>o.xml] with [a] and [o]
    non-empty and free of separators; it returns none exactly when
    [isOperationLevelPolicy] is false. *)
Theorem extractOperationIdFromPath_grammar :
  forall p,
    (forall o,
       extractOperationIdFromPath p = Some o <->
       exists pre s1 a s2 s3,
         p = pre ++ js "policies" ++ s1 :: a ++ s2 :: js "operations" ++ s3 :: o ++ js ".xml"
         /\ is_sep s1 = true /\ is_sep s2 = true /\ is_sep s3 = true
         /\ a <> [] /\ sep_free a /\ o <> [] /\ sep_free o)
    /\ (extractOperationIdFromPath p = None <-> isOperationLevelPolicy p = false).
Proof.
  intros p. split.
  - intros o. unfold extractOperationIdFromPath. split.
    + destruct (search operationId_re p) as [m|] eqn:E; [|discriminate].
      intros H. injection H as <-.
      apply search_Some in E as (pre & suf & -> & E & _).
      apply exec_operationId_sound in E as (o & (s1 & a & s2 & s3 & -> & H) & ->).
      exists pre, s1, a, s2, s3. auto.
    + intros (pre & s1 & a & s2 & s3 & -> & H).
      set (suf := js "policies" ++ s1 :: a ++ s2 :: js "operations" ++ s3 :: o ++ js ".xml").
      assert (Hat : OperationIdAt suf o) by (exists s1, a, s2, s3; auto).
      destruct (proj2 (search_matches operationId_re (pre ++ suf))) as [r Hr].
      { exists pre, suf. split; [reflexivity|]. exact (matches_operationId Hat). }
      rewrite Hr. apply search_Some in Hr as (pre' & suf' & E & Hr & _).
      apply exec_operationId_sound in Hr as (o' & Hat' & ->).
      cbn. f_equal. symmetry. exact (OperationIdAt_last _ _ E Hat Hat').
  - unfold extractOperationIdFromPath.
    destruct (isOperationLevelPolicy p) eqn:Hop.
    + apply isOperationLevelPolicy_shape in Hop
        as (pre & s1 & a & s2 & s3 & o & -> & Hs1 & Hs2 & Hs3 & Ha & Hq & Ho & Hqo).
      set (suf := js "policies" ++ s1 :: a ++ s2 :: js "operations" ++ s3 :: o ++ js ".xml").
      destruct (proj2 (search_matches operationId_re (pre ++ suf))) as [r Hr].
      { exists pre, suf. split; [reflexivity|].
        apply (@matches_operationId suf o). exists s1, a, s2, s3. auto 10. }
      fold suf. rewrite Hr. split; discriminate.
    + split; [reflexivity|]. intros _.
      destruct (search operationId_re p) as [m|] eqn:E; [|reflexivity].
      apply search_Some in E as (pre & suf & -> & E & _).
      apply exec_operationId_sound in E
        as (o & (s1 & a & s2 & s3 & -> & Hs1 & Hs2 & Hs3 & Ha & Hq & Ho & Hqo) & _).
      assert (G : isOperationLevelPolicy
                    (pre ++ js "policies" ++ s1 :: a ++ s2 :: js "operations"
                         ++ s3 :: o ++ js ".xml") = true).
      { apply isOperationLevelPolicy_shape. exists pre, s1, a, s2, s3, o. auto 10. }
      congruence.
Qed.

Module CanonicalPaths.

Lemma extractApiId_None_search p :
  extractApiIdFromPath p = None -> search apiId_re p = None.
Proof. unfold extractApiIdFromPath. now destruct (search apiId_re p). Qed.

Lemma no_apiId_no_shape p pre suf a :
  extractApiIdFromPath p = None -> p = pre ++ suf -> ~ ApiIdAt suf a.
Proof.
  intros H E Ha. apply extractApiId_None_search in H.
  rewrite search_None in H. specialize (H pre suf E).
  exact (proj1 (exec_apiId_None suf) H a Ha).
Qed.

Lemma api_path_not_operation s1 a s2 :
  is_sep s1 = true -> is_sep s2 = true -> sep_free a ->
  ~ OperationShape (js "policies" ++ s1 :: a ++ s2 :: js "api.xml").
Proof.
  intros Hs1 Hs2 Hq (pre & t1 & b & t2 & t3 & o & E & Ht1 & Ht2 & Ht3 & Hb & Hqb & Ho & Hqo).
  assert (E1 : (js "policies" ++ s1 :: a) ++ s2 :: js "api.xml"
               = (pre ++ js "policies" ++ t1 :: b ++ t2 :: js "operations")
                 ++ t3 :: (o ++ js ".xml")).
  { flatten_app. exact E. }
  apply last_sep_unique in E1 as (E1 & _ & _); auto using sep_free_literal_api_xml.
  2:{ apply sep_free_app. split; [assumption|reflexivity]. }
  assert (E2 : js "policies" ++ s1 :: a
               = (pre ++ js "policies" ++ t1 :: b) ++ t2 :: js "operations").
  { rewrite E1. flatten_app. reflexivity. }
  apply last_sep_unique in E2 as (E2 & _ & _); auto using sep_free_literal_operations.
  apply (@sep_not_in_sep_free (pre ++ js "policies") t1 b Ht1).
  assert (G : (pre ++ js "policies") ++ t1 :: b = js "policies")
    by (flatten_app; symmetry; exact E2).
  rewrite G. reflexivity.
Qed.

Lemma operation_path_api s1 a s2 s3 o :
  is_sep s3 = true -> sep_free o ->
  ApiShape (js "policies" ++ s1 :: a ++ s2 :: js "operations" ++ s3 :: o ++ js ".xml") ->
  o = js "api".
Proof.
  intros Hs3 Hqo (pre & t1 & b & t2 & E & Ht1 & Ht2 & Hb & Hqb).
  assert (E1 : (js "policies" ++ s1 :: a ++ s2 :: js "operations") ++ s3 :: (o ++ js ".xml")
               = (pre ++ js "policies" ++ t1 :: b) ++ t2 :: (js "api" ++ js ".xml")).
  { flatten_app. exact E. }
  apply last_sep_unique in E1 as (_ & _ & E1); auto.
  - now apply app_inv_tail in E1.
  - apply sep_free_app. split; [assumption|reflexivity].
  - reflexivity.
Qed.

End CanonicalPaths.
Import CanonicalPaths.

(** X2. On a path [policies<sep>a<sep>api.xml], with [a] non-empty and free of
    separators, [extractApiIdFromPath] returns [a], [isApiLevelPolicy] is true,
    [isOperationLevelPolicy] is false and [extractOperationIdFromPath] returns
    none. *)
Theorem api_level_path :
  forall s1 a s2,
    is_sep s1 = true -> is_sep s2 = true -> a <> [] -> sep_free a ->
    let p := js "policies" ++ s1 :: a ++ s2 :: js "api.xml" in
    extractApiIdFromPath p = Some a
    /\ isApiLevelPolicy p = true
    /\ isOperationLevelPolicy p = false
    /\ extractOperationIdFromPath p = None.
Proof.
  intros s1 a s2 Hs1 Hs2 Ha Hq p.
  assert (Hop : isOperationLevelPolicy p = false).
  { destruct (isOperationLevelPolicy p) eqn:E; [|reflexivity].
    apply isOperationLevelPolicy_shape in E. now apply api_path_not_operation in E. }
  split; [|split; [|split; [exact Hop|]]].
  - apply ApiIdAt_found. exists s1, s2, (js "api.xml"). auto.
  - apply isApiLevelPolicy_shape. exists [], s1, a, s2. auto.
  - unfold extractOperationIdFromPath.
    destruct (search operationId_re p) as [m|] eqn:E; [|reflexivity].
    apply search_Some in E as (pre & suf & E & Hm & _).
    apply exec_operationId_sound in Hm
      as (o & (t1 & b & t2 & t3 & -> & H1 & H2 & H3 & H4 & H5 & H6 & H7) & _).
    assert (G : isOperationLevelPolicy p = true).
    { apply isOperationLevelPolicy_shape. exists pre, t1, b, t2, t3, o. auto 10. }
    congruence.
Qed.

Lemma api_level_path_witness :
  extractApiIdFromPath (js "policies/my-api/api.xml") = Some (js "my-api")
  /\ isApiLevelPolicy (js "policies/my-api/api.xml") = true
  /\ isOperationLevelPolicy (js "policies/my-api/api.xml") = false
  /\ extractOperationIdFromPath (js "policies/my-api/api.xml") = None.
Proof.
  apply (@api_level_path 47%N (js "my-api") 47%N);
    [reflexivity | reflexivity | discriminate | reflexivity].
Defined.

(** X3. On a path [policies<sep>a<sep>operations<sep>o.xml], with [a] and [o]
    non-empty and free of separators, [extractApiIdFromPath] returns [a],
    [extractOperationIdFromPath] returns [o], [isOperationLevelPolicy] is
    true, and [isApiLevelPolicy] can be true only when [o] is [api]. *)
Theorem operation_level_path :
  forall s1 a s2 s3 o,
    is_sep s1 = true -> is_sep s2 = true -> is_sep s3 = true ->
    a <> [] -> sep_free a -> o <> [] -> sep_free o ->
    let p := js "policies" ++ s1 :: a ++ s2 :: js "operations" ++ s3 :: o ++ js ".xml" in
    extractApiIdFromPath p = Some a
    /\ extractOperationIdFromPath p = Some o
    /\ isOperationLevelPolicy p = true
    /\ (isApiLevelPolicy p = true -> o = js "api").
Proof.
  intros s1 a s2 s3 o Hs1 Hs2 Hs3 Ha Hq Ho Hqo p.
  assert (Hat : OperationIdAt p o) by (exists s1, a, s2, s3; auto 10).
  split; [|split; [|split]].
  - apply ApiIdAt_found. exists s1, s2, (js "operations" ++ s3 :: o ++ js ".xml"). auto.
  - unfold extractOperationIdFromPath.
    destruct (proj2 (search_matches operationId_re p)) as [r Hr].
    { exists [], p. split; [reflexivity|]. exact (matches_operationId Hat). }
    rewrite Hr. apply search_Some in Hr as (pre' & suf' & E & Hr & _).
    apply exec_operationId_sound in Hr as (o' & Hat' & ->).
    cbn. f_equal. symmetry. exact (@OperationIdAt_last [] p o pre' suf' o' E Hat Hat').
  - apply isOperationLevelPolicy_shape. exists [], s1, a, s2, s3, o. auto 10.
  - intros H. apply isApiLevelPolicy_shape in H. exact (@operation_path_api s1 a s2 s3 o Hs3 Hqo H).
Qed.

Lemma operation_level_path_witness :
  extractApiIdFromPath (js "policies/my-api/operations/get-users.xml") = Some (js "my-api")
  /\ extractOperationIdFromPath (js "policies/my-api/operations/get-users.xml")
     = Some (js "get-users")
  /\ isOperationLevelPolicy (js "policies/my-api/operations/get-users.xml") = true
  /\ (isApiLevelPolicy (js "policies/my-api/operations/get-users.xml") = true ->
      js "get-users" = js "api").
Proof.
  apply (@operation_level_path 47%N (js "my-api") 47%N 47%N (js "get-users"));
    [reflexivity | reflexivity | reflexivity | discriminate | reflexivity
    | discriminate | reflexivity].
Defined.

(** X4. A path from which [extractApiIdFromPath] derives no apiId is accepted
    by neither classifier: the convention strategy skips no API-level or
    operation-level file for want of an apiId. *)
Theorem no_apiId_unclassified :
  forall p,
    extractApiIdFromPath p = None ->
    isApiLevelPolicy p = false /\ isOperationLevelPolicy p = false.
Proof.
  intros p H. split.
  - destruct (isApiLevelPolicy p) eqn:E; [|reflexivity].
    apply isApiLevelPolicy_shape in E as (pre & s1 & a & s2 & E & Hs1 & Hs2 & Ha & Hq).
    elim (@no_apiId_no_shape p pre (js "policies" ++ s1 :: a ++ s2 :: js "api.xml") a H E).
    exists s1, s2, (js "api.xml"). auto.
  - destruct (isOperationLevelPolicy p) eqn:E; [|reflexivity].
    apply isOperationLevelPolicy_shape in E
      as (pre & s1 & a & s2 & s3 & o & E & Hs1 & Hs2 & Hs3 & Ha & Hq & Ho & Hqo).
    elim (@no_apiId_no_shape p pre
            (js "policies" ++ s1 :: a ++ s2 :: js "operations" ++ s3 :: o ++ js ".xml") a H E).
    exists s1, s2, (js "operations" ++ s3 :: o ++ js ".xml"). auto.
Qed.

Lemma no_apiId_unclassified_witness :
  extractApiIdFromPath (js "policies//api.xml") = None
  /\ isApiLevelPolicy (js "policies//api.xml") = false
  /\ isOperationLevelPolicy (js "policies//api.xml") = false.
Proof.
  split; [reflexivity|]. exact (@no_apiId_unclassified (js "policies//api.xml") eq_refl).
Defined.

(* ===================================================================== *)
(** * Further properties of utils.ts *)
(* ===================================================================== *)

Module TrimFacts.

Lemma trimStart_whitespace l x :
  forallb is_whitespace l = true -> trimStart (l ++ x) = trimStart x.
Proof.
  induction l as [|c l IH]; simpl; [reflexivity|].
  intros H. apply andb_true_iff in H as [-> H]. auto.
Qed.

Lemma trimStart_all_whitespace l : forallb is_whitespace l = true -> trimStart l = [].
Proof. intros H. rewrite <- (app_nil_r l). now rewrite trimStart_whitespace. Qed.

Lemma trimStart_nil_whitespace c : trimStart c = [] -> forallb is_whitespace c = true.
Proof.
  induction c as [|x c IH]; simpl; [reflexivity|].
  destruct (is_whitespace x); [exact IH|discriminate].
Qed.

Lemma trimStart_app c r : trimStart c <> [] -> trimStart (c ++ r) = trimStart c ++ r.
Proof.
  induction c as [|x c IH]; simpl; [congruence|].
  destruct (is_whitespace x); auto.
Qed.

Lemma trimEnd_whitespace t r :
  forallb is_whitespace r = true -> trimEnd (t ++ r) = trimEnd t.
Proof.
  intros H. unfold trimEnd. rewrite rev_app_distr, trimStart_whitespace; [reflexivity|].
  rewrite forallb_forall in *. intros x Hx. apply H. now apply in_rev.
Qed.

Lemma trim_surrounded l c r :
  forallb is_whitespace l = true -> forallb is_whitespace r = true ->
  trim (l ++ c ++ r) = trim c.
Proof.
  intros Hl Hr. unfold trim. rewrite (@trimStart_whitespace l (c ++ r) Hl).
  destruct (trimStart c) as [|x t] eqn:E.
  - apply trimStart_nil_whitespace in E.
    rewrite (@trimStart_whitespace c r E), (@trimStart_all_whitespace r Hr). reflexivity.
  - rewrite trimStart_app by congruence. rewrite E. now apply trimEnd_whitespace.
Qed.

Lemma trim_nil_of_nil c : c = [] -> trim c = [].
Proof. now intros ->. Qed.

(** What [validateXmlContent] computes, as a function of the trimmed text. *)
Lemma validateXmlContent_trim c :
  validateXmlContent c
  = startsWith (js "<") (trim c) && endsWith (js ">") (trim c)
    && includes (js "<policies>") (trim c) && includes (js "</policies>") (trim c).
Proof.
  unfold validateXmlContent. destruct (eqb c []) eqn:E.
  - apply eqb_eq in E. subst c. reflexivity.
  - cbn [orb]. destruct (trim c) as [|x t] eqn:Et; [reflexivity|].
    cbn [List.length Nat.eqb].
    destruct (startsWith (js "<") (x :: t)); [|reflexivity].
    destruct (endsWith (js ">") (x :: t)); [|reflexivity].
    destruct (includes (js "<policies>") (x :: t)); [|reflexivity].
    now destruct (includes (js "</policies>") (x :: t)).
Qed.

End TrimFacts.
Import TrimFacts.

(** X5. [validateXmlContent] does not see whitespace around the content:
    adding whitespace before and after a text changes nothing of its verdict. *)
Theorem validateXmlContent_ignores_surrounding_whitespace :
  forall l c r,
    forallb is_whitespace l = true -> forallb is_whitespace r = true ->
    validateXmlContent (l ++ c ++ r) = validateXmlContent c.
Proof.
  intros l c r Hl Hr. rewrite !validateXmlContent_trim. now rewrite (@trim_surrounded l c r Hl Hr).
Qed.

Lemma validateXmlContent_ignores_surrounding_whitespace_witness :
  validateXmlContent ([10; 32; 32]%N ++ js "<policies><inbound/></policies>" ++ [13; 10; 9]%N)
  = validateXmlContent (js "<policies><inbound/></policies>").
Proof.
  exact (@validateXmlContent_ignores_surrounding_whitespace [10; 32; 32]%N
           (js "<policies><inbound/></policies>") [13; 10; 9]%N eq_refl eq_refl).
Defined.

Module InputFacts.

Lemma truthy_string_not_empty o s : truthy_string o = Some s -> s <> [].
Proof.
  destruct o as [t|]; [|discriminate]. simpl. destruct (eqb t []) eqn:E; [discriminate|].
  intros H. injection H as <-. now apply eqb_neq.
Qed.

Lemma truthy_string_never_empty o : truthy_string o <> Some [].
Proof. intros H. now apply truthy_string_not_empty in H. Qed.

End InputFacts.
Import InputFacts.

(** X6. A configuration returned by [parseInputs] has a non-empty
    subscription id, resource group and service name, and its manifest path is
    absent or non-empty: an empty [policy_manifest_path] input is no path. *)
Theorem parseInputs_postcondition :
  forall env h config,
    completion (parseInputs env tt h) = Ok config ->
    subscriptionId config <> []
    /\ resourceGroupName config <> []
    /\ serviceName config <> []
    /\ policyManifestPath config <> Some [].
Proof.
  intros env h config. unfold parseInputs, core_getInput, core_info.
  rewrite run_bind. unfold interact at 1.
  destruct (env_getInput env h (js "subscription_id") true) as [sub|v]; [|discriminate].
  cbn [completion locals events fst snd]. rewrite run_bind. unfold interact at 1.
  match goal with |- context [env_getInput env ?hh (js "resource_group") true] =>
    destruct (env_getInput env hh (js "resource_group") true) as [rgn|v] end; [|discriminate].
  cbn [completion locals events fst snd]. rewrite run_bind. unfold interact at 1.
  match goal with |- context [env_getInput env ?hh (js "apim_name") true] =>
    destruct (env_getInput env hh (js "apim_name") true) as [svn|v] end; [|discriminate].
  cbn [completion locals events fst snd]. rewrite run_bind. unfold interact at 1.
  match goal with |- context [env_getInput env ?hh (js "policy_manifest_path") false] =>
    destruct (env_getInput env hh (js "policy_manifest_path") false) as [mp|v] end;
    [|discriminate].
  cbn [completion locals events fst snd].
  destruct (eqb sub []) eqn:E1; [discriminate|].
  destruct (eqb rgn []) eqn:E2; [discriminate|].
  destruct (eqb svn []) eqn:E3; [discriminate|].
  assert (R : forall (m : M unit unit) s hh c,
            completion (bind m (fun _ => ret c) s hh) = Ok config -> c = config).
  { intros m s hh c. rewrite run_bind. destruct (m s hh) as [[[u|v] s1] e1]; cbn; congruence. }
  repeat (rewrite run_bind; cbn [emit completion locals events fst snd]).
  intros H. apply R in H. subst config. cbn.
  apply eqb_neq in E1, E2, E3. repeat split; auto. exact (@truthy_string_never_empty (Some mp)).
Qed.

Lemma parseInputs_postcondition_witness :
  completion (parseInputs Sample.env tt [])
  = Ok {| subscriptionId := js "id"; resourceGroupName := js "id"; serviceName := js "id";
          policyManifestPath := None |}
  /\ js "id" <> [].
Proof.
  split; [reflexivity|].
  exact (proj1 (@parseInputs_postcondition Sample.env []
                  {| subscriptionId := js "id"; resourceGroupName := js "id";
                     serviceName := js "id"; policyManifestPath := None |} eq_refl)).
Defined.

(** X7. [parseInputs] checks the required inputs in the order
    [subscription_id], [resource_group], [apim_name], after having read all
    four: when the inputs are answered with the values [inputs], it throws the
    error of the first one that is empty, and otherwise returns them, an empty
    manifest path being absent. *)
Theorem parseInputs_reports_first_missing :
  forall env (inputs : jsstring -> jsstring) h,
    (forall h' name required, env_getInput env h' name required = Ok (inputs name)) ->
    completion (parseInputs env tt h)
    = if eqb (inputs (js "subscription_id")) [] then
        Throw (Js.new_Error (js "subscription_id input is required"))
      else if eqb (inputs (js "resource_group")) [] then
        Throw (Js.new_Error (js "resource_group input is required"))
      else if eqb (inputs (js "apim_name")) [] then
        Throw (Js.new_Error (js "apim_name input is required"))
      else
        Ok {| subscriptionId := inputs (js "subscription_id");
              resourceGroupName := inputs (js "resource_group");
              serviceName := inputs (js "apim_name");
              policyManifestPath :=
                truthy_string (Some (inputs (js "policy_manifest_path"))) |}.
Proof.
  intros env inputs h H. unfold parseInputs, core_getInput, core_info.
  repeat (rewrite run_bind; unfold interact at 1; rewrite H;
          cbn [completion locals events fst snd]).
  destruct (eqb (inputs (js "subscription_id")) []); [reflexivity|].
  destruct (eqb (inputs (js "resource_group")) []); [reflexivity|].
  destruct (eqb (inputs (js "apim_name")) []); [reflexivity|].
  repeat (rewrite run_bind; cbn [emit completion locals events fst snd]).
  destruct (truthy_string (Some (inputs (js "policy_manifest_path")))); reflexivity.
Qed.

(** Inputs of which only [subscription_id] is supplied. *)
Definition only_subscription (name : jsstring) : jsstring :=
  if eqb name (js "subscription_id") then js "sub-id" else [].

Definition env_only_subscription : Env :=
  {| env_getInput := fun _ name _ => Ok (only_subscription name);
     env_glob := env_glob Sample.env;
     env_readFile := env_readFile Sample.env;
     env_parseYaml := env_parseYaml Sample.env;
     env_path_join := env_path_join Sample.env;
     env_path_resolve := env_path_resolve Sample.env;
     env_invalid_path := env_invalid_path Sample.env;
     env_object_to_string := env_object_to_string Sample.env |}.

Lemma parseInputs_reports_first_missing_witness :
  completion (parseInputs env_only_subscription tt [])
  = Throw (Js.new_Error (js "resource_group input is required")).
Proof.
  exact (@parseInputs_reports_first_missing env_only_subscription only_subscription []
           (fun _ _ _ => eq_refl)).
Defined.

(* ===================================================================== *)
(** * Further properties of the Azure client *)
(* ===================================================================== *)

(** The result a client method returns for [apiId] and [operationId]: it names
    them, and holds an etag and no error when [updated], an error and no etag
    otherwise. *)
Definition result_for (apiId : jsstring) (operationId : option jsstring)
    (r : PolicyUpdateResult) : Prop :=
  r_apiId r = apiId /\ r_operationId r = operationId
  /\ (if updated r then etag r <> None /\ error r = None
      else etag r = None /\ error r <> None).

Definition is_list_by_api (e : event) : bool :=
  match e with ListByApi _ _ _ _ _ => true | _ => false end.

Module ClientFacts2.

Lemma returns_try_catch {S A} (R : A -> Prop) (m : M S A) handler :
  returns R m -> (forall v, returns R (handler v)) -> returns R (try_catch m handler).
Proof.
  intros Hm Hh s h a. rewrite run_try_catch. specialize (Hm s h).
  destruct (m s h) as [[[x|v] s1] e1]; cbn in *; [apply Hm|apply Hh].
Qed.

Lemma returns_call {S S' A} (R : A -> Prop) (m : M S' A) s0 :
  returns R m -> returns R (@call S S' A m s0).
Proof. intros Hm s h a. rewrite run_call. cbn. apply Hm. Qed.

Lemma filter_none {A} (f : A -> bool) l : Forall (fun x => f x = false) l -> filter f l = [].
Proof. induction 1 as [|x l H _ IH]; simpl; [reflexivity|]. now rewrite H. Qed.

Ltac returns_step :=
  first
    [ apply returns_throw
    | apply returns_ret
    | apply returns_call
    | apply returns_try_catch; [|intros ?]
    | apply returns_bind with (R1 := fun _ => True); [apply returns_any|intros ? _]
    | match goal with
      | |- returns _ (if ?b then _ else _) => destruct b
      | |- returns _ (match ?x with _ => _ end) => destruct x
      end ].

Section WithClient.
Variable env : Env.
Variable sdk : Sdk.
Variable config : ApimConfig.

Lemma listOperations_total a : total (listOperations env sdk config a).
Proof.
  unfold listOperations. apply total_try_catch. intros v.
  apply total_bind; [apply total_emit|intros; apply total_ret].
Qed.

Lemma testConnection_total : total (testConnection env sdk config).
Proof.
  unfold testConnection. apply total_try_catch. intros v.
  apply total_bind; [apply total_emit|intros; apply total_ret].
Qed.

Lemma updateApiPolicy_total a c : total (updateApiPolicy env sdk config a c).
Proof.
  unfold updateApiPolicy. apply total_try_catch. intros v.
  apply total_bind; [apply total_emit|intros; apply total_ret].
Qed.

Lemma updateOperationPolicy_total a o c : total (updateOperationPolicy env sdk config a o c).
Proof.
  unfold updateOperationPolicy. apply total_try_catch. intros v.
  apply total_bind; [apply total_emit|intros; apply total_ret].
Qed.

Lemma listOperations_no_write a :
  emits (fun e => is_write e = false) (listOperations env sdk config a).
Proof. unfold listOperations, core_debug, core_warning. repeat emits_step. Qed.

Lemma listApis_no_operation_listing :
  emits (fun e => is_list_by_api e = false) (listApis env sdk config).
Proof. unfold listApis, core_debug, core_warning. repeat emits_step. Qed.

Lemma updateApiPolicy_result a c :
  returns (result_for a None) (updateApiPolicy env sdk config a c).
Proof.
  unfold updateApiPolicy, updateApiPolicyDirect, core_info, core_warning, core_error.
  repeat returns_step;
    cbv beta iota delta [result_for r_apiId r_operationId updated etag error];
    repeat split; congruence.
Qed.

Lemma updateOperationPolicy_result a o c :
  returns (result_for a (Some o)) (updateOperationPolicy env sdk config a o c).
Proof.
  unfold updateOperationPolicy, updateOperationPolicyDirect, core_info, core_warning,
    core_error.
  repeat returns_step;
    cbv beta iota delta [result_for r_apiId r_operationId updated etag error];
    repeat split; congruence.
Qed.

End WithClient.

End ClientFacts2.
Import ClientFacts2.

(** X8. No method of the client throws, whatever the SDK does: a failure of
    the SDK comes back as [false], as an empty list or as a result with
    [updated = false]. *)
Theorem client_never_throws :
  forall env sdk config,
    total (testConnection env sdk config)
    /\ total (listApis env sdk config)
    /\ (forall apiId, total (listOperations env sdk config apiId))
    /\ (forall apiId content, total (updateApiPolicy env sdk config apiId content))
    /\ (forall apiId operationId content,
          total (updateOperationPolicy env sdk config apiId operationId content)).
Proof.
  intros env sdk config. repeat split.
  - apply testConnection_total.
  - apply listApis_total.
  - intros a. apply listOperations_total.
  - intros a c. apply updateApiPolicy_total.
  - intros a o c. apply updateOperationPolicy_total.
Qed.

(** X9. Every result of [updateApiPolicy] and of [updateOperationPolicy] names
    the apiId (and operationId) it was called with, and holds an etag and no
    error when [updated] is true, an error and no etag when it is false. *)
Theorem update_results_well_formed :
  forall env sdk config h,
    (forall apiId content r,
       completion (updateApiPolicy env sdk config apiId content tt h) = Ok r ->
       result_for apiId None r)
    /\ (forall apiId operationId content r,
          completion (updateOperationPolicy env sdk config apiId operationId content tt h)
          = Ok r ->
          result_for apiId (Some operationId) r).
Proof.
  intros env sdk config h. split.
  - intros a c r. apply updateApiPolicy_result.
  - intros a o c r. apply updateOperationPolicy_result.
Qed.

Module GuardFacts.

Section WithClient.
Variable env : Env.
Variable sdk : Sdk.
Variable config : ApimConfig.

Let rg := resourceGroupName config.
Let svc := serviceName config.

(** What [updateApiPolicyDirect] does, by the answer of the SDK. *)
Lemma updateApiPolicyDirect_run a c h :
  updateApiPolicyDirect env sdk config a c tt h
  = match sdk_apiPolicy_createOrUpdate sdk h rg svc a (js "policy") c (js "xml") with
    | Ok eTag =>
        ((Ok {| r_apiId := a; r_operationId := None; updated := true;
                etag := Some (etag_or_empty eTag); error := None |}, tt),
         [ApiPolicyCreateOrUpdate rg svc a (js "policy") c (js "xml") (Ok eTag)])
    | Throw e =>
        ((Ok {| r_apiId := a; r_operationId := None; updated := false; etag := None;
                error := Some (direct_error_message e) |}, tt),
         [ApiPolicyCreateOrUpdate rg svc a (js "policy") c (js "xml") (Throw e);
          Log Error (js "Failed to update API policy for " ++ a ++ js ": "
                     ++ str env (direct_error_message e))])
    end.
Proof.
  unfold updateApiPolicyDirect. rewrite run_try_catch, run_bind. unfold interact at 1.
  fold rg svc.
  destruct (sdk_apiPolicy_createOrUpdate sdk h rg svc a (js "policy") c (js "xml"));
    reflexivity.
Qed.

Lemma updateOperationPolicyDirect_run a o c h :
  updateOperationPolicyDirect env sdk config a o c tt h
  = match sdk_apiOperationPolicy_createOrUpdate sdk h rg svc a o (js "policy") c (js "xml") with
    | Ok eTag =>
        ((Ok {| r_apiId := a; r_operationId := Some o; updated := true;
                etag := Some (etag_or_empty eTag); error := None |}, tt),
         [ApiOperationPolicyCreateOrUpdate rg svc a o (js "policy") c (js "xml") (Ok eTag)])
    | Throw e =>
        ((Ok {| r_apiId := a; r_operationId := Some o; updated := false; etag := None;
                error := Some (direct_error_message e) |}, tt),
         [ApiOperationPolicyCreateOrUpdate rg svc a o (js "policy") c (js "xml") (Throw e);
          Log Error (js "Failed to update operation policy for " ++ a ++ js "/" ++ o
                     ++ js ": " ++ str env (direct_error_message e))])
    end.
Proof.
  unfold updateOperationPolicyDirect. rewrite run_try_catch, run_bind. unfold interact at 1.
  fold rg svc.
  destruct (sdk_apiOperationPolicy_createOrUpdate sdk h rg svc a o (js "policy") c (js "xml"));
    reflexivity.
Qed.

(** [updateApiPolicy] when the API is listed: the listing, a log line, then the
    direct update. *)
Lemma updateApiPolicy_listed a c h apis :
  completion (listApis env sdk config tt h) = Ok apis ->
  array_includes apis a = true ->
  let h1 := h ++ events (listApis env sdk config tt h)
              ++ [Log Info (js "Updating API policy for: " ++ a)] in
  updateApiPolicy env sdk config a c tt h
  = ((completion (updateApiPolicyDirect env sdk config a c tt h1), tt),
     events (listApis env sdk config tt h)
     ++ Log Info (js "Updating API policy for: " ++ a)
        :: events (updateApiPolicyDirect env sdk config a c tt h1)).
Proof.
  intros Hl Hi h1. unfold updateApiPolicy. rewrite run_try_catch, run_bind, run_call.
  rewrite Hl. cbn [fst snd completion locals events]. rewrite Hi. cbn [negb].
  rewrite run_bind. cbn [core_info emit fst snd completion locals events]. rewrite run_call.
  rewrite <- app_assoc. fold h1. rewrite updateApiPolicyDirect_run.
  destruct (sdk_apiPolicy_createOrUpdate sdk h1 rg svc a (js "policy") c (js "xml"));
    reflexivity.
Qed.

(** [updateOperationPolicy] when the API is not listed. *)
Lemma updateOperationPolicy_api_missing a o c h apis :
  completion (listApis env sdk config tt h) = Ok apis ->
  array_includes apis a = false ->
  updateOperationPolicy env sdk config a o c tt h
  = ((Ok {| r_apiId := a; r_operationId := Some o; updated := false; etag := None;
            error := Some (VString (js "API '" ++ a ++ js "' not found. Available APIs: "
                                    ++ join (js ", ") apis)) |}, tt),
     events (listApis env sdk config tt h)
     ++ [Log Warning (js "API '" ++ a
                      ++ js "' does not exist in APIM service. Available APIs: "
                      ++ join (js ", ") apis)]).
Proof.
  intros Hl Hi. unfold updateOperationPolicy. rewrite run_try_catch, run_bind, run_call.
  rewrite Hl. cbn [fst snd completion locals events]. rewrite Hi. reflexivity.
Qed.

(** [updateOperationPolicy] when the API is listed. *)
Lemma updateOperationPolicy_api_listed a o c h apis operations :
  completion (listApis env sdk config tt h) = Ok apis ->
  array_includes apis a = true ->
  let h1 := h ++ events (listApis env sdk config tt h) in
  completion (listOperations env sdk config a tt h1) = Ok operations ->
  let e1 := events (listApis env sdk config tt h)
            ++ events (listOperations env sdk config a tt h1) in
  updateOperationPolicy env sdk config a o c tt h
  = if array_includes operations o then
      let info := Log Info (js "Updating operation policy for: " ++ a ++ js "/" ++ o) in
      let h2 := h ++ e1 ++ [info] in
      ((completion (updateOperationPolicyDirect env sdk config a o c tt h2), tt),
       e1 ++ info :: events (updateOperationPolicyDirect env sdk config a o c tt h2))
    else
      ((Ok {| r_apiId := a; r_operationId := Some o; updated := false; etag := None;
              error := Some (VString (js "Operation '" ++ o ++ js "' not found in API '" ++ a
                                      ++ js "'. Available operations: "
                                      ++ join (js ", ") operations)) |}, tt),
       e1 ++ [Log Warning (js "Operation '" ++ o ++ js "' does not exist in API '" ++ a
                           ++ js "'. Available operations: "
                           ++ join (js ", ") operations)]).
Proof.
  intros Hl Hi h1 Ho e1. unfold updateOperationPolicy.
  rewrite run_try_catch, run_bind, run_call.
  rewrite Hl. cbn [fst snd completion locals events]. rewrite Hi. cbn [negb].
  rewrite run_bind, run_call. fold h1. rewrite Ho.
  cbn [fst snd completion locals events].
  destruct (array_includes operations o); cbn [negb].
  - rewrite run_bind. cbn [core_info emit fst snd completion locals events]. rewrite run_call.
    cbn zeta. unfold e1.
    replace ((h1 ++ events (listOperations env sdk config a tt h1))
             ++ [Log Info (js "Updating operation policy for: " ++ a ++ js "/" ++ o)])
      with (h ++ (events (listApis env sdk config tt h)
                  ++ events (listOperations env sdk config a tt h1))
              ++ [Log Info (js "Updating operation policy for: " ++ a ++ js "/" ++ o)])
      by (unfold h1; now rewrite <- !app_assoc).
    rewrite updateOperationPolicyDirect_run.
    match goal with |- context [sdk_apiOperationPolicy_createOrUpdate sdk ?hh] =>
      destruct (sdk_apiOperationPolicy_createOrUpdate sdk hh rg svc a o (js "policy") c
                  (js "xml")) end;
      cbn [fst snd completion locals events]; rewrite <- !app_assoc; reflexivity.
  - cbn. unfold e1. now rewrite <- !app_assoc.
Qed.

End WithClient.

End GuardFacts.
Import GuardFacts.

(** X10. When the list of [listApis] lacks [apiId], [updateOperationPolicy]
    returns a result with [updated = false] whose error names the API and the
    available ones; it neither lists the operations nor writes. *)
Theorem updateOperationPolicy_api_guard :
  forall env sdk config apiId operationId content h apis,
    completion (listApis env sdk config tt h) = Ok apis ->
    array_includes apis apiId = false ->
    let out := updateOperationPolicy env sdk config apiId operationId content tt h in
    completion out
    = Ok {| r_apiId := apiId; r_operationId := Some operationId; updated := false;
            etag := None;
            error := Some (VString (js "API '" ++ apiId ++ js "' not found. Available APIs: "
                                    ++ join (js ", ") apis)) |}
    /\ Forall (fun e => is_write e = false /\ is_list_by_api e = false) (events out).
Proof.
  intros env sdk config a o c h apis Hl Hi out. unfold out.
  rewrite (@updateOperationPolicy_api_missing env sdk config a o c h apis Hl Hi).
  cbn [completion events fst snd]. split; [reflexivity|].
  apply Forall_app. split; [|repeat constructor].
  generalize (listApis_no_write env sdk config tt h)
             (listApis_no_operation_listing env sdk config tt h).
  rewrite !Forall_forall. intros H1 H2 e He. split; auto.
Qed.

Lemma updateOperationPolicy_api_guard_witness :
  completion (updateOperationPolicy Sample.env Sample.sdk Sample.config (js "missing")
                (js "op") (js "<p/>") tt [])
  = Ok {| r_apiId := js "missing"; r_operationId := Some (js "op"); updated := false;
          etag := None;
          error := Some (VString (js "API 'missing' not found. Available APIs: other-api")) |}.
Proof.
  exact (proj1 (@updateOperationPolicy_api_guard Sample.env Sample.sdk Sample.config
                  (js "missing") (js "op") (js "<p/>") [] [js "other-api"] eq_refl eq_refl)).
Defined.

(** X11. When the API is listed and the list of [listOperations] lacks
    [operationId], [updateOperationPolicy] returns a result with
    [updated = false] whose error names the operation, the API and the
    available operations, and it does not write. *)
Theorem updateOperationPolicy_operation_guard :
  forall env sdk config apiId operationId content h apis operations,
    completion (listApis env sdk config tt h) = Ok apis ->
    array_includes apis apiId = true ->
    completion (listOperations env sdk config apiId tt
                  (h ++ events (listApis env sdk config tt h))) = Ok operations ->
    array_includes operations operationId = false ->
    let out := updateOperationPolicy env sdk config apiId operationId content tt h in
    completion out
    = Ok {| r_apiId := apiId; r_operationId := Some operationId; updated := false;
            etag := None;
            error := Some (VString (js "Operation '" ++ operationId
                                    ++ js "' not found in API '" ++ apiId
                                    ++ js "'. Available operations: "
                                    ++ join (js ", ") operations)) |}
    /\ Forall (fun e => is_write e = false) (events out).
Proof.
  intros env sdk config a o c h apis ops Hl Hi Ho Hn out. unfold out.
  rewrite (@updateOperationPolicy_api_listed env sdk config a o c h apis ops Hl Hi Ho).
  rewrite Hn. cbn [completion events fst snd]. split; [reflexivity|].
  rewrite !Forall_app. repeat split.
  - apply listApis_no_write.
  - apply listOperations_no_write.
  - repeat constructor.
Qed.

Lemma updateOperationPolicy_operation_guard_witness :
  completion (updateOperationPolicy Sample.env Sample.sdk Sample.config (js "other-api")
                (js "missing") (js "<p/>") tt [])
  = Ok {| r_apiId := js "other-api"; r_operationId := Some (js "missing"); updated := false;
          etag := None;
          error := Some (VString (js "Operation 'missing' not found in API 'other-api'. Available operations: ")) |}.
Proof.
  exact (proj1 (@updateOperationPolicy_operation_guard Sample.env Sample.sdk Sample.config
                  (js "other-api") (js "missing") (js "<p/>") [] [js "other-api"] []
                  eq_refl eq_refl eq_refl eq_refl)).
Defined.

(** X12. When the API is listed, [updateApiPolicy] writes exactly once: it
    calls [apiPolicy.createOrUpdate] for that API with the policy id
    [policy], the content unchanged and the format [xml]; the result is
    [updated] exactly when the write returns, and its etag is then the eTag of
    the answer, or the empty string when the answer has none. *)
Theorem updateApiPolicy_writes_once :
  forall env sdk config apiId content h apis,
    completion (listApis env sdk config tt h) = Ok apis ->
    array_includes apis apiId = true ->
    let out := updateApiPolicy env sdk config apiId content tt h in
    exists answer,
      filter is_write (events out)
      = [ApiPolicyCreateOrUpdate (resourceGroupName config) (serviceName config) apiId
           (js "policy") content (js "xml") answer]
      /\ match answer with
         | Ok eTag =>
             completion out
             = Ok {| r_apiId := apiId; r_operationId := None; updated := true;
                     etag := Some (match eTag with Some t => t | None => [] end);
                     error := None |}
         | Throw _ => exists r, completion out = Ok r /\ updated r = false
         end.
Proof.
  intros env sdk config a c h apis Hl Hi out. unfold out.
  rewrite (@updateApiPolicy_listed env sdk config a c h apis Hl Hi). cbn zeta.
  rewrite updateApiPolicyDirect_run.
  match goal with |- context [sdk_apiPolicy_createOrUpdate sdk ?hh ?r ?s a ?p c ?f] =>
    exists (sdk_apiPolicy_createOrUpdate sdk hh r s a p c f);
    destruct (sdk_apiPolicy_createOrUpdate sdk hh r s a p c f) as [eTag|e]
  end; cbn [completion events fst snd].
  - split; [|reflexivity]. rewrite filter_app.
    rewrite (filter_none is_write (listApis_no_write env sdk config tt h)). reflexivity.
  - split; [|eexists; split; reflexivity]. rewrite filter_app.
    rewrite (filter_none is_write (listApis_no_write env sdk config tt h)). reflexivity.
Qed.

Lemma updateApiPolicy_writes_once_witness :
  exists answer,
    filter is_write
      (events (updateApiPolicy Sample.env Sample.failing_sdk Sample.config (js "test-api")
                 (js "<policies></policies>") tt []))
    = [ApiPolicyCreateOrUpdate (js "rg") (js "apim") (js "test-api") (js "policy")
         (js "<policies></policies>") (js "xml") answer].
Proof.
  destruct (@updateApiPolicy_writes_once Sample.env Sample.failing_sdk Sample.config
              (js "test-api") (js "<policies></policies>") [] [js "test-api"]
              eq_refl eq_refl) as [answer [H _]].
  exists answer. exact H.
Defined.

(** X13. When the API and the operation are listed, [updateOperationPolicy]
    writes exactly once: it calls [apiOperationPolicy.createOrUpdate] for that
    API and operation with the policy id [policy], the content unchanged and
    the format [xml]; the result is [updated] exactly when the write returns. *)
Theorem updateOperationPolicy_writes_once :
  forall env sdk config apiId operationId content h apis operations,
    completion (listApis env sdk config tt h) = Ok apis ->
    array_includes apis apiId = true ->
    completion (listOperations env sdk config apiId tt
                  (h ++ events (listApis env sdk config tt h))) = Ok operations ->
    array_includes operations operationId = true ->
    let out := updateOperationPolicy env sdk config apiId operationId content tt h in
    exists answer,
      filter is_write (events out)
      = [ApiOperationPolicyCreateOrUpdate (resourceGroupName config) (serviceName config)
           apiId operationId (js "policy") content (js "xml") answer]
      /\ match answer with
         | Ok eTag =>
             completion out
             = Ok {| r_apiId := apiId; r_operationId := Some operationId; updated := true;
                     etag := Some (match eTag with Some t => t | None => [] end);
                     error := None |}
         | Throw _ => exists r, completion out = Ok r /\ updated r = false
         end.
Proof.
  intros env sdk config a o c h apis ops Hl Hi Ho Hio out. unfold out.
  rewrite (@updateOperationPolicy_api_listed env sdk config a o c h apis ops Hl Hi Ho).
  rewrite Hio. cbn zeta. rewrite updateOperationPolicyDirect_run.
  match goal with
  |- context [sdk_apiOperationPolicy_createOrUpdate sdk ?hh ?r ?s a o ?p c ?f] =>
    exists (sdk_apiOperationPolicy_createOrUpdate sdk hh r s a o p c f);
    destruct (sdk_apiOperationPolicy_createOrUpdate sdk hh r s a o p c f) as [eTag|e]
  end; cbn [completion events fst snd].
  - split; [|reflexivity]. rewrite !filter_app.
    rewrite (filter_none is_write (listApis_no_write env sdk config tt h)).
    rewrite (filter_none is_write (listOperations_no_write env sdk config a tt _)).
    reflexivity.
  - split; [|eexists; split; reflexivity]. rewrite !filter_app.
    rewrite (filter_none is_write (listApis_no_write env sdk config tt h)).
    rewrite (filter_none is_write (listOperations_no_write env sdk config a tt _)).
    reflexivity.
Qed.

Lemma updateOperationPolicy_writes_once_witness :
  exists answer,
    filter is_write
      (events (updateOperationPolicy Sample.env Replay.sdk_healthy Sample.config
                 (js "test-api") (js "test-op") (js "<policies></policies>") tt []))
    = [ApiOperationPolicyCreateOrUpdate (js "rg") (js "apim") (js "test-api") (js "test-op")
         (js "policy") (js "<policies></policies>") (js "xml") answer].
Proof.
  destruct (@updateOperationPolicy_writes_once Sample.env Replay.sdk_healthy Sample.config
              (js "test-api") (js "test-op") (js "<policies></policies>") []
              [js "test-api"; js "other-api"] [js "test-op"]
              eq_refl eq_refl eq_refl eq_refl) as [answer [H _]].
  exists answer. exact H.
Defined.

(** X14. When the operation-level write throws [e], the direct update returns
    a result with [updated = false] whose error is, for an [Error], chosen by
    the chain of the API-level update, and for any other value the constant
    ['Unknown error']. *)
Theorem operation_write_failure_message :
  forall env sdk config apiId operationId content h e,
    sdk_apiOperationPolicy_createOrUpdate sdk h (resourceGroupName config)
      (serviceName config) apiId operationId (js "policy") content (js "xml") = Throw e ->
    completion (updateOperationPolicyDirect env sdk config apiId operationId content tt h)
    = Ok {| r_apiId := apiId; r_operationId := Some operationId; updated := false;
            etag := None;
            error := Some (if Js.instanceof_Error e then message_chain e
                           else VString (js "Unknown error")) |}.
Proof.
  intros env sdk config a o c h e H. rewrite updateOperationPolicyDirect_run, H.
  cbn [completion fst]. destruct (Js.instanceof_Error e) eqn:E.
  - now rewrite direct_error_message_chain.
  - now rewrite direct_error_message_other.
Qed.

Lemma operation_write_failure_message_witness :
  completion (updateOperationPolicyDirect Sample.env Sample.failing_sdk Sample.config
                (js "api1") (js "op1") (js "<p/>") tt [])
  = Ok {| r_apiId := js "api1"; r_operationId := Some (js "op1"); updated := false;
          etag := None; error := Some (VString (js "Inner Azure error")) |}.
Proof.
  exact (@operation_write_failure_message Sample.env Sample.failing_sdk Sample.config
           (js "api1") (js "op1") (js "<p/>") [] Sample.azure_error eq_refl).
Defined.


(* ===================================================================== *)
(** * Further properties of discovery *)
(* ===================================================================== *)

(** The paths read, in order. *)
Definition read_of (e : event) : option jsstring :=
  match e with ReadFile path _ => Some path | _ => None end.
Definition reads (evs : list event) : list jsstring := select read_of evs.

Definition glob_of (e : event) : option (jsstring * jsstring) :=
  match e with Glob pattern cwd _ => Some (pattern, cwd) | _ => None end.
Definition globs (evs : list event) : list (jsstring * jsstring) := select glob_of evs.

(** Events of the repository side: logs, glob and file reads. *)
Definition is_local (e : event) : bool :=
  match e with
  | Log _ _ | Glob _ _ _ | ReadFile _ _ => true
  | _ => false
  end.

(** What the convention strategy derives a document from: a file [f] of the
    listing, its apiId and, by the classifier that accepted it, its scope and
    operationId; [isApiLevelPolicy] is asked first. *)
Definition from_convention (env : Env) (baseDir : jsstring) (p : PolicyFile) : Prop :=
  exists f,
    filePath p = env_path_resolve env baseDir f
    /\ extractApiIdFromPath f = Some (apiId p)
    /\ apiId p <> []
    /\ validateXmlContent (content p) = true
    /\ match scope p with
       | ScopeApi => isApiLevelPolicy f = true /\ operationId p = None
       | ScopeOperation =>
           isApiLevelPolicy f = false /\ isOperationLevelPolicy f = true
           /\ extractOperationIdFromPath f = operationId p /\ operationId p <> Some []
       end.

Definition valid_document (p : PolicyFile) : Prop := validateXmlContent (content p) = true.

Module DiscoveryFacts2.

Lemma truthy_string_Some o s : truthy_string o = Some s -> o = Some s /\ s <> [].
Proof.
  destruct o as [t|]; [|discriminate]. simpl. destruct (eqb t []) eqn:E; [discriminate|].
  intros H. injection H as <-. split; [reflexivity|now apply eqb_neq].
Qed.

Lemma preserves_push {P : PolicyFile -> Prop} p :
  P p -> preserves (Forall P) (push_policy p).
Proof.
  intros Hp s h H. cbn. apply Forall_app. split; [exact H|]. now constructor.
Qed.

(** One step of a proof that a loop keeps a property of the array, with
    [solve_push] for the document pushed. *)
Ltac invariant_step solve_push :=
  first
    [ apply preserves_ret | apply preserves_emit | apply preserves_lift
    | apply preserves_interact | apply preserves_get | apply preserves_throw
    | apply preserves_call
    | apply preserves_push; solve_push
    | apply preserves_bind; [|intros ?]
    | apply preserves_try_catch; [|intros ?]
    | apply preserves_for_of; intros ?
    | match goal with
      | |- preserves _ (if ?b then _ else _) => destruct b eqn:?
      | |- preserves _ (match ?x with _ => _ end) => destruct x eqn:?
      end ].

Ltac solve_valid :=
  unfold valid_document; cbn [content];
  first [ assumption
        | match goal with H : negb _ = false |- _ => now apply negb_false_iff in H end ].

Ltac solve_convention :=
  idtac; match goal with
  | Hv : negb (validateXmlContent _) = false,
    Ha : truthy_string (extractApiIdFromPath ?f) = Some _ |- _ =>
      apply negb_false_iff in Hv; apply truthy_string_Some in Ha as [Ha ?];
      exists f; cbn [filePath apiId content scope operationId];
      repeat match goal with
             | H : truthy_string (extractOperationIdFromPath f) = Some _ |- _ =>
                 apply truthy_string_Some in H as [H ?]
             end;
      repeat split; try assumption; try congruence
  end.

Section WithEnv.
Variable env : Env.

Lemma default_structure_valid baseDir h :
  exists policies,
    completion (discoverPoliciesFromDefaultStructure env baseDir tt h) = Ok policies
    /\ Forall valid_document policies.
Proof.
  unfold discoverPoliciesFromDefaultStructure. apply call_returns.
  - apply total_bind; [|intros; apply total_get].
    apply total_try_catch. intros v. apply total_emit.
  - unfold_core. repeat invariant_step solve_valid.
  - apply returns_locals_bind. intros _. apply returns_locals_get.
  - constructor.
Qed.

Lemma manifest_valid manifestPath baseDir h :
  exists policies,
    completion (discoverPoliciesFromManifest env manifestPath baseDir tt h) = Ok policies
    /\ Forall valid_document policies.
Proof.
  unfold discoverPoliciesFromManifest. apply call_returns.
  - apply total_bind; [apply total_call, loadPolicyManifest_total|].
    intros [manifest|]; [|apply total_get].
    apply total_bind; [|intros; apply total_get].
    apply total_for_of. intros [apiId apiConfig].
    apply total_try_catch. intros v. apply total_emit.
  - unfold_core. repeat invariant_step solve_valid.
  - apply returns_locals_bind. intros [manifest|]; [|apply returns_locals_get].
    apply returns_locals_bind. intros _. apply returns_locals_get.
  - constructor.
Qed.

Lemma discoverPolicies_valid manifestPath baseDir h :
  exists policies,
    completion (discoverPolicies env manifestPath baseDir tt h) = Ok policies
    /\ Forall valid_document policies.
Proof.
  unfold discoverPolicies. destruct (truthy_string manifestPath) as [mp|].
  - rewrite run_bind. cbn. rewrite run_call. cbn. apply manifest_valid.
  - rewrite run_bind. cbn. rewrite run_call. cbn. apply default_structure_valid.
Qed.

Lemma default_structure_provenance baseDir h :
  exists policies,
    completion (discoverPoliciesFromDefaultStructure env baseDir tt h) = Ok policies
    /\ Forall (from_convention env baseDir) policies.
Proof.
  unfold discoverPoliciesFromDefaultStructure. apply call_returns.
  - apply total_bind; [|intros; apply total_get].
    apply total_try_catch. intros v. apply total_emit.
  - unfold_core. repeat invariant_step solve_convention.
  - apply returns_locals_bind. intros _. apply returns_locals_get.
  - constructor.
Qed.

End WithEnv.

End DiscoveryFacts2.
Import DiscoveryFacts2.

Module DiscoveryTraces.

(** A loop whose every round completes and selects [k x] of its events selects
    their concatenation. *)
Lemma for_of_select {S X B} (f : event -> option B) (k : X -> list B) (body : X -> M S unit) :
  (forall x s h, completion (body x s h) = Ok tt /\ select f (events (body x s h)) = k x) ->
  forall l s h,
    completion (for_of l body s h) = Ok tt
    /\ select f (events (for_of l body s h)) = flat_map k l.
Proof.
  intros Hb. induction l as [|x l IH]; intros s h; [split; reflexivity|].
  cbn [for_of flat_map]. rewrite run_bind.
  destruct (Hb x s h) as [Hc He].
  destruct (body x s h) as [[r s1] e1]. cbn in Hc, He. subst r.
  cbn [completion events fst snd]. destruct (IH s1 (h ++ e1)) as [H1 H2].
  split; [exact H1|]. now rewrite select_app, H2, He.
Qed.

Lemma flat_map_nil {X B} (l : list X) : flat_map (fun _ => @nil B) l = [].
Proof. induction l as [|x l IH]; simpl; [reflexivity|exact IH]. Qed.

Lemma flat_map_singleton {X B} (g : X -> B) l : flat_map (fun x => [g x]) l = map g l.
Proof. induction l as [|x l IH]; simpl; [reflexivity|]. now rewrite IH. Qed.

Section WithEnv.
Variable env : Env.

Lemma default_structure_listed baseDir h files :
  let pattern :=
    replace_backslashes (env_path_join env [baseDir; js "policies"; js "**"; js "*.xml"]) in
  env_glob env (h ++ [Log Debug (js "Searching for policy files with pattern: " ++ pattern)])
           pattern baseDir = Ok files ->
  let out := discoverPoliciesFromDefaultStructure env baseDir tt h in
  reads (events out) = map (env_path_resolve env baseDir) files
  /\ globs (events out) = [(pattern, baseDir)].
Proof.
  intros pattern Hg out. subst out. unfold discoverPoliciesFromDefaultStructure.
  rewrite run_call. cbn [events snd]. rewrite run_bind, run_try_catch.
  unfold_log. rewrite run_bind. cbn [emit]. rewrite run_bind. cbn [interact].
  fold pattern. rewrite Hg. rewrite run_bind. cbn [emit completion locals events fst snd].
  match goal with
  | |- context [for_of files ?body ?st ?hh] =>
      assert (L : forall x s h,
                completion (body x s h) = Ok tt
                /\ reads (events (body x s h)) = [env_path_resolve env baseDir x]
                /\ globs (events (body x s h)) = []);
      [|assert (R := for_of_select read_of (fun x => [env_path_resolve env baseDir x]) body
                       (fun x s h => conj (proj1 (L x s h)) (proj1 (proj2 (L x s h))))
                       files st hh);
        assert (G := for_of_select (B := jsstring * jsstring) glob_of (fun _ => []) body
                       (fun x s h => conj (proj1 (L x s h)) (proj2 (proj2 (L x s h))))
                       files st hh);
        destruct (for_of files body st hh) as [[r s1] e1] ]
  end.
  - intros x s h0. rewrite run_try_catch, run_bind. cbn [interact].
    destruct (env_readFile env h0 (env_path_resolve env baseDir x)) as [c|v];
      cbn [completion locals events fst snd].
    + destruct (negb (validateXmlContent c)); [repeat split; reflexivity|].
      destruct (truthy_string (extractApiIdFromPath x)); [|repeat split; reflexivity].
      destruct (isApiLevelPolicy x); [repeat split; reflexivity|].
      destruct (isOperationLevelPolicy x); [|repeat split; reflexivity].
      destruct (truthy_string (extractOperationIdFromPath x)); repeat split; reflexivity.
    + repeat split; reflexivity.
  - destruct R as [Hr R], G as [_ G]. cbn in Hr, R, G. subst r.
    rewrite flat_map_singleton in R. rewrite flat_map_nil in G.
    cbn. unfold reads, globs. cbn [select read_of glob_of].
    rewrite !select_app, R, G. cbn. now rewrite app_nil_r.
Qed.

Lemma default_structure_listing_fails baseDir h v :
  let pattern :=
    replace_backslashes (env_path_join env [baseDir; js "policies"; js "**"; js "*.xml"]) in
  env_glob env (h ++ [Log Debug (js "Searching for policy files with pattern: " ++ pattern)])
           pattern baseDir = Throw v ->
  let out := discoverPoliciesFromDefaultStructure env baseDir tt h in
  completion out = Ok []
  /\ events out
     = [Log Debug (js "Searching for policy files with pattern: " ++ pattern);
        Glob pattern baseDir (Throw v);
        Log Error (js "Failed to discover policies from default structure: "
                   ++ str env (message_of v))].
Proof.
  intros pattern Hg out. subst out. unfold discoverPoliciesFromDefaultStructure.
  rewrite run_call. cbn [events completion fst snd]. rewrite run_bind, run_try_catch.
  unfold_log. rewrite run_bind. cbn [emit]. rewrite run_bind. cbn [interact].
  fold pattern. rewrite Hg. cbn. split; reflexivity.
Qed.

(** What [loadPolicyManifest] returns. *)
Definition manifest_of (manifestPath : jsstring) (h : history) : option jsval :=
  match env_readFile env (h ++ [Log Info (js "Loading policy manifest from: " ++ manifestPath)])
                     manifestPath with
  | Ok manifestContent =>
      match env_parseYaml env manifestContent with
      | Ok manifest =>
          if Js.truthy manifest && Js.truthy (Js.read manifest (js "policies"))
          then Some manifest else None
      | Throw _ => None
      end
  | Throw _ => None
  end.

Lemma loadPolicyManifest_run manifestPath h :
  let out := loadPolicyManifest env manifestPath tt h in
  completion out = Ok (manifest_of manifestPath h)
  /\ reads (events out) = [manifestPath]
  /\ globs (events out) = [].
Proof.
  unfold loadPolicyManifest, manifest_of. unfold_log. cbv zeta.
  rewrite run_try_catch, run_bind. cbn [emit]. rewrite run_bind. cbn [interact].
  destruct (env_readFile env _ manifestPath) as [c|v]; cbn [completion locals events fst snd].
  - rewrite run_bind. cbn [lift]. destruct (env_parseYaml env c) as [m|v];
      cbn [completion locals events fst snd].
    + destruct (Js.truthy m); cbn [negb orb andb]; [|repeat split; reflexivity].
      destruct (Js.truthy (Js.read m (js "policies"))); repeat split; reflexivity.
    + repeat split; reflexivity.
  - repeat split; reflexivity.
Qed.

Lemma manifest_missing manifestPath baseDir h :
  manifest_of manifestPath h = None ->
  let out := discoverPoliciesFromManifest env manifestPath baseDir tt h in
  completion out = Ok [] /\ events out = events (loadPolicyManifest env manifestPath tt h).
Proof.
  intros Hm out. subst out. unfold discoverPoliciesFromManifest.
  rewrite run_call. cbn [completion events fst snd]. rewrite run_bind, run_call.
  destruct (loadPolicyManifest_run manifestPath h) as [Hc _]. cbv zeta in Hc.
  rewrite Hc, Hm. cbn. now rewrite app_nil_r.
Qed.

Lemma manifest_no_glob manifestPath baseDir :
  emits (fun e => glob_of e = None) (discoverPoliciesFromManifest env manifestPath baseDir).
Proof.
  unfold discoverPoliciesFromManifest, loadPolicyManifest. unfold_log. repeat emits_step.
Qed.

Lemma manifest_reads_first manifestPath baseDir h :
  exists rest,
    reads (events (discoverPoliciesFromManifest env manifestPath baseDir tt h))
    = manifestPath :: rest.
Proof.
  unfold discoverPoliciesFromManifest.
  rewrite run_call. cbn [completion events fst snd]. rewrite run_bind, run_call.
  destruct (loadPolicyManifest_run manifestPath h) as (Hc & Hr & _). cbv zeta in Hc, Hr.
  destruct (loadPolicyManifest env manifestPath tt h) as [[r s1] e1].
  cbn in Hc, Hr. subst r. cbn [completion locals events fst snd].
  unfold reads in *. rewrite select_app, Hr. cbn [app]. eauto.
Qed.

Lemma discoverPolicies_local manifestPath baseDir :
  emits (fun e => is_local e = true) (discoverPolicies env manifestPath baseDir).
Proof.
  unfold discoverPolicies, discoverPoliciesFromManifest, discoverPoliciesFromDefaultStructure,
    loadPolicyManifest.
  unfold_log. repeat emits_step.
Qed.

End WithEnv.
End DiscoveryTraces.
Import DiscoveryTraces.

(** X16. Every document that discovery returns, by either strategy, has
    content that passes [validateXmlContent]; so [validatePolicies] accepts a
    discovered list exactly when it is non-empty and no apiId has two
    documents of scope [api], and logs no invalid content. *)
Theorem discovered_documents_are_valid env manifestPath baseDir h :
  exists policies,
    completion (discoverPolicies env manifestPath baseDir tt h) = Ok policies
    /\ Forall valid_document policies
    /\ forall h',
         completion (validatePolicies policies tt h') = Ok true
         <-> policies <> [] /\ forall a, api_documents a policies <= 1.
Proof.
  destruct (discoverPolicies_valid env manifestPath baseDir h) as (ps & Hc & Hv).
  exists ps. split; [exact Hc|]. split; [exact Hv|]. intros h'.
  rewrite validatePolicies_value.
  assert (V : forallb valid_content ps = true).
  { apply forallb_forall. intros p Hp. rewrite Forall_forall in Hv. exact (Hv p Hp). }
  rewrite V, andb_true_r. rewrite <- counts_checked.
  destruct ps as [|p ps]; cbn [List.length Nat.eqb negb andb].
  - split; [discriminate|]. intros [H _]. now elim H.
  - split.
    + intros H. injection H as H. split; [discriminate|exact H].
    + intros [_ H]. now rewrite H.
Qed.

(** X17. Under the directory convention every returned document is derived
    from a relative path [f]: its filePath is [f] resolved against the base
    directory, its content passes [validateXmlContent], its apiId is the
    non-empty [extractApiIdFromPath f], its scope is [api] when
    [isApiLevelPolicy f] holds, and otherwise [operation] with
    [isOperationLevelPolicy f] and the non-empty operationId
    [extractOperationIdFromPath f]: the API-level classifier is asked first. *)
Theorem convention_documents_derived env baseDir h :
  exists policies,
    completion (discoverPoliciesFromDefaultStructure env baseDir tt h) = Ok policies
    /\ Forall (from_convention env baseDir) policies.
Proof. exact (default_structure_provenance env baseDir h). Qed.

(** The pattern the convention strategy hands to glob. *)
Definition policyPattern (env : Env) (baseDir : jsstring) : jsstring :=
  replace_backslashes (env_path_join env [baseDir; js "policies"; js "**"; js "*.xml"]).

(** X18. When the listing succeeds the convention strategy globs once and
    reads every listed file once, in the order of the listing, each resolved
    against the base directory: a file that cannot be read, is invalid or
    cannot be classified does not stop the later ones. *)
Theorem convention_reads_every_listed_file env baseDir h files :
  env_glob env
    (h ++ [Log Debug (js "Searching for policy files with pattern: " ++ policyPattern env baseDir)])
    (policyPattern env baseDir) baseDir = Ok files ->
  let out := discoverPoliciesFromDefaultStructure env baseDir tt h in
  reads (events out) = map (env_path_resolve env baseDir) files
  /\ globs (events out) = [(policyPattern env baseDir, baseDir)].
Proof. exact (default_structure_listed env baseDir h (files := files)). Qed.

Lemma convention_reads_every_listed_file_witness :
  let out := discoverPoliciesFromDefaultStructure Sample.env_two (js ".") tt [] in
  reads (events out) = [js "./policies/api1/api.xml"; js "./policies/api1/operations/op1.xml"]
  /\ globs (events out) = [(js "./policies/**/*.xml", js ".")].
Proof.
  exact (@convention_reads_every_listed_file Sample.env_two (js ".") []
           [js "policies/api1/api.xml"; js "policies/api1/operations/op1.xml"] eq_refl).
Defined.

(** X19. When the listing throws, the convention strategy returns the empty
    list, reads no file and logs one error carrying the message of what was
    thrown. *)
Theorem convention_listing_failure env baseDir h v :
  env_glob env
    (h ++ [Log Debug (js "Searching for policy files with pattern: " ++ policyPattern env baseDir)])
    (policyPattern env baseDir) baseDir = Throw v ->
  let out := discoverPoliciesFromDefaultStructure env baseDir tt h in
  completion out = Ok []
  /\ events out
     = [Log Debug (js "Searching for policy files with pattern: " ++ policyPattern env baseDir);
        Glob (policyPattern env baseDir) baseDir (Throw v);
        Log Error (js "Failed to discover policies from default structure: "
                   ++ str env (message_of v))].
Proof. exact (default_structure_listing_fails env baseDir h (v := v)). Qed.

Definition env_glob_fails : Env :=
  {| env_getInput := env_getInput Sample.env;
     env_glob := fun _ _ _ => Throw (Js.new_Error (js "Glob error"));
     env_readFile := env_readFile Sample.env;
     env_parseYaml := env_parseYaml Sample.env;
     env_path_join := env_path_join Sample.env;
     env_path_resolve := env_path_resolve Sample.env;
     env_invalid_path := env_invalid_path Sample.env;
     env_object_to_string := env_object_to_string Sample.env |}.

Lemma convention_listing_failure_witness :
  let out := discoverPoliciesFromDefaultStructure env_glob_fails (js ".") tt [] in
  completion out = Ok []
  /\ events out
     = [Log Debug (js "Searching for policy files with pattern: ./policies/**/*.xml");
        Glob (js "./policies/**/*.xml") (js ".") (Throw (Js.new_Error (js "Glob error")));
        Log Error (js "Failed to discover policies from default structure: Glob error")].
Proof.
  exact (@convention_listing_failure env_glob_fails (js ".") []
           (Js.new_Error (js "Glob error")) eq_refl).
Defined.

(** X20. [discoverPolicies] chooses by the manifest path: an absent or empty
    path gives the convention strategy, which globs once; a non-empty one gives
    the manifest strategy, which never globs and reads the manifest before
    any other file. *)
Theorem discovery_strategy_choice env baseDir h :
  discoverPolicies env (Some []) baseDir tt h = discoverPolicies env None baseDir tt h
  /\ globs (events (discoverPolicies env None baseDir tt h)) = [(policyPattern env baseDir, baseDir)]
  /\ (forall manifestPath,
        manifestPath <> [] ->
        globs (events (discoverPolicies env (Some manifestPath) baseDir tt h)) = []
        /\ exists rest,
             reads (events (discoverPolicies env (Some manifestPath) baseDir tt h))
             = manifestPath :: rest).
Proof.
  split; [reflexivity|]. split.
  - unfold discoverPolicies. cbn [truthy_string]. unfold_log.
    rewrite run_bind. cbn [emit completion locals events fst snd]. rewrite run_call.
    cbn [events snd]. unfold globs. rewrite select_app. cbn [select glob_of app].
    match goal with
    | |- context [discoverPoliciesFromDefaultStructure env baseDir tt ?hh] =>
        destruct (env_glob env
                    (hh ++ [Log Debug (js "Searching for policy files with pattern: "
                                       ++ policyPattern env baseDir)])
                    (policyPattern env baseDir) baseDir) as [files|v] eqn:E;
        [destruct (default_structure_listed env baseDir hh (files := files) E) as [_ G]
        |destruct (default_structure_listing_fails env baseDir hh (v := v) E) as [_ G]]
    end; cbv zeta in G.
    + exact G.
    + now rewrite G.
  - intros mp Hmp. unfold discoverPolicies. cbn [truthy_string].
    apply eqb_neq in Hmp. rewrite Hmp. unfold_log.
    rewrite run_bind. cbn [emit completion locals events fst snd]. rewrite run_call.
    cbn [events snd]. split.
    + unfold globs. rewrite select_app. cbn [select glob_of app]. apply select_none.
      apply (manifest_no_glob env mp baseDir).
    + unfold reads. rewrite select_app. cbn [select read_of app].
      apply manifest_reads_first.
Qed.

(** X21. [loadPolicyManifest] never throws: it returns the parsed manifest
    when the file can be read and parsed and has a truthy [policies] member,
    and null otherwise. On null the manifest strategy returns the empty list
    and does nothing after the load: no policy file is read. *)
Theorem manifest_load_contract env manifestPath baseDir h :
  completion (loadPolicyManifest env manifestPath tt h) = Ok (manifest_of env manifestPath h)
  /\ reads (events (loadPolicyManifest env manifestPath tt h)) = [manifestPath]
  /\ (manifest_of env manifestPath h = None ->
      let out := discoverPoliciesFromManifest env manifestPath baseDir tt h in
      completion out = Ok [] /\ reads (events out) = [manifestPath]).
Proof.
  destruct (loadPolicyManifest_run env manifestPath h) as (Hc & Hr & _). cbv zeta in Hc, Hr.
  split; [exact Hc|]. split; [exact Hr|]. intros Hm.
  destruct (manifest_missing env manifestPath baseDir h Hm) as [H1 H2]. cbv zeta in H1, H2.
  cbv zeta. split; [exact H1|]. now rewrite H2.
Qed.

(** X22. Discovery stays in the repository: by either strategy it only logs,
    globs and reads files; it sets no output, does not fail the run and calls
    no client. *)
Theorem discovery_is_local env manifestPath baseDir s h :
  Forall (fun e => is_local e = true) (events (discoverPolicies env manifestPath baseDir s h)).
Proof. exact (discoverPolicies_local env manifestPath baseDir s h). Qed.

(* ===================================================================== *)
(** * What validatePolicies logs *)
(* ===================================================================== *)

Definition error_of (e : event) : option jsstring :=
  match e with Log Error message => Some message | _ => None end.
Definition warning_of (e : event) : option jsstring :=
  match e with Log Warning message => Some message | _ => None end.

(** The errors and the warnings logged, in order. *)
Definition errors (evs : list event) : list jsstring := select error_of evs.
Definition warnings (evs : list event) : list jsstring := select warning_of evs.

Module ValidationLogs.

Definition invalid_message (p : PolicyFile) : jsstring :=
  js "Invalid XML content in policy: " ++ filePath p.

Definition duplicate_message (a : jsstring) : jsstring :=
  js "Multiple API policies found for " ++ a.

Definition duplicate_warning (e : jsstring * counts) : list jsstring :=
  if (1 <? api (snd e))%nat then [duplicate_message (fst e)] else [].

Definition invalid_error (p : PolicyFile) : list jsstring :=
  if valid_content p then [] else [invalid_message p].

Lemma In_warnings m evs : In (Log Warning m) evs <-> In m (warnings evs).
Proof.
  unfold warnings. induction evs as [|e evs IH]; cbn [select In]; [tauto|].
  destruct (warning_of e) as [m'|] eqn:E.
  - destruct e as [[] ?| | | | | | | | | | | | | | |]; try discriminate.
    injection E as <-. cbn [In]. rewrite <- IH. split; intros [H|H]; auto.
    + injection H as ->. now left.
    + subst. now left.
  - rewrite <- IH. split; [intros [H|H]; [subst e; discriminate|exact H]|auto].
Qed.

Lemma invalid_errors ps :
  flat_map invalid_error ps
  = map invalid_message (filter (fun p => negb (validateXmlContent (content p))) ps).
Proof.
  induction ps as [|p ps IH]; simpl; [reflexivity|].
  unfold invalid_error at 1, valid_content.
  destruct (validateXmlContent (content p)); simpl; now rewrite IH.
Qed.

Lemma count_policy_logs p st h :
  completion (count_policy p st h) = Ok tt
  /\ errors (events (count_policy p st h)) = invalid_error p
  /\ warnings (events (count_policy p st h)) = [].
Proof.
  unfold count_policy, invalid_error, valid_content. unfold_log. cbn.
  destruct (validateXmlContent (content p)); cbn; repeat split; reflexivity.
Qed.

Lemma report_counts_logs e st h :
  completion (report_counts e st h) = Ok tt
  /\ errors (events (report_counts e st h)) = []
  /\ warnings (events (report_counts e st h)) = duplicate_warning e.
Proof.
  destruct e as [a c]. unfold report_counts, duplicate_warning. unfold_log. cbn [fst snd].
  destruct (1 <? api c)%nat; cbn; repeat split; reflexivity.
Qed.

Lemma validatePolicies_logs ps h :
  ps <> [] ->
  errors (events (validatePolicies ps tt h)) = flat_map invalid_error ps
  /\ warnings (events (validatePolicies ps tt h))
     = flat_map duplicate_warning (fold_left tally ps []).
Proof.
  intros Hne. unfold validatePolicies. rewrite run_call. cbn [events snd].
  destruct (List.length ps =? 0)%nat eqn:E0.
  { destruct ps; [now elim Hne|discriminate]. }
  rewrite run_bind.
  destruct (first_loop ps {| isValid := true; apiCounts := [] |} h) as [_ H2].
  assert (E1 := for_of_select error_of invalid_error count_policy
                  (fun x s h => conj (proj1 (count_policy_logs x s h))
                                     (proj1 (proj2 (count_policy_logs x s h))))
                  ps {| isValid := true; apiCounts := [] |} h).
  assert (W1 := for_of_select warning_of (fun _ => []) count_policy
                  (fun x s h => conj (proj1 (count_policy_logs x s h))
                                     (proj2 (proj2 (count_policy_logs x s h))))
                  ps {| isValid := true; apiCounts := [] |} h).
  destruct (for_of ps count_policy _ h) as [[r s1] e1].
  destruct E1 as [Hr E1], W1 as [_ W1]. cbn in Hr, H2, E1, W1. subst r s1.
  cbn [fst snd completion locals events]. rewrite run_bind.
  cbn [get fst snd completion locals events]. rewrite run_bind. cbn [apiCounts].
  match goal with |- context [for_of _ report_counts ?st ?hh] =>
    assert (E2 := for_of_select error_of (fun _ => []) report_counts
                    (fun x s h => conj (proj1 (report_counts_logs x s h))
                                       (proj1 (proj2 (report_counts_logs x s h))))
                    (fold_left tally ps []) st hh);
    assert (W2 := for_of_select warning_of duplicate_warning report_counts
                    (fun x s h => conj (proj1 (report_counts_logs x s h))
                                       (proj2 (proj2 (report_counts_logs x s h))))
                    (fold_left tally ps []) st hh);
    destruct (for_of (fold_left tally ps []) report_counts st hh) as [[r s2] e2]
  end.
  destruct E2 as [Hr E2], W2 as [_ W2]. cbn in Hr, E2, W2. subst r.
  rewrite flat_map_nil in W1. rewrite flat_map_nil in E2.
  cbn. unfold errors, warnings. rewrite !select_app, E1, W1, E2, W2. cbn.
  now rewrite !app_nil_r.
Qed.

Lemma duplicate_warned a ps :
  In (duplicate_message a) (flat_map duplicate_warning (fold_left tally ps []))
  <-> 1 < api_documents a ps.
Proof.
  assert (Hn : NoDup (map fst (fold_left tally ps []))) by (apply tally_keys; constructor).
  generalize (tally_counts a ps []). cbn [map_get api_of Nat.add]. intros Ht.
  rewrite in_flat_map. split.
  - intros ([a' c] & Hin & Hm). unfold duplicate_warning in Hm. cbn [fst snd] in Hm.
    destruct (1 <? api c)%nat eqn:E; [|now elim Hm]. destruct Hm as [Hm|[]].
    apply app_inv_head in Hm. subst a'. apply Nat.ltb_lt in E.
    apply In_map_get in Hin; [|exact Hn]. rewrite Hin in Ht. cbn in Ht. lia.
  - intros H. destruct (map_get a (fold_left tally ps [])) as [c|] eqn:G; cbn in Ht; [|lia].
    exists (a, c). split; [now apply map_get_In|].
    unfold duplicate_warning. cbn [fst snd].
    assert (E : (1 <? api c)%nat = true) by (apply Nat.ltb_lt; lia).
    rewrite E. now left.
Qed.

End ValidationLogs.
Import ValidationLogs.

(** X23. On a non-empty list [validatePolicies] reports every violation: it
    logs one error [Invalid XML content in policy: <filePath>] for each
    document whose content fails [validateXmlContent], in list order and no
    other error, and it logs the warning [Multiple API policies found for
    <apiId>] exactly for the apiIds with more than one document of scope
    [api]. *)
Theorem validatePolicies_reports_violations policies h :
  policies <> [] ->
  let evs := events (validatePolicies policies tt h) in
  errors evs
  = map (fun p => js "Invalid XML content in policy: " ++ filePath p)
        (filter (fun p => negb (validateXmlContent (content p))) policies)
  /\ forall a,
       In (Log Warning (js "Multiple API policies found for " ++ a)) evs
       <-> 1 < api_documents a policies.
Proof.
  intros Hne evs. destruct (validatePolicies_logs h Hne) as [He Hw]. fold evs in He, Hw.
  split.
  - rewrite He. apply invalid_errors.
  - intros a. rewrite In_warnings, Hw. apply duplicate_warned.
Qed.

Definition invalid_document : PolicyFile :=
  {| filePath := js "policies/api1/api.xml"; apiId := js "api1"; operationId := None;
     scope := ScopeApi; content := js "not xml" |}.

Lemma validatePolicies_reports_violations_witness :
  [invalid_document] <> []
  /\ errors (events (validatePolicies [invalid_document] tt []))
     = [js "Invalid XML content in policy: policies/api1/api.xml"].
Proof.
  assert (H : [invalid_document] <> []) by discriminate.
  split; [exact H|].
  exact (proj1 (@validatePolicies_reports_violations [invalid_document] [] H)).
Defined.

(* ===================================================================== *)
(** * Further properties of run *)
(* ===================================================================== *)

(** The try block of [run]. *)
Definition run_body (env : Env) (new_AzureApimClient : ApimConfig -> M unit Client)
  : M jsstring unit :=
  discovered <- run_setup env new_AzureApimClient ;;
  run_apply env (fst discovered) (snd discovered).

(** What the catch clause of [run] reports for a thrown value. *)
Definition failure_report (v : jsval) : list event :=
  [SetFailed (if Js.instanceof_Error v then Js.read v (js "message")
              else VString (js "An unknown error occurred"));
   SetOutput (js "etag") []].

Definition list_operations_of (e : event) : option jsstring :=
  match e with ListOperations a _ => Some a | _ => None end.
Definition list_apis_of (e : event) : option (outcome (list jsstring)) :=
  match e with ListApis r => Some r | _ => None end.

Module RunFacts.

Section Run.
Variable env : Env.

Lemma run_catch new_client h :
  completion (run env new_client tt h) = Ok tt
  /\ events (run env new_client tt h)
     = events (run_body env new_client [] h)
       ++ match completion (run_body env new_client [] h) with
          | Ok _ => []
          | Throw v => failure_report v
          end.
Proof.
  unfold run. rewrite run_call. cbn [completion events fst snd]. rewrite run_try_catch.
  fold (run_body env new_client).
  destruct (run_body env new_client [] h) as [[[[]|v] s1] e1];
    cbn [completion events locals fst snd].
  - now rewrite app_nil_r.
  - unfold failure_report, core_setFailed, core_setOutput.
    destruct (Js.instanceof_Error v); split; reflexivity.
Qed.

Variable construct : ApimConfig -> outcome ClientOracle.

Lemma run_setup_connection_refused h config o :
  let start := Log Info (js "Starting Azure API Management Policy Update action...") in
  let parsed := parseInputs env tt (h ++ [start]) in
  completion parsed = Ok config ->
  construct config = Ok o ->
  o_testConnection o ((h ++ [start]) ++ events parsed) = Ok false ->
  forall s,
    run_setup env (oracle_constructor construct) s h
    = ((Throw (Js.new_Error (js "Failed to connect to Azure API Management service")), s),
       start :: events parsed ++ [TestConnection (Ok false)]).
Proof.
  intros start parsed Hp Hc Ht s. unfold run_setup. unfold_log.
  rewrite run_bind. cbn [emit completion locals events fst snd]. rewrite run_bind, run_call.
  fold start. fold parsed. rewrite Hp. cbn [completion locals events fst snd].
  rewrite run_bind, run_call. unfold oracle_constructor. rewrite Hc.
  cbn [ret completion locals events fst snd]. rewrite run_bind, run_call.
  cbn [oracle_client c_testConnection]. unfold interact. rewrite !app_nil_r, Ht.
  cbn. now rewrite ?app_nil_r.
Qed.

Lemma run_apply_invalid o ps s h :
  ps <> [] ->
  completion (validatePolicies ps tt []) = Ok false ->
  run_apply env (oracle_client o) ps s h
  = ((Throw (Js.new_Error (js "Policy validation failed")), s),
     events (validatePolicies ps tt h)).
Proof.
  intros Hne Hv. unfold run_apply.
  destruct (List.length ps =? 0)%nat eqn:E0; [destruct ps; [now elim Hne|discriminate]|].
  rewrite run_bind, run_call. rewrite validatePolicies_value in Hv |- *.
  injection Hv as Hv. rewrite Hv.
  cbn. now rewrite app_nil_r.
Qed.

Lemma run_apply_valid o ps s h :
  completion (validatePolicies ps tt []) = Ok true ->
  let validated := events (validatePolicies ps tt h) in
  let announced :=
    [Log Info (js "Found " ++ of_nat (List.length ps) ++ js " valid policy files to process");
     Log Info (js "Starting policy updates...")] in
  let loop := loop_events env o ps ((h ++ validated) ++ announced) in
  let out := run_apply env (oracle_client o) ps s h in
  completion out = Ok tt
  /\ events out
     = validated ++ announced ++ loop
       ++ [SetOutput (js "etag") (last_applied_token (map snd (updates loop)));
           Log Info (js "Action completed successfully")].
Proof.
  intros Hv validated announced loop out. subst out. unfold run_apply.
  rewrite validatePolicies_value in Hv. injection Hv as Hv.
  destruct (List.length ps =? 0)%nat eqn:E0; [discriminate|]. rewrite <- E0 in Hv.
  rewrite run_bind, run_call. rewrite validatePolicies_value, Hv.
  cbn [negb fst snd completion events locals]. fold validated.
  unfold_log. rewrite run_bind. cbn [emit fst snd completion events locals].
  rewrite run_bind. cbn [emit fst snd completion events locals].
  rewrite run_bind. cbn [put fst snd completion events locals].
  rewrite run_bind.
  match goal with |- context [processPolicies env (oracle_client o) ps ?s' ?h'] =>
    replace h' with ((h ++ validated) ++ announced)
      by (unfold announced; now rewrite <- !app_assoc);
    destruct (processPolicies_run env o ps s' ((h ++ validated) ++ announced))
      as (Hc & He & Hl);
    destruct (processPolicies env (oracle_client o) ps s' ((h ++ validated) ++ announced))
      as [[r sl] el]
  end.
  cbn [fst snd completion events locals] in *. subst r. fold loop in He, Hl. subst el sl.
  cbn [fst snd completion events locals app get core_setOutput emit]. rewrite run_bind.
  cbn [fst snd completion events locals app get core_setOutput emit bind].
  split; [reflexivity|]. unfold last_applied_token, announced. cbn [app].
  rewrite <- ?app_assoc. reflexivity.
Qed.

(** ** Counting the events of a kind *)

Section Bounded.
Context {B : Type} (f : event -> option B).

Definition bounded {S A} (n : nat) (m : M S A) : Prop :=
  forall s h, List.length (select f (events (m s h))) <= n.

Definition silent {S A} (m : M S A) : Prop := emits (fun e => f e = None) m.

Lemma silent_bounded {S A} (m : M S A) n : silent m -> bounded n m.
Proof. intros H s h. rewrite (select_none f (H s h)). cbn. lia. Qed.

Lemma bounded_bind {S A C} (R : A -> Prop) n1 n2 (m : M S A) (k : A -> M S C) :
  bounded n1 m -> returns R m -> (forall a, R a -> bounded n2 (k a)) ->
  bounded (n1 + n2) (bind m k).
Proof.
  intros Hm Hr Hk s h. rewrite run_bind. specialize (Hm s h). specialize (Hr s h).
  destruct (m s h) as [[[a|v] s1] e1]; cbn [events snd completion fst] in *; [|lia].
  rewrite select_app, length_app. specialize (Hk a (Hr a eq_refl) s1 (h ++ e1)). lia.
Qed.

Lemma bounded_try_catch {S A} n (m : M S A) handler :
  bounded n m -> (forall v, silent (handler v)) -> bounded n (try_catch m handler).
Proof.
  intros Hm Hh s h. rewrite run_try_catch. specialize (Hm s h).
  destruct (m s h) as [[[a|v] s1] e1]; cbn [events snd] in *; [exact Hm|].
  rewrite select_app, length_app, (select_none f (Hh v s1 (h ++ e1))). cbn. lia.
Qed.

Lemma bounded_call {S S' A} n (m : M S' A) s0 : bounded n m -> bounded n (@call S S' A m s0).
Proof. intros H s h. rewrite run_call. apply H. Qed.

Lemma bounded_for_of {S X} (l : list X) (body : X -> M S unit) :
  (forall x, bounded 1 (body x)) -> bounded (List.length l) (for_of l body).
Proof.
  intros Hb. induction l as [|x l IH]; intros s h; [cbn; lia|].
  cbn [for_of]. rewrite run_bind. specialize (Hb x s h).
  destruct (body x s h) as [[[[]|v] s1] e1]; cbn [events snd List.length] in *; [|lia].
  rewrite select_app, length_app. specialize (IH s1 (h ++ e1)). lia.
Qed.

End Bounded.

Lemma run_setup_lists_operations :
  bounded list_operations_of 3 (run_setup env (oracle_constructor construct)).
Proof.
  unfold run_setup. unfold_log.
  apply bounded_bind with (R := fun _ => True) (n1 := 0) (n2 := 3);
    [apply silent_bounded; unfold silent; repeat emits_step|apply returns_any|intros _ _].
  apply bounded_bind with (R := fun _ => True) (n1 := 0) (n2 := 3);
    [apply silent_bounded; unfold silent, parseInputs; unfold_log; repeat emits_step
    |apply returns_any|intros config _].
  apply bounded_bind with (R := from_oracle) (n1 := 0) (n2 := 3);
    [apply silent_bounded; unfold silent, oracle_constructor; repeat emits_step
    |apply constructor_returns|intros c [o ->]].
  apply bounded_bind with (R := fun _ => True) (n1 := 0) (n2 := 3);
    [apply silent_bounded; unfold silent; cbn [oracle_client c_testConnection];
     repeat emits_step|apply returns_any|intros b _].
  destruct (negb b); [apply silent_bounded; unfold silent; repeat emits_step|].
  apply bounded_bind with (R := fun _ => True) (n1 := 0) (n2 := 3);
    [apply silent_bounded; unfold silent; repeat emits_step|apply returns_any|intros _ _].
  apply bounded_bind with (R := fun _ => True) (n1 := 0) (n2 := 3);
    [apply silent_bounded; unfold silent; cbn [oracle_client c_listApis];
     repeat emits_step|apply returns_any|intros apis _].
  apply bounded_bind with (R := fun _ => True) (n1 := 3) (n2 := 0);
    [|apply returns_any|intros _ _; apply silent_bounded; unfold silent].
  - destruct (0 <? List.length apis)%nat;
      [|apply silent_bounded; unfold silent; repeat emits_step].
    apply bounded_bind with (R := fun _ => True) (n1 := 0) (n2 := 3);
      [apply silent_bounded; unfold silent; repeat emits_step|apply returns_any|intros _ _].
    intros s h.
    assert (L : List.length (firstn 3 apis) <= 3) by (rewrite length_firstn; lia).
    etransitivity; [|exact L]. apply bounded_for_of. intros a s' h'.
    cbn [oracle_client c_listOperations]. rewrite run_bind, run_call. unfold interact.
    cbn [completion locals events fst snd].
    destruct (o_listOperations o h' a) as [ops|v]; cbn [events snd]; [|cbn; lia].
    destruct (0 <? List.length ops)%nat; cbn; lia.
  - unfold discoverPolicies, discoverPoliciesFromManifest, discoverPoliciesFromDefaultStructure,
      loadPolicyManifest.
    unfold_log. repeat emits_step.
Qed.

Lemma run_apply_silent o ps :
  silent list_operations_of (run_apply env (oracle_client o) ps).
Proof.
  unfold silent, run_apply, processPolicies, processPolicy, validatePolicies, count_policy,
    report_counts, core_setOutput.
  unfold_log. cbn [oracle_client c_updateApiPolicy c_updateOperationPolicy].
  repeat emits_step.
Qed.

Lemma run_lists_operations h :
  List.length (select list_operations_of (events (run env (oracle_constructor construct) tt h)))
  <= 3.
Proof.
  unfold run.
  apply bounded_call.
  apply bounded_try_catch.
  - apply bounded_bind with (R := fun x => from_oracle (fst x)) (n1 := 3) (n2 := 0);
      [apply run_setup_lists_operations|apply run_setup_returns|].
    intros [c ps] [o Ho]. cbn in Ho. subst c. cbn [fst snd].
    apply silent_bounded, run_apply_silent.
  - intros v. unfold silent, core_setFailed, core_setOutput. repeat emits_step.
Qed.

End Run.
End RunFacts.
Import RunFacts.

(** X24. [run] never throws, whatever the constructor of the client and the
    client do: what its try block throws is reported by [setFailed], with the
    message of an [Error] and with [An unknown error occurred] for any other
    value, and is followed by the empty [etag] output; nothing is added to a
    try block that completes. *)
Theorem run_never_throws env new_AzureApimClient h :
  completion (run env new_AzureApimClient tt h) = Ok tt
  /\ events (run env new_AzureApimClient tt h)
     = events (run_body env new_AzureApimClient [] h)
       ++ match completion (run_body env new_AzureApimClient [] h) with
          | Ok _ => []
          | Throw v =>
              [SetFailed (if Js.instanceof_Error v then Js.read v (js "message")
                          else VString (js "An unknown error occurred"));
               SetOutput (js "etag") []]
          end.
Proof. exact (run_catch env new_AzureApimClient h). Qed.

(** X25. When [testConnection] answers false the run stops there: after the
    inputs are parsed and the connection is tested it lists no API, discovers
    nothing and calls no update; it fails with [Failed to connect to Azure API
    Management service] and publishes the empty [etag]. *)
Theorem connection_refused_ends_run env construct h config o :
  let start := Log Info (js "Starting Azure API Management Policy Update action...") in
  let parsed := parseInputs env tt (h ++ [start]) in
  completion parsed = Ok config ->
  construct config = Ok o ->
  o_testConnection o ((h ++ [start]) ++ events parsed) = Ok false ->
  events (run env (oracle_constructor construct) tt h)
  = start :: events parsed
    ++ [TestConnection (Ok false);
        SetFailed (VString (js "Failed to connect to Azure API Management service"));
        SetOutput (js "etag") []].
Proof.
  intros start parsed Hp Hc Ht.
  destruct (run_catch env (oracle_constructor construct) h) as [_ ->].
  unfold run_body. rewrite run_bind.
  rewrite (run_setup_connection_refused env construct h Hp Hc Ht).
  cbn [completion events fst snd]. fold start. fold parsed.
  cbn. rewrite <- app_assoc. reflexivity.
Qed.

Lemma connection_refused_ends_run_witness :
  events (run Sample.env (oracle_constructor (fun _ => Ok Replay.refusing)) tt [])
  = [Log Info (js "Starting Azure API Management Policy Update action...");
     GetInput (js "subscription_id") true (Ok (js "id"));
     GetInput (js "resource_group") true (Ok (js "id"));
     GetInput (js "apim_name") true (Ok (js "id"));
     GetInput (js "policy_manifest_path") false (Ok []);
     Log Info (js "Configuration loaded:");
     Log Info (js "  Subscription ID: id");
     Log Info (js "  Resource Group: id");
     Log Info (js "  APIM Service: id");
     TestConnection (Ok false);
     SetFailed (VString (js "Failed to connect to Azure API Management service"));
     SetOutput (js "etag") []].
Proof.
  exact (@connection_refused_ends_run Sample.env (fun _ => Ok Replay.refusing) []
           {| subscriptionId := js "id"; resourceGroupName := js "id"; serviceName := js "id";
              policyManifestPath := None |}
           Replay.refusing eq_refl eq_refl eq_refl).
Defined.

(** X26. When discovery has found documents and [validatePolicies] rejects
    them, the run fails with [Policy validation failed], calls no update and
    publishes the empty [etag]. *)
Theorem validation_failure_fails_run env construct h client policies :
  completion (run_setup env (oracle_constructor construct) [] h) = Ok (client, policies) ->
  policies <> [] ->
  completion (validatePolicies policies tt []) = Ok false ->
  let evs := events (run env (oracle_constructor construct) tt h) in
  failures evs = [VString (js "Policy validation failed")]
  /\ updates evs = []
  /\ etag_outputs evs = [[]].
Proof.
  intros Hs Hne Hv evs. subst evs.
  destruct (run_catch env (oracle_constructor construct) h) as [_ ->].
  unfold run_body. rewrite run_bind.
  generalize (run_setup_quiet env construct [] h) (run_setup_returns env construct [] h).
  destruct (run_setup env (oracle_constructor construct) [] h) as [[r s1] e1].
  cbn [fst snd completion events locals] in *. subst r. intros Hq Hr.
  destruct (Hr _ eq_refl) as [o Ho]. cbn in Ho. subst client. cbn [fst snd].
  rewrite (run_apply_invalid env o s1 (h ++ e1) Hne Hv).
  cbn [fst snd completion events locals].
  generalize (validatePolicies_quiet policies tt (h ++ e1)). intros Hq2.
  unfold failures, updates, etag_outputs. rewrite !select_app.
  fold (failures e1) (updates e1) (etag_outputs e1).
  fold (failures (events (validatePolicies policies tt (h ++ e1))))
       (updates (events (validatePolicies policies tt (h ++ e1))))
       (etag_outputs (events (validatePolicies policies tt (h ++ e1)))).
  rewrite (quiet_outputs Hq), (quiet_updates Hq), (quiet_failures Hq).
  rewrite (quiet_outputs Hq2), (quiet_updates Hq2), (quiet_failures Hq2).
  cbn. auto.
Qed.

Definition api_document : PolicyFile :=
  {| filePath := js "./policies/api1/api.xml"; apiId := js "api1"; operationId := None;
     scope := ScopeApi; content := js "<policies></policies>" |}.

Definition env_duplicate : Env :=
  Replay.with_glob [js "policies/api1/api.xml"; js "policies/api1/api.xml"].

Lemma validation_failure_fails_run_witness :
  let evs := events (run env_duplicate (oracle_constructor Sample.construct) tt []) in
  failures evs = [VString (js "Policy validation failed")]
  /\ updates evs = []
  /\ etag_outputs evs = [[]].
Proof.
  assert (Hne : [api_document; api_document] <> []) by discriminate.
  exact (@validation_failure_fails_run env_duplicate Sample.construct []
           (oracle_client Sample.oracle) [api_document; api_document] eq_refl Hne eq_refl).
Defined.

(** X27. When discovery has found documents and [validatePolicies] accepts
    them, the run calls the update of every discovered document, once each
    and in discovery order, whatever the client answers; it reports no
    failure and ends with the [etag] output followed by [Action completed
    successfully]. *)
Theorem run_requests_every_document env construct h client policies :
  completion (run_setup env (oracle_constructor construct) [] h) = Ok (client, policies) ->
  completion (validatePolicies policies tt []) = Ok true ->
  let evs := events (run env (oracle_constructor construct) tt h) in
  map fst (updates evs) = map request_of policies
  /\ failures evs = []
  /\ exists before token,
       evs = before ++ [SetOutput (js "etag") token;
                        Log Info (js "Action completed successfully")].
Proof.
  intros Hs Hv evs. subst evs.
  destruct (run_catch env (oracle_constructor construct) h) as [_ ->].
  unfold run_body. rewrite run_bind.
  generalize (run_setup_quiet env construct [] h) (run_setup_returns env construct [] h).
  destruct (run_setup env (oracle_constructor construct) [] h) as [[r s1] e1].
  cbn [fst snd completion events locals] in *. subst r. intros Hq Hr.
  destruct (Hr _ eq_refl) as [o Ho]. cbn in Ho. subst client. cbn [fst snd].
  destruct (@run_apply_valid env o policies s1 (h ++ e1) Hv) as [Hc He]. cbv zeta in Hc, He.
  rewrite Hc, He. clear Hc He. rewrite app_nil_r.
  generalize (validatePolicies_quiet policies tt (h ++ e1)). intros Hq2.
  set (validated := events (validatePolicies policies tt (h ++ e1))) in *.
  match goal with
  | |- context [loop_events env o policies ?hh] =>
      destruct (loop_no_output env o policies hh) as [_ Hf];
      generalize (loop_requests env o policies hh); intros Hl;
      set (loop := loop_events env o policies hh) in *
  end.
  cbn [events snd]. split; [|split].
  - unfold updates in *. rewrite !select_app.
    fold (updates e1) (updates validated).
    rewrite (quiet_updates Hq), (quiet_updates Hq2). cbn [select update_of app].
    now rewrite app_nil_r.
  - unfold failures in *. rewrite !select_app.
    fold (failures e1) (failures validated).
    rewrite (quiet_failures Hq), (quiet_failures Hq2). cbn [select failure_of app].
    now rewrite Hf.
  - eexists. eexists. rewrite !app_assoc. reflexivity.
Qed.

Lemma run_requests_every_document_witness :
  map fst (updates (events (run Sample.env_two (oracle_constructor Sample.construct) tt [])))
  = [ReqApi (js "api1") (js "<policies></policies>");
     ReqOperation (js "api1") (Some (js "op1")) (js "<policies></policies>")].
Proof.
  exact (proj1 (@run_requests_every_document Sample.env_two Sample.construct []
                  (oracle_client Sample.oracle)
                  [api_document;
                   {| filePath := js "./policies/api1/operations/op1.xml"; apiId := js "api1";
                      operationId := Some (js "op1"); scope := ScopeOperation;
                      content := js "<policies></policies>" |}]
                  eq_refl eq_refl)).
Defined.

(** X28. A run asks the client for the operations of at most three APIs,
    however many the service lists. *)
Theorem run_lists_operations_of_three_apis env construct h :
  List.length (select list_operations_of
                 (events (run env (oracle_constructor construct) tt h))) <= 3.
Proof. exact (run_lists_operations env construct h). Qed.

(** X29. [testConnection] asks the service once and returns true exactly
    when that call succeeds; when it throws, [testConnection] returns false
    and logs the error [Azure connection test failed: <message>]. *)
Theorem testConnection_result :
  forall env sdk config h,
    let answer := sdk_service_get sdk (h ++ [Log Info (js "Testing Azure connection...")])
                    (resourceGroupName config) (serviceName config) in
    let out := testConnection env sdk config tt h in
    completion out = Ok (match answer with Ok _ => true | Throw _ => false end)
    /\ (exists rest,
          events out
          = Log Info (js "Testing Azure connection...")
            :: ServiceGet (resourceGroupName config) (serviceName config) answer :: rest
          /\ Forall (fun e => match e with Log _ _ => True | _ => False end) rest)
    /\ (forall v, answer = Throw v ->
        In (Log Error (js "Azure connection test failed: " ++ str env (message_of v)))
           (events out)).
Proof.
  intros env sdk config h answer out. subst out answer. unfold testConnection.
  rewrite run_try_catch, run_bind.
  cbn [core_info emit fst snd completion locals events]. rewrite run_bind.
  unfold interact. cbn [fst snd completion locals events].
  destruct (sdk_service_get sdk _ (resourceGroupName config) (serviceName config))
    as [service|v]; cbn.
  - split; [reflexivity|]. split; [|intros v H; discriminate].
    eexists. split; [reflexivity|]. repeat constructor.
  - split; [reflexivity|]. split.
    + eexists. split; [reflexivity|]. repeat constructor.
    + intros v' H. injection H as <-. right. right. now left.
Qed.

